(** * The final-image compositor of imageUtils, embedded and verified

    The development follows [compositeFinalImage] and [getDominantColor]:
    the cover-fit geometry, the colour sampler of the bottom band, the
    gradient scrim and the greedy word-wrap of the game name.

    Modelling conventions.
    - A JavaScript number is a rational ([Q]); values that the code only
      ever uses as integers (loop counters, array offsets, channel sums) are
      integers ([Z]).  The cover-fit computation ([coverFit]) and the
      quotients of the colour sampler in [averageOf64] are computed as the
      code computes them, in double precision: every operation is followed
      by [round64].  Elsewhere arithmetic is exact, and decimal constants
      such as [0.2] stand for the exact fraction.
    - A string is a list of 8-bit code units ([list ascii]).  Case mapping
      is the ASCII one; white space is the ECMAScript white space that fits
      in one byte.
    - The 2D context is an explicit state: canvas dimensions, backing
      bitmap, drawing attributes and the list of drawing calls issued so
      far.  What the platform does with a call (rasterising, measuring text)
      is a variable of the section that needs it.
    - A computation on the context either raises an exception or returns a
      value and the new context.  The image is taken as already decoded;
      [getContext('2d')] on the new canvas is taken to succeed; target
      dimensions are integers that the canvas stores unchanged.  Whether
      the browser allocates a bitmap for a canvas of a given size is a
      variable too: beyond its limit [toDataURL] returns no image. *)

From Stdlib Require Import ZArith QArith Qround Qabs Qpower List Ascii String Bool Lia Lqa.
From Stdlib Require Import Strings.Byte DecimalString DecimalFacts DecimalPos DecimalZ.
Import ListNotations.

Local Open Scope Z_scope.

(** ** Numbers *)

Definition Number := Q.

(** [Math.floor]. *)
Definition floor (x : Number) : Z := Qfloor x.
Arguments floor x%_Q.

(** [x > y] on numbers, as a boolean. *)
Definition Qgtb (x y : Q) : bool := negb (Qle_bool x y).

(** *** Double precision

    A double is a rational of the form [m * 2^e] with [|m| < 2^53].  The
    operations of the code round their exact result to the nearest such
    number, ties to the even [m].  The exponent range is not modelled: no
    overflow to [Infinity] and no subnormal numbers, which magnitudes
    between [1e-300] and [1e300] never meet. *)

(** The nearest integer, ties to even. *)
Definition roundHalfEven (q : Q) : Z :=
  let f := Qfloor q in
  match (q - inject_Z f ?= 1 # 2)%Q with
  | Lt => f
  | Gt => f + 1
  | Eq => if Z.even f then f else f + 1
  end.

(** [floor (log2 |q|)] for [q] other than 0: the difference of the bit
    lengths of numerator and denominator, or one less. *)
Definition exponentOf (q : Q) : Z :=
  let k := Z.log2 (Z.abs (Qnum q)) - Z.log2 (Zpos (Qden q)) in
  if Qle_bool (2 ^ k) (Qabs q) then k else k - 1.

(** The double nearest to [q]: [q] is scaled so that it lies between
    [2^52] and [2^53], rounded to an integer and scaled back. *)
Definition round64 (q : Q) : Q :=
  let q := Qred q in
  if Qeq_bool q 0 then 0%Q
  else let ulp := (2 ^ (exponentOf q - 52))%Q in
       (inject_Z (roundHalfEven (q / ulp)) * ulp)%Q.

(** [x - y], [x * y] and [x / y] on doubles. *)
Definition fsub (x y : Q) : Q := round64 (x - y).
Definition fmul (x y : Q) : Q := round64 (x * y).
Definition fdiv (x y : Q) : Q := round64 (x / y).

(** [2^-53], the largest relative error of one rounding. *)
Definition eps64 : Q := 1 # 9007199254740992.

(** [Number.MAX_SAFE_INTEGER]: up to it every integer is a double. *)
Definition maxSafeInteger : Z := 9007199254740991.

(** ** Strings *)

Definition jsstring := list ascii.

(** String literals. *)
Definition lit (s : string) : jsstring := list_ascii_of_string s.

Definition space : ascii := " "%char.

Definition isSpace (c : ascii) : bool := Ascii.eqb c space.

(** [String.prototype.toUpperCase], on ASCII letters. *)
Definition upperChar (c : ascii) : ascii :=
  let n := nat_of_ascii c in
  if (97 <=? n)%nat && (n <=? 122)%nat then ascii_of_nat (n - 32) else c.

Definition toUpperCase (s : jsstring) : jsstring := map upperChar s.

(** [s.split(' ')]: the pieces between consecutive spaces; there is always
    at least one piece, and a piece may be empty. *)
Fixpoint split (s : jsstring) : list jsstring :=
  match s with
  | [] => [[]]
  | c :: s' =>
      if isSpace c then [] :: split s'
      else match split s' with
           | [] => [[c]]
           | w :: ws => (c :: w) :: ws
           end
  end.

(** ECMAScript WhiteSpace and LineTerminator code units below 256:
    TAB, LF, VT, FF, CR, SP and NBSP. *)
Definition isWhiteSpace (c : ascii) : bool :=
  let n := nat_of_ascii c in
  ((9 <=? n)%nat && (n <=? 13)%nat) || (n =? 32)%nat || (n =? 160)%nat.

Fixpoint trimStart (s : jsstring) : jsstring :=
  match s with
  | [] => []
  | c :: s' => if isWhiteSpace c then trimStart s' else s
  end.

Definition trimEnd (s : jsstring) : jsstring := rev (trimStart (rev s)).

(** [String.prototype.trim]. *)
Definition trim (s : jsstring) : jsstring := trimEnd (trimStart s).

(** [pieces.join(' ')]. *)
Fixpoint join (pieces : list jsstring) : jsstring :=
  match pieces with
  | [] => []
  | [p] => p
  | p :: rest => p ++ space :: join rest
  end.

(** Number to string, as a template literal prints an integer. *)
Definition numberToString (z : Z) : jsstring :=
  lit (NilZero.string_of_int (Z.to_int z)).

Definition isDigit (c : ascii) : bool :=
  let n := nat_of_ascii c in (48 <=? n)%nat && (n <=? 57)%nat.

Definition flushRun (run : jsstring) : list jsstring :=
  match run with [] => [] | _ => [run] end.

(** The matches of [/\d+/g] in [s], left to right; [run] is the match
    being read. *)
Fixpoint digitRuns (s : jsstring) (run : jsstring) : list jsstring :=
  match s with
  | [] => flushRun run
  | c :: s' =>
      if isDigit c then digitRuns s' (run ++ [c])
      else flushRun run ++ digitRuns s' []
  end.

(** [s.match(/\d+/g)]: [None] is JavaScript's [null], returned when there
    is no match. *)
Definition matchDigits (s : jsstring) : option (list jsstring) :=
  match digitRuns s [] with
  | [] => None
  | runs => Some runs
  end.

(** [Number(run)] for a run of decimal digits. *)
Definition NumberOfDigits (run : jsstring) : Z :=
  match NilZero.uint_of_string (string_of_list_ascii run) with
  | Some u => Z.of_uint u
  | None => 0
  end.

(** ** Pixels and image data *)

(** One RGBA pixel of a bitmap; channels are bytes, as in a
    [Uint8ClampedArray]. *)
Record Pixel := mkPixel { red : byte; green : byte; blue : byte; alpha : byte }.

Definition channel (b : byte) : Z := Z.of_N (Byte.to_N b).

Definition transparentBlack : Pixel := mkPixel x00 x00 x00 x00.

Definition Bitmap := Z -> Z -> Pixel.

Definition pixelBytes (p : Pixel) : list byte := [red p; green p; blue p; alpha p].

(** The rows [sy .. sy+sh-1], columns [sx .. sx+sw-1] of a bitmap, row by
    row, four bytes per pixel. *)
Definition rowData (bm : Bitmap) (sx sw y : Z) : list byte :=
  flat_map (fun k => pixelBytes (bm (sx + Z.of_nat k) y)) (seq 0 (Z.to_nat sw)).

Definition rectData (bm : Bitmap) (sx sy sw sh : Z) : list byte :=
  flat_map (fun j => rowData bm sx sw (sy + Z.of_nat j)) (seq 0 (Z.to_nat sh)).

(** [data[offset]] read as a number. *)
Definition at_ (data : list byte) (offset : Z) : Z :=
  channel (nth (Z.to_nat offset) data x00).

(** ** The 2D context *)

(** A CSS colour as the code writes it into an [rgba(...)] string: the
    three channel numbers and the alpha, not yet rounded by anyone. *)
Record Color := rgba { cr : Q; cg : Q; cb : Q; ca : Q }.

Record LinearGradient := mkGradient {
  gx0 : Q; gy0 : Q; gx1 : Q; gy1 : Q;
  colorStops : list (Q * Color)
}.

(** [ctx.createLinearGradient(x0, y0, x1, y1)]. *)
Definition createLinearGradient (x0 y0 x1 y1 : Q) : LinearGradient :=
  mkGradient x0 y0 x1 y1 [].

(** [gradient.addColorStop(offset, color)]. *)
Definition addColorStop (offset : Q) (c : Color) (g : LinearGradient) : LinearGradient :=
  mkGradient (gx0 g) (gy0 g) (gx1 g) (gy1 g) (colorStops g ++ [(offset, c)]).

Inductive Style :=
| Solid (c : Color)
| Gradient (g : LinearGradient).

(** A font of the family ["Inter", sans-serif]: weight and pixel size. *)
Record Font := mkFont { fontWeight : Z; fontSize : Z }.

Inductive TextAlign := AlignStart | AlignCenter.

Record Attrs := mkAttrs {
  fillStyle : Style;
  font : Font;
  textAlign : TextAlign;
  shadowColor : Color;
  shadowBlur : Q;
  shadowOffsetX : Q;
  shadowOffsetY : Q
}.

(** A decoded [HTMLImageElement]. *)
Record Image := mkImage { imgWidth : Z; imgHeight : Z; imgPixels : Bitmap }.

Inductive DrawCall :=
| FillRect (x y w h : Q)
| DrawImage (img : Image) (dx dy dw dh : Q)
| FillText (text : jsstring) (x y : Q).

(** The canvas with its 2D context.  [calls] lists the drawing calls in
    the order they were issued, each with the attributes in force. *)
Record Context2D := mkContext {
  canvasWidth : Z;
  canvasHeight : Z;
  bitmap : Bitmap;
  attrs : Attrs;
  calls : list (Attrs * DrawCall)
}.

Definition black : Color := rgba 0 0 0 1.
Definition white : Color := rgba 255 255 255 1.

(** The attributes of a context that was just created. *)
Definition defaultAttrs : Attrs :=
  mkAttrs (Solid black) (mkFont 400 10) AlignStart (rgba 0 0 0 0) 0 0 0.

(** [document.createElement('canvas')] followed by the two assignments to
    [canvas.width] and [canvas.height] and by [getContext('2d')].  The
    canvas keeps the size it is given; whether the browser allocates a
    bitmap of that size shows in [toDataURL]. *)
Definition createCanvas (width height : Z) : Context2D :=
  mkContext width height (fun _ _ => transparentBlack) defaultAttrs [].

(** A pixel of the canvas; outside the canvas [getImageData] reads
    transparent black. *)
Definition canvasPixel (c : Context2D) : Bitmap :=
  fun x y =>
    if (0 <=? x) && (x <? canvasWidth c) && (0 <=? y) && (y <? canvasHeight c)
    then bitmap c x y else transparentBlack.

(** The image in the result of [canvas.toDataURL('image/png')]: a
    lossless image of the canvas, kept as its dimensions and pixels. *)
Record EncodedImage := mkEncoded { pngWidth : Z; pngHeight : Z; pngPixels : Bitmap }.

(** [canvas.toDataURL(...)].  [None] stands for the string ["data:,"],
    the result for a canvas without pixels: one whose width or height is
    0, or one of a size for which the browser allocates no bitmap
    ([allocates] tells). *)
Definition toDataURL (allocates : Z -> Z -> bool) (c : Context2D) : option EncodedImage :=
  if (0 <? canvasWidth c) && (0 <? canvasHeight c)
     && allocates (canvasWidth c) (canvasHeight c)
  then Some (mkEncoded (canvasWidth c) (canvasHeight c) (canvasPixel c))
  else None.

(** ** Context operations: state and exceptions *)

Inductive Error :=
| IndexSizeError   (* getImageData on an empty rectangle *)
| SyntaxError      (* addColorStop with a colour that does not parse *)
| OutOfFuel.       (* a loop of the model ran out of fuel *)

Definition M (A : Type) : Type := Context2D -> Error + (A * Context2D).

Definition ret {A} (a : A) : M A := fun c => inr (a, c).

Definition bind {A B} (m : M A) (k : A -> M B) : M B :=
  fun c => match m c with
           | inl e => inl e
           | inr (a, c') => k a c'
           end.

Definition throw {A} (e : Error) : M A := fun _ => inl e.

Declare Scope ctx_scope.
Delimit Scope ctx_scope with ctx.
Notation "x <- m ;; k" := (bind m (fun x => k))
  (at level 100, m at next level, right associativity) : ctx_scope.
Notation "m ;;; k" := (bind m (fun _ => k))
  (at level 100, right associativity) : ctx_scope.

Definition setAttrs (f : Attrs -> Attrs) : M unit :=
  fun c => inr (tt, mkContext (canvasWidth c) (canvasHeight c) (bitmap c)
                              (f (attrs c)) (calls c)).

Definition getAttrs : M Attrs := fun c => inr (attrs c, c).

Definition setFillStyle (s : Style) : M unit :=
  setAttrs (fun a => mkAttrs s (font a) (textAlign a) (shadowColor a)
                             (shadowBlur a) (shadowOffsetX a) (shadowOffsetY a)).

Definition setFont (f : Font) : M unit :=
  setAttrs (fun a => mkAttrs (fillStyle a) f (textAlign a) (shadowColor a)
                             (shadowBlur a) (shadowOffsetX a) (shadowOffsetY a)).

Definition setTextAlign (t : TextAlign) : M unit :=
  setAttrs (fun a => mkAttrs (fillStyle a) (font a) t (shadowColor a)
                             (shadowBlur a) (shadowOffsetX a) (shadowOffsetY a)).

Definition setShadowColor (s : Color) : M unit :=
  setAttrs (fun a => mkAttrs (fillStyle a) (font a) (textAlign a) s
                             (shadowBlur a) (shadowOffsetX a) (shadowOffsetY a)).

Definition setShadowBlur (b : Q) : M unit :=
  setAttrs (fun a => mkAttrs (fillStyle a) (font a) (textAlign a) (shadowColor a)
                             b (shadowOffsetX a) (shadowOffsetY a)).

Definition setShadowOffsetX (x : Q) : M unit :=
  setAttrs (fun a => mkAttrs (fillStyle a) (font a) (textAlign a) (shadowColor a)
                             (shadowBlur a) x (shadowOffsetY a)).

Definition setShadowOffsetY (y : Q) : M unit :=
  setAttrs (fun a => mkAttrs (fillStyle a) (font a) (textAlign a) (shadowColor a)
                             (shadowBlur a) (shadowOffsetX a) y).

(** [ctx.getImageData(sx, sy, sw, sh)] for [sw, sh >= 0]: an empty
    rectangle raises [IndexSizeError]. *)
Definition getImageData (sx sy sw sh : Z) : M (list byte) :=
  fun c =>
    if (sw =? 0) || (sh =? 0) then inl IndexSizeError
    else inr (rectData (canvasPixel c) sx sy sw sh, c).

(** ** imageUtils *)

Local Open Scope ctx_scope.

(** The [for] loop of [getDominantColor]: from index [i], in steps of 10
    while [i < count], add the three colour bytes of pixel [i] to the sums.
    [None] when [fuel] iterations were not enough to reach the exit. *)
Fixpoint sampleLoop (fuel : nat) (data : list byte) (count i : Z)
    (rgb : Z * Z * Z) : option (Z * Z * Z) :=
  if i <? count then
    match fuel with
    | O => None
    | S fuel' =>
        let '(r, g, b) := rgb in
        let offset := i * 4 in
        sampleLoop fuel' data count (i + 10)
          (r + at_ data offset, g + at_ data (offset + 1), b + at_ data (offset + 2))
    end
  else Some rgb.

(** The template literal [`rgb(${r},${g},${b})`]. *)
Definition rgbString (r g b : Z) : jsstring :=
  lit "rgb(" ++ numberToString r ++ lit "," ++ numberToString g ++ lit ","
    ++ numberToString b ++ lit ")".

(** The body of [getDominantColor] after [getImageData]: sums, adjusted
    count and the three floored quotients.  [data.length] is four times
    the number of pixels, so [count] is an exact quotient, and it is
    positive whenever [getImageData] returned.  The quotients by
    [actualCount] are exact here; [averageOf64] below takes them in double
    precision, which can floor to one less when [count] is not a multiple
    of ten. *)
Definition averageOf (data : list byte) : option (Z * Z * Z) :=
  let count := Z.of_nat (List.length data) / 4 in
  match sampleLoop (Z.to_nat count) data count 0 (0, 0, 0) with
  | None => None
  | Some (r, g, b) =>
      (* Adjust count because we skipped pixels *)
      let actualCount := (inject_Z count / 10)%Q in
      Some (floor (inject_Z r / actualCount),
            floor (inject_Z g / actualCount),
            floor (inject_Z b / actualCount))
  end.

Definition getDominantColor (width height : Z) : M jsstring :=
  (* Sample the bottom 20% of the image *)
  let sampleHeight := floor (inject_Z height * 0.2) in
  let startY := height - sampleHeight in
  data <- getImageData 0 startY width sampleHeight ;;
  match averageOf data with
  | None => throw OutOfFuel
  | Some (r, g, b) => ret (rgbString r g b)
  end.

(** Where and how large the source image is drawn. *)
Record Placement := mkPlacement {
  drawWidth : Q; drawHeight : Q; offsetX : Q; offsetY : Q
}.

(** The cover-fit computation of [compositeFinalImage], in the double
    arithmetic of the code, for positive dimensions that are integers up
    to [maxSafeInteger]. *)
Definition coverFit (imgW imgH targetWidth targetHeight : Z) : Placement :=
  let imgAspect := fdiv (inject_Z imgW) (inject_Z imgH) in
  let targetAspect := fdiv (inject_Z targetWidth) (inject_Z targetHeight) in
  if Qgtb imgAspect targetAspect then
    (* Image is wider than target *)
    let drawHeight := inject_Z targetHeight in
    let drawWidth := fmul (inject_Z imgW) (fdiv (inject_Z targetHeight) (inject_Z imgH)) in
    mkPlacement drawWidth drawHeight (fdiv (fsub (inject_Z targetWidth) drawWidth) 2) 0%Q
  else
    (* Image is taller than target *)
    let drawWidth := inject_Z targetWidth in
    let drawHeight := fmul (inject_Z imgH) (fdiv (inject_Z targetWidth) (inject_Z imgW)) in
    mkPlacement drawWidth drawHeight 0%Q (fdiv (fsub (inject_Z targetHeight) drawHeight) 2).

(** [const [r,g,b] = rgbMatch ? rgbMatch.map(Number) : [0,0,0]].  With
    fewer than three matches a component is [undefined]; the colour strings
    built from it do not parse and [addColorStop] raises. *)
Definition parseTheme (themeColor : jsstring) : M (Z * Z * Z) :=
  let rgbMatch := matchDigits themeColor in
  match (match rgbMatch with
         | Some runs => map NumberOfDigits runs
         | None => [0; 0; 0]
         end) with
  | r :: g :: b :: _ => ret (r, g, b)
  | _ => throw SyntaxError
  end.

(** The word-wrap loop of the game name: [words] are the words from index
    [n] on, [line] the line being filled, [lines] the lines committed so
    far.  Returns [line] and [lines] at the exit of the loop. *)
Fixpoint wrapLoop (measure : jsstring -> Q) (maxWidth : Q)
    (words : list jsstring) (n : nat) (line : jsstring) (lines : list jsstring)
    : jsstring * list jsstring :=
  match words with
  | [] => (line, lines)
  | w :: rest =>
      let testLine := line ++ w ++ [space] in
      let testWidth := measure testLine in
      if Qgtb testWidth maxWidth && (0 <? n)%nat then
        wrapLoop measure maxWidth rest (S n) (w ++ [space]) (lines ++ [line])
      else
        wrapLoop measure maxWidth rest (S n) testLine lines
  end.

(** The array [lines] after the loop and the final [lines.push(line)]. *)
Definition wrapLines (measure : jsstring -> Q) (maxWidth : Q) (gameName : jsstring)
    : list jsstring :=
  let words := split (toUpperCase gameName) in
  let '(line, lines) := wrapLoop measure maxWidth words 0 [] [] in
  lines ++ [line].

Section Platform.

(** [ctx.measureText(text).width] under a given font. *)
Variable textWidth : Font -> jsstring -> Q.

(** The bitmap of a [width] x [height] canvas after one drawing call. *)
Variable paint : Z -> Z -> Attrs -> DrawCall -> Bitmap -> Bitmap.

(** Whether the browser allocates a bitmap for a canvas of this width
    and height: browsers limit the sides and the area of a canvas.  On a
    canvas without bitmap drawing has no effect: there [paint] is the
    identity. *)
Variable allocates : Z -> Z -> bool.

Definition draw (d : DrawCall) : M unit :=
  fun c => inr (tt, mkContext (canvasWidth c) (canvasHeight c)
                      (paint (canvasWidth c) (canvasHeight c) (attrs c) d (bitmap c))
                      (attrs c) (calls c ++ [(attrs c, d)])).

Definition fillRect (x y w h : Q) : M unit := draw (FillRect x y w h).
Definition drawImage (img : Image) (dx dy dw dh : Q) : M unit :=
  draw (DrawImage img dx dy dw dh).
Definition fillText (text : jsstring) (x y : Q) : M unit := draw (FillText text x y).

(** [ctx.measureText(text).width]. *)
Definition measureText (a : Attrs) (text : jsstring) : Q := textWidth (font a) text.

(** 1. Draw Image (Cover fit) *)
Definition drawBackground (img : Image) (targetWidth targetHeight : Z) : M unit :=
  let p := coverFit (imgWidth img) (imgHeight img) targetWidth targetHeight in
  (* Draw background black first *)
  setFillStyle (Solid black) ;;;
  fillRect 0 0 (inject_Z targetWidth) (inject_Z targetHeight) ;;;
  (* Draw the AI generated image *)
  drawImage img (offsetX p) (offsetY p) (drawWidth p) (drawHeight p).

(** The gradient built from the parsed theme colour. *)
Definition themeGradient (targetHeight : Z) (r g b : Z) : LinearGradient :=
  let gradient :=
    createLinearGradient 0 (inject_Z targetHeight * 0.5) 0 (inject_Z targetHeight) in
  let gradient :=
    addColorStop 0 (rgba (inject_Z r) (inject_Z g) (inject_Z b) 0) gradient in
  let gradient :=
    addColorStop 0.6 (rgba (inject_Z r * 0.5) (inject_Z g * 0.5) (inject_Z b * 0.5) 0.8)
      gradient in
  addColorStop 1 (rgba (inject_Z r * 0.2) (inject_Z g * 0.2) (inject_Z b * 0.2) 1)
    gradient.

(** 3. Add Gradient Overlay *)
Definition addGradientOverlay (themeColor : jsstring) (targetWidth targetHeight : Z)
    : M unit :=
  rgb <- parseTheme themeColor ;;
  let '(r, g, b) := rgb in
  let gradient := themeGradient targetHeight r g b in
  setFillStyle (Gradient gradient) ;;;
  fillRect 0 (inject_Z targetHeight * 0.4) (inject_Z targetWidth)
    (inject_Z targetHeight * 0.6).

(** The loop drawing the wrapped lines, from index [i]. *)
Fixpoint fillLines (lines : list jsstring) (i : nat) (x y lineHeight : Q) : M unit :=
  match lines with
  | [] => ret tt
  | l :: rest =>
      fillText (trim l) x (y + inject_Z (Z.of_nat i) * lineHeight) ;;;
      fillLines rest (S i) x y lineHeight
  end.

(** 4. Add Text *)
Definition addText (gameName providerName : jsstring) (targetWidth targetHeight : Z)
    : M unit :=
  setTextAlign AlignCenter ;;;
  setShadowColor (rgba 0 0 0 0.8) ;;;
  setShadowBlur 10 ;;;
  setShadowOffsetX 0 ;;;
  setShadowOffsetY 4 ;;;
  (* Game Name *)
  let fontSizeName := floor (inject_Z targetWidth * 0.12) in
  setFont (mkFont 900 fontSizeName) ;;;
  setFillStyle (Solid white) ;;;
  let y := (inject_Z targetHeight - inject_Z targetHeight * 0.18)%Q in
  let lineHeight := (inject_Z fontSizeName * 1.1)%Q in
  (* Check if name is too long, move up slightly *)
  let y := if (15 <? List.length gameName)%nat then (y - lineHeight)%Q else y in
  let maxWidth := (inject_Z targetWidth * 0.9)%Q in
  a <- getAttrs ;;
  let lines := wrapLines (measureText a) maxWidth gameName in
  (* Adjust Y based on number of lines to keep it anchored at bottom *)
  let y := (inject_Z targetHeight - inject_Z targetHeight * 0.15
            - inject_Z (Z.of_nat (List.length lines) - 1) * lineHeight)%Q in
  fillLines lines 0 (inject_Z targetWidth / 2) y lineHeight ;;;
  (* Provider Name *)
  let fontSizeProvider := floor (inject_Z targetWidth * 0.05) in
  setFont (mkFont 500 fontSizeProvider) ;;;
  setFillStyle (Solid (rgba 255 255 255 0.7)) ;;;
  setShadowBlur 0 ;;;
  let providerY := (inject_Z targetHeight - inject_Z targetHeight * 0.05)%Q in
  fillText (toUpperCase providerName) (inject_Z targetWidth / 2) providerY.

(** The drawing part of [compositeFinalImage], on the context of the new
    canvas. *)
Definition compose (img : Image) (gameName providerName : jsstring)
    (targetWidth targetHeight : Z) : M unit :=
  drawBackground img targetWidth targetHeight ;;;
  (* 2. Extract Color Theme from the rendered image *)
  themeColor <- getDominantColor targetWidth targetHeight ;;
  addGradientOverlay themeColor targetWidth targetHeight ;;;
  addText gameName providerName targetWidth targetHeight.

Definition compositeFinalImage (img : Image) (gameName providerName : jsstring)
    (targetWidth targetHeight : Z) : Error + option EncodedImage :=
  match compose img gameName providerName targetWidth targetHeight
          (createCanvas targetWidth targetHeight) with
  | inl e => inl e
  | inr (_, ctx) => inr (toDataURL allocates ctx)
  end.

End Platform.

(** ** Reading the result *)






(** The [fillText] calls issued under a font of the given weight: text,
    x and y.  The game name is drawn with weight 900, the provider with
    weight 500. *)
Definition textCalls (weight : Z) (cs : list (Attrs * DrawCall))
    : list (jsstring * Q * Q) :=
  flat_map (fun ad =>
              match snd ad with
              | FillText t x y =>
                  if fontWeight (font (fst ad)) =? weight then [(t, x, y)] else []
              | _ => []
              end) cs.


(** The [drawImage] calls: destination x, y, width and height. *)
Definition imageDraws (cs : list (Attrs * DrawCall)) : list (Q * Q * Q * Q) :=
  flat_map (fun ad =>
              match snd ad with
              | DrawImage _ dx dy dw dh => [(dx, dy, dw, dh)]
              | _ => []
              end) cs.

(** The vertical positions of a list of text calls. *)
Definition ys (ts : list (jsstring * Q * Q)) : list Q := map snd ts.
Definition texts (ts : list (jsstring * Q * Q)) : list jsstring :=
  map (fun t => fst (fst t)) ts.

(** A computation leaves the canvas dimensions as they are. *)
Definition keepsSize {A} (m : M A) : Prop :=
  forall c a c', m c = inr (a, c') ->
    canvasWidth c' = canvasWidth c /\ canvasHeight c' = canvasHeight c.

(** Properties of a title used in the statements below. *)

(** Every word of [s] is non-empty: no leading, trailing or doubled
    space.  The empty title has the single empty word and is accepted. *)
Definition singleSpaced (s : jsstring) : Prop :=
  s = [] \/ Forall (fun w => w <> []) (split s).

(** The same, read off the characters: the title does not begin with a
    space, and every space is followed by a character that is not one. *)
Definition startsWithSpace (s : jsstring) : bool :=
  match s with
  | [] => false
  | c :: _ => isSpace c
  end.

Fixpoint spacesFollowed (s : jsstring) : bool :=
  match s with
  | [] => true
  | c :: s' =>
      (if isSpace c
       then match s' with [] => false | _ => negb (startsWithSpace s') end
       else true) && spacesFollowed s'
  end.

(** No word begins or ends with a white-space character. *)
Definition tightWords (s : jsstring) : Prop :=
  Forall (fun w => trim w = w) (split s).

(** The words of a line, each followed by one space, as the loop builds
    a line. *)
Definition spaced (ws : list jsstring) : jsstring :=
  List.concat (map (fun w => w ++ [space]) ws).

(** Rounding toward zero, the rounding of 8-bit channel arithmetic. *)
Definition truncTowardZero (x : Q) : Z := Z.quot (Qnum x) (Zpos (Qden x)).

(** The number of pixels the sampling loop visits among [count]. *)
Definition visited (count : Z) : Z := (count + 9) / 10.

(** The sum of byte [c] of the first [k] visited pixels. *)
Fixpoint channelSum (data : list byte) (c : Z) (k : nat) : Z :=
  match k with
  | O => 0
  | S k' => channelSum data c k' + at_ data (Z.of_nat k' * 40 + c)
  end.

(** ** Fixtures: a deterministic platform and small canvases *)

(** Every character is as wide as the font size. *)
Definition monoWidth (f : Font) (text : jsstring) : Q :=
  inject_Z (fontSize f * Z.of_nat (List.length text)).

(** A rasteriser that paints every pixel opaque red. *)
Definition paintRed (w h : Z) (a : Attrs) (d : DrawCall) (bm : Bitmap) : Bitmap :=
  fun _ _ => mkPixel xff x00 x00 xff.

Definition redCanvas (w h : Z) : Context2D :=
  mkContext w h (fun _ _ => mkPixel xff x00 x00 xff) defaultAttrs [].

Definition landscape : Image := mkImage 1920 1080 (fun _ _ => mkPixel xff x00 x00 xff).

(** An 11 x 11 image. *)
Definition speck : Image := mkImage 11 11 (fun _ _ => mkPixel xff x00 x00 xff).

(** A browser that allocates canvases with sides up to 65535 and up to
    268435456 pixels. *)
Definition sizeLimit (w h : Z) : bool :=
  (w <=? 65535) && (h <=? 65535) && (w * h <=? 268435456).

(** ** The calls a run is expected to issue *)

(** Attributes in force while the gradient is filled. *)
Definition overlayAttrs (g : LinearGradient) : Attrs :=
  mkAttrs (Gradient g) (mkFont 400 10) AlignStart (rgba 0 0 0 0) 0 0 0.

(** Attributes in force while the game name is drawn. *)
Definition titleAttrs (targetWidth : Z) : Attrs :=
  mkAttrs (Solid white) (mkFont 900 (floor (inject_Z targetWidth * 0.12)))
          AlignCenter (rgba 0 0 0 0.8) 10 0 4.

(** Attributes in force while the provider name is drawn. *)
Definition providerAttrs (targetWidth : Z) : Attrs :=
  mkAttrs (Solid (rgba 255 255 255 0.7)) (mkFont 500 (floor (inject_Z targetWidth * 0.05)))
          AlignCenter (rgba 0 0 0 0.8) 0 0 4.

(** The calls of [fillLines], under attributes [a]. *)
Fixpoint lineCalls (a : Attrs) (lines : list jsstring) (i : nat) (x y lineHeight : Q)
    : list (Attrs * DrawCall) :=
  match lines with
  | [] => []
  | l :: rest =>
      (a, FillText (trim l) x (y + inject_Z (Z.of_nat i) * lineHeight)%Q)
        :: lineCalls a rest (S i) x y lineHeight
  end.

(** The line height of the game name. *)
Definition titleLineHeight (targetWidth : Z) : Q :=
  (inject_Z (floor (inject_Z targetWidth * 0.12)) * 1.1)%Q.

(** The top of the text block, as assigned after the wrap. *)
Definition titleTop (targetWidth targetHeight : Z) (n : nat) : Q :=
  (inject_Z targetHeight - inject_Z targetHeight * 0.15
   - inject_Z (Z.of_nat n - 1) * titleLineHeight targetWidth)%Q.

(** Text, x and y of the calls of [fillLines]. *)
Fixpoint placedLines (lines : list jsstring) (i : nat) (x y lineHeight : Q)
    : list (jsstring * Q * Q) :=
  match lines with
  | [] => []
  | l :: rest =>
      (trim l, x, (y + inject_Z (Z.of_nat i) * lineHeight)%Q)
        :: placedLines rest (S i) x y lineHeight
  end.

(** The wrapped game name as [addText] computes it. *)
Definition titleLines (textWidth : Font -> jsstring -> Q) (gameName : jsstring)
    (targetWidth : Z) : list jsstring :=
  wrapLines (textWidth (mkFont 900 (floor (inject_Z targetWidth * 0.12))))
            (inject_Z targetWidth * 0.9) gameName.

(** All calls of a run that sampled the theme colour [(r, g, b)]. *)
Definition expectedCalls (textWidth : Font -> jsstring -> Q) (img : Image)
    (gameName providerName : jsstring) (targetWidth targetHeight : Z) (r g b : Z)
    : list (Attrs * DrawCall) :=
  let p := coverFit (imgWidth img) (imgHeight img) targetWidth targetHeight in
  let lines := titleLines textWidth gameName targetWidth in
  [(defaultAttrs, FillRect 0 0 (inject_Z targetWidth) (inject_Z targetHeight));
   (defaultAttrs, DrawImage img (offsetX p) (offsetY p) (drawWidth p) (drawHeight p));
   (overlayAttrs (themeGradient targetHeight r g b),
    FillRect 0 (inject_Z targetHeight * 0.4) (inject_Z targetWidth)
             (inject_Z targetHeight * 0.6))]
  ++ lineCalls (titleAttrs targetWidth) lines 0 (inject_Z targetWidth / 2)
               (titleTop targetWidth targetHeight (List.length lines))
               (titleLineHeight targetWidth)
  ++ [(providerAttrs targetWidth,
       FillText (toUpperCase providerName) (inject_Z targetWidth / 2)
                (inject_Z targetHeight - inject_Z targetHeight * 0.05))].



(** The horizontal tab. *)
Definition tab : ascii := "009"%char.

(** ** More vocabulary for statements about [getDominantColor] *)

(** The height of the sampled band. *)
Definition sampleHeightOf (height : Z) : Z := floor (inject_Z height * 0.2).

(** Pixel number [i] of the band, counted row by row from the top left
    corner of the band. *)
Definition bandPixel (c : Context2D) (width height : Z) (i : Z) : Pixel :=
  canvasPixel c (i mod width) (height - sampleHeightOf height + i / width).

(** The sum of one colour channel over the pixels [0, 10, 20, ...],
    [k] of them. *)
Fixpoint sampledSum (f : Pixel -> byte) (px : Z -> Pixel) (k : nat) : Z :=
  match k with
  | O => 0
  | S k' => sampledSum f px k' + channel (f (px (Z.of_nat k' * 10)))
  end.

(** ** The sampler in double precision *)

(** [averageOf] with the quotients as the code takes them: [count / 10]
    is rounded to a double, and so is each sum divided by it.  The sums
    and [count] are integers far below [maxSafeInteger]. *)
Definition averageOf64 (data : list byte) : option (Z * Z * Z) :=
  let count := Z.of_nat (List.length data) / 4 in
  match sampleLoop (Z.to_nat count) data count 0 (0, 0, 0) with
  | None => None
  | Some (r, g, b) =>
      (* Adjust count because we skipped pixels *)
      let actualCount := fdiv (inject_Z count) 10 in
      Some (floor (fdiv (inject_Z r) actualCount),
            floor (fdiv (inject_Z g) actualCount),
            floor (fdiv (inject_Z b) actualCount))
  end.

(** [getDominantColor] with these quotients. *)
Definition getDominantColor64 (width height : Z) : M jsstring :=
  (* Sample the bottom 20% of the image *)
  let sampleHeight := floor (inject_Z height * 0.2) in
  let startY := height - sampleHeight in
  bind (getImageData 0 startY width sampleHeight)
       (fun data =>
          match averageOf64 data with
          | None => throw OutOfFuel
          | Some (r, g, b) => ret (rgbString r g b)
          end).

(** Fixture: a canvas whose first column is the colour (33, 55, 66) and
    whose other pixels are black. *)
Definition stripeCanvas (w h : Z) : Context2D :=
  mkContext w h
    (fun x _ => if x =? 0 then mkPixel x21 x37 x42 xff else mkPixel x00 x00 x00 xff)
    defaultAttrs [].

(** ** JavaScript values used by the service and the application *)

(** A thrown value.  The code reads nothing of it but [message]; [None]
    stands for a missing or [undefined] message. *)
Record JsError := mkError { message : option jsstring }.

(** [new Error(text)]. *)
Definition newError (text : jsstring) : JsError := mkError (Some text).

(** The result of awaiting a promise: rejected with a thrown value, or
    fulfilled. *)
Definition Outcome (A : Type) : Type := (JsError + A)%type.

(** Truthiness of an optional string: missing, [undefined] and the empty
    string are falsy. *)
Definition truthy (s : option jsstring) : bool :=
  match s with
  | Some (_ :: _) => true
  | _ => false
  end.

(** [s || fallback] for an optional string. *)
Definition orElse (s : option jsstring) (fallback : jsstring) : jsstring :=
  match s with
  | Some (c :: rest) => c :: rest
  | _ => fallback
  end.

(** [s] without the prefix [p], when [s] starts with [p]. *)
Fixpoint stripPrefix (p s : jsstring) : option jsstring :=
  match p, s with
  | [], _ => Some s
  | a :: p', b :: s' => if Ascii.eqb a b then stripPrefix p' s' else None
  | _ :: _, [] => None
  end.

(** ** geminiService *)

(** The alternatives of the pattern, in the order it lists them. *)
Definition headerTypes : list jsstring := [lit "png"; lit "jpeg"; lit "jpg"; lit "webp"].

(** The first alternative after which [;base64,] follows. *)
Fixpoint stripType (types : list jsstring) (s : jsstring) : option jsstring :=
  match types with
  | [] => None
  | t :: rest =>
      match stripPrefix (t ++ lit ";base64,") s with
      | Some s' => Some s'
      | None => stripType rest s
      end
  end.

(** [imageBase64.replace(/^data:image\/(png|jpeg|jpg|webp);base64,/, '')]. *)
Definition stripDataHeader (imageBase64 : jsstring) : jsstring :=
  match stripPrefix (lit "data:image/") imageBase64 with
  | Some s =>
      match stripType headerTypes s with
      | Some s' => s'
      | None => imageBase64
      end
  | None => imageBase64
  end.

Record InlineData := mkInlineData {
  mimeType : option jsstring;
  data : option jsstring
}.

Record Part := mkPart {
  text : option jsstring;
  inlineData : option InlineData
}.

Record Content := mkContent { parts : option (list Part) }.
Record Candidate := mkCandidate { content : option Content }.
Record Response := mkResponse { candidates : option (list Candidate) }.

Record Request := mkRequest {
  model : jsstring;
  contents : list Part
}.

(** [response.candidates?.[0]?.content?.parts]. *)
Definition responseParts (response : Response) : option (list Part) :=
  match candidates response with
  | Some (first :: _) =>
      match content first with
      | Some ct => parts ct
      | None => None
      end
  | _ => None
  end.

(** The [for ... of] loop over the parts: the data URL of the first part
    that carries image data, the empty string when there is none. *)
Fixpoint firstImage (ps : list Part) : jsstring :=
  match ps with
  | [] => []
  | part :: rest =>
      match inlineData part with
      | Some i =>
          if truthy (data i)
          then lit "data:" ++ orElse (mimeType i) (lit "image/png") ++ lit ";base64,"
                 ++ orElse (data i) []
          else firstImage rest
      | None => firstImage rest
      end
  end.

Section Gemini.

(** [ai.models.generateContent]. *)
Variable generateContent : Request -> Outcome Response.

(** The request the service sends. *)
Definition portraitRequest (imageBase64 prompt : jsstring) : Request :=
  (* We clean the base64 string if it contains the header *)
  let cleanBase64 := stripDataHeader imageBase64 in
  mkRequest (lit "gemini-2.5-flash-image")
    [mkPart (Some prompt) None;
     mkPart None (Some (mkInlineData (Some (lit "image/jpeg")) (Some cleanBase64)))].

(** The [try] block of [generatePortraitImage]. *)
Definition generatePortraitImage_try (imageBase64 prompt : jsstring) : Outcome jsstring :=
  match generateContent (portraitRequest imageBase64 prompt) with
  | inl error => inl error
  | inr response =>
      match responseParts response with
      | None => inl (newError (lit "No content returned from Gemini"))
      | Some ps =>
          let generatedImageBase64 := firstImage ps in
          match generatedImageBase64 with
          | [] =>
              inl (newError
                     (lit "Gemini did not return an image. It might have refused the request."))
          | _ => inr generatedImageBase64
          end
      end
  end.

Definition generatePortraitImage (imageBase64 prompt : jsstring) : Outcome jsstring :=
  match generatePortraitImage_try imageBase64 prompt with
  | inl error => inl (newError (orElse (message error) (lit "Failed to generate image")))
  | inr image => inr image
  end.

End Gemini.

(** A part that the loop of [generatePortraitImage] passes over. *)
Definition carriesNoImage (part : Part) : Prop :=
  match inlineData part with
  | Some i => truthy (data i) = false
  | None => True
  end.

(** Fixtures: a service that answers with a remark and the image it was
    sent, and one that rejects every call with a value without message. *)
Definition echoService (request : Request) : Outcome Response :=
  match contents request with
  | [_; image] =>
      inr (mkResponse (Some [mkCandidate (Some (mkContent
             (Some [mkPart (Some (lit "Here is the portrait.")) None; image])))]))
  | _ => inr (mkResponse None)
  end.

Definition unreachableService (request : Request) : Outcome Response :=
  inl (mkError None).

(** ** types *)

(** The values of [ProcessingStatus.status]; [errored] is ['error']. *)
Inductive StatusName :=
| idle | downloading | generating | compositing | complete | errored.

Definition StatusName_eqb (a b : StatusName) : bool :=
  match a, b with
  | idle, idle | downloading, downloading | generating, generating
  | compositing, compositing | complete, complete | errored, errored => true
  | _, _ => false
  end.

(** A value read from JSON.  A number is the value the parser produced,
    as an exact rational; an overflow to [Infinity] is not represented. *)
#[local] Set Warnings "-register-all".
Inductive JSON :=
| JNull
| JBool (b : bool)
| JNumber (q : Q)
| JString (s : jsstring)
| JArray (items : list JSON)
| JObject (members : list (jsstring * JSON)).

(** A [ProcessingStatus] object.  A field is [None] when the object has no
    such key or holds [undefined] there: an object built by spreading may
    lack any of them. *)
Record ProcessingStatus := mkStatus {
  ps_id : option JSON;
  status : option StatusName;
  originalImageBase64 : option jsstring;
  cleanedImageBase64 : option jsstring;
  finalImageBase64 : option jsstring;
  error : option jsstring
}.

(** A [Partial<ProcessingStatus>]: for each key, [None] when the object
    does not have it, otherwise its value, which may be [undefined]. *)
Record StatusUpdate := mkUpdate {
  u_id : option (option JSON);
  u_status : option (option StatusName);
  u_originalImageBase64 : option (option jsstring);
  u_cleanedImageBase64 : option (option jsstring);
  u_finalImageBase64 : option (option jsstring);
  u_error : option (option jsstring)
}.

(** The object [{}]. *)
Definition emptyStatus : ProcessingStatus := mkStatus None None None None None None.
Definition noUpdate : StatusUpdate := mkUpdate None None None None None None.

(** The string [toDataURL] returns: the encoded image, or ["data:,"] for
    a canvas without pixels. *)
Definition dataURL (encode : EncodedImage -> jsstring) (image : option EncodedImage)
    : jsstring :=
  match image with
  | Some i => encode i
  | None => lit "data:,"
  end.

Record GameData := mkGame {
  id : jsstring;
  name : jsstring;
  providerName : option jsstring;
  gameThumbnail : jsstring;
  slug : option jsstring
}.

Record AppSettings := mkSettings {
  width : Z;
  height : Z;
  enhancePrompt : jsstring
}.

Definition DEFAULT_SETTINGS : AppSettings :=
  mkSettings 1080 1920
    (lit "Remove all logos, text, and UI overlays from this game thumbnail. Recreate the scene to fit a vertical portrait format (9:16 aspect ratio). Extend the background seamlessly to fill the top and bottom. Center the main character or object. Maintain the original art style, color palette, and high-quality aesthetics. Do not add any text.").

(** ** App *)

Definition jsstring_eqb (a b : jsstring) : bool :=
  if list_eq_dec ascii_dec a b then true else false.

(** [Record<string, ProcessingStatus>]: what [statuses[key]] reads. *)
Definition Statuses := jsstring -> option ProcessingStatus.

Definition noStatuses : Statuses := fun _ => None.

Definition override {A} (new : option A) (old : A) : A :=
  match new with
  | Some v => v
  | None => old
  end.

(** [{ ...prev, ...update }]. *)
Definition spread (prev : ProcessingStatus) (update : StatusUpdate) : ProcessingStatus :=
  mkStatus (override (u_id update) (ps_id prev))
           (override (u_status update) (status prev))
           (override (u_originalImageBase64 update) (originalImageBase64 prev))
           (override (u_cleanedImageBase64 update) (cleanedImageBase64 prev))
           (override (u_finalImageBase64 update) (finalImageBase64 prev))
           (override (u_error update) (error prev)).

(** [{ ...prev[id] }]: spreading [undefined] gives the empty object. *)
Definition orEmpty (s : option ProcessingStatus) : ProcessingStatus :=
  match s with
  | Some st => st
  | None => emptyStatus
  end.

(** The function [updateStatus] passes to [setStatuses]. *)
Definition updateStatus (key : jsstring) (update : StatusUpdate) (prev : Statuses)
    : Statuses :=
  fun k => if jsstring_eqb k key then Some (spread (orEmpty (prev key)) update)
           else prev k.

(** [error.message || "Unknown error"] and the update of the [catch]
    block of [processGame]. *)
Definition failureUpdate (e : JsError) : StatusUpdate :=
  mkUpdate None (Some (Some errored)) None None None
           (Some (Some (orElse (message e) (lit "Unknown error")))).

(** [game.providerName || "Provider"]. *)
Definition providerOf (game : GameData) : jsstring :=
  orElse (providerName game) (lit "Provider").

Section Application.

(** The browser, as far as the application uses it. *)

(** Loading an image from a URL; [None] when [onerror] fires. *)
Variable loadUrl : jsstring -> option Image.
(** Decoding a data URL into an image; [None] when [onerror] fires. *)
Variable loadImage : jsstring -> option Image.
(** The encoders behind [toDataURL('image/jpeg', 0.95)] and
    [toDataURL('image/png')], for a canvas that has pixels. *)
Variable jpegDataURL : EncodedImage -> jsstring.
Variable pngDataURL : EncodedImage -> jsstring.
(** The message of the exception a canvas call raises. *)
Variable exceptionMessage : Error -> option jsstring.
Variable textWidth : Font -> jsstring -> Q.
Variable paint : Z -> Z -> Attrs -> DrawCall -> Bitmap -> Bitmap.
Variable allocates : Z -> Z -> bool.
Variable generateContent : Request -> Outcome Response.

(** [urlToBase64]: the image drawn at its own size on a canvas of that
    size, as a JPEG data URL.  The canvas is taken to have a 2D context.
    [drawImage] does not throw, so the first branch is never taken. *)
Definition urlToBase64 (url : jsstring) : Outcome jsstring :=
  match loadUrl url with
  | None => inl (newError (lit "Failed to load image: " ++ url))
  | Some img =>
      let canvas := createCanvas (imgWidth img) (imgHeight img) in
      match drawImage paint img 0 0 (inject_Z (imgWidth img)) (inject_Z (imgHeight img))
              canvas with
      | inl e => inl (mkError (exceptionMessage e))
      | inr (_, ctx) => inr (dataURL jpegDataURL (toDataURL allocates ctx))
      end
  end.

(** [compositeFinalImage] as it is called: it first awaits [loadImage],
    which rejects with the error event, a value without [message]. *)
Definition compositeFinalImageFrom (base64Image gameName providerName : jsstring)
    (targetWidth targetHeight : Z) : Outcome jsstring :=
  match loadImage base64Image with
  | None => inl (mkError None)
  | Some img =>
      match compositeFinalImage textWidth paint allocates img gameName providerName
              targetWidth targetHeight with
      | inl e => inl (mkError (exceptionMessage e))
      | inr out => inr (dataURL pngDataURL out)
      end
  end.

(** The updates one run of [processGame] passes to [updateStatus], in
    order. *)
Definition processGameUpdates (settings : AppSettings) (game : GameData)
    : list StatusUpdate :=
  (* Step 1: Download / Convert to Base64 *)
  mkUpdate None (Some (Some downloading)) None None None (Some None) ::
  match urlToBase64 (gameThumbnail game) with
  | inl e => [failureUpdate e]
  | inr originalBase64 =>
      mkUpdate None None (Some (Some originalBase64)) None None None ::
      (* Step 2: Generate Clean Portrait with AI *)
      mkUpdate None (Some (Some generating)) None None None None ::
      match generatePortraitImage generateContent originalBase64 (enhancePrompt settings) with
      | inl e => [failureUpdate e]
      | inr cleanImageBase64 =>
          mkUpdate None None None (Some (Some cleanImageBase64)) None None ::
          (* Step 3: Composite (Color Theme, Gradient, Text) *)
          mkUpdate None (Some (Some compositing)) None None None None ::
          match compositeFinalImageFrom cleanImageBase64 (name game) (providerOf game)
                  (width settings) (height settings) with
          | inl e => [failureUpdate e]
          | inr finalImage =>
              (* Complete *)
              [mkUpdate None (Some (Some complete)) None None (Some (Some finalImage)) None]
          end
      end
  end.

(** The statuses after the updates of a list, each for its key. *)
Definition applyUpdates (updates : list (jsstring * StatusUpdate)) (prev : Statuses)
    : Statuses :=
  fold_left (fun s ku => updateStatus (fst ku) (snd ku) s) updates prev.

(** One run of [processGame], with no other update in between. *)
Definition processGame (settings : AppSettings) (game : GameData) (prev : Statuses)
    : Statuses :=
  applyUpdates (map (fun u => (id game, u)) (processGameUpdates settings game)) prev.

(** The games [processAll] starts. *)
Definition processAll (games : list GameData) (statuses : Statuses) : list GameData :=
  filter (fun game =>
            match statuses (id game) with
            | Some st =>
                match status st with
                | Some s => StatusName_eqb s idle || StatusName_eqb s errored
                | None => false
                end
            | None => false
            end) games.

End Application.

(** All the ways two sequences of steps can be interleaved. *)
Inductive interleaved {A} : list A -> list A -> list A -> Prop :=
| interleaved_nil : interleaved [] [] []
| interleaved_left x xs ys zs :
    interleaved xs ys zs -> interleaved (x :: xs) ys (x :: zs)
| interleaved_right y xs ys zs :
    interleaved xs ys zs -> interleaved xs (y :: ys) (y :: zs).

(** The status of one game after a list of updates for it. *)
Definition statusAfter (updates : list StatusUpdate) (s : option ProcessingStatus)
    : option ProcessingStatus :=
  fold_left (fun s u => Some (spread (orEmpty s) u)) updates s.

(** *** parseGames *)

(** [o[key]] for the object with the given members: when a name occurs
    more than once, [JSON.parse] keeps the last value. *)
Fixpoint member (key : jsstring) (members : list (jsstring * JSON)) : option JSON :=
  match members with
  | [] => None
  | (k, v) :: rest =>
      match member key rest with
      | Some v' => Some v'
      | None => if jsstring_eqb k key then Some v else None
      end
  end.

(** Truthiness of the value of a property; [None] is [undefined]. *)
Definition truthyValue (v : option JSON) : bool :=
  match v with
  | None => false
  | Some JNull => false
  | Some (JBool b) => b
  | Some (JNumber q) => negb (Qeq_bool q 0)
  | Some (JString []) => false
  | Some _ => true
  end.

(** [g.id && g.name && g.gameThumbnail] as the filter reads it: [None]
    when reading [g.id] throws, which it does for [null] only; a string,
    number, boolean or array has none of the three properties. *)
Definition isValidGame (g : JSON) : option bool :=
  match g with
  | JNull => None
  | JObject ms =>
      Some (truthyValue (member (lit "id") ms)
            && truthyValue (member (lit "name") ms)
            && truthyValue (member (lit "gameThumbnail") ms))
  | _ => Some false
  end.

(** [parsed.filter(...)]; [None] when the callback throws. *)
Fixpoint filterValid (items : list JSON) : option (list JSON) :=
  match items with
  | [] => Some []
  | g :: rest =>
      match isValidGame g with
      | None => None
      | Some keep =>
          match filterValid rest with
          | None => None
          | Some kept => Some (if keep then g :: kept else kept)
          end
      end
  end.

(** [g.id] for a value that is not [null]. *)
Definition idOf (g : JSON) : option JSON :=
  match g with
  | JObject ms => member (lit "id") ms
  | _ => None
  end.

(** If single object, wrap in array. *)
Definition itemsOf (parsed : JSON) : list JSON :=
  match parsed with
  | JArray items => items
  | other => [other]
  end.

(** The status [parseGames] gives a game. *)
Definition initialStatus (g : JSON) : ProcessingStatus :=
  mkStatus (idOf g) (Some idle) None None None None.

(** An entry the filter keeps. *)
Definition isValid (g : JSON) : bool :=
  match isValidGame g with
  | Some true => true
  | _ => false
  end.

(** An entry whose id is a string, and an entry whose id is the string [k]. *)
Definition hasStringId (g : JSON) : Prop := exists s, idOf g = Some (JString s).

Definition hasId (k : jsstring) (g : JSON) : bool :=
  match idOf g with
  | Some (JString s) => jsstring_eqb k s
  | _ => false
  end.

(** The state [parseGames] reads and sets. *)
Record AppState := mkState {
  jsonInput : jsstring;
  games : list JSON;
  statuses : Statuses;
  parseError : option jsstring
}.

Definition withError (st : AppState) (text : jsstring) : AppState :=
  mkState (jsonInput st) (games st) (statuses st) (Some text).

Section ParseGames.

(** [JSON.parse]; [None] when it throws. *)
Variable JSONparse : jsstring -> option JSON.
(** The property key a value is converted to when it is used as one;
    [None] when the conversion throws. *)
Variable toPropertyKey : JSON -> option jsstring.

(** The [forEach] that fills [newStatuses]; [None] when it throws. *)
Fixpoint initialStatuses (validGames : list JSON) (newStatuses : Statuses)
    : option Statuses :=
  match validGames with
  | [] => Some newStatuses
  | g :: rest =>
      match match idOf g with
            | Some i => toPropertyKey i
            | None => Some (lit "undefined")
            end with
      | None => None
      | Some key =>
          initialStatuses rest
            (fun k => if jsstring_eqb k key
                      then Some (initialStatus g)
                      else newStatuses k)
      end
  end.

Definition parseGames (st : AppState) : AppState :=
  match trim (jsonInput st) with
  | [] => st
  | _ :: _ =>
      match JSONparse (jsonInput st) with
      | None => withError st (lit "Invalid JSON format. Please check your input.")
      | Some parsed =>
          let parsed := itemsOf parsed in
          (* Validate basic structure *)
          match filterValid parsed with
          | None => withError st (lit "Invalid JSON format. Please check your input.")
          | Some [] =>
              withError st
                (lit "No valid games found. Ensure JSON has id, name, and gameThumbnail.")
          | Some validGames =>
              (* Initialize statuses *)
              match initialStatuses validGames noStatuses with
              | Some newStatuses =>
                  mkState (jsonInput st) validGames newStatuses (parseError st)
              | None =>
                  mkState (jsonInput st) validGames (statuses st)
                    (Some (lit "Invalid JSON format. Please check your input."))
              end
          end
      end
  end.

End ParseGames.

(** ** GameCard *)

Definition statusIs (st : ProcessingStatus) (s : StatusName) : bool :=
  match status st with
  | Some s' => StatusName_eqb s' s
  | None => false
  end.

Definition isProcessing (st : ProcessingStatus) : bool :=
  existsb (statusIs st) [downloading; generating; compositing].

(** What fills the card. *)
Inductive MainView :=
| FinalImage (src : jsstring)
| OriginalThumbnail (src : jsstring)
| CleanedImage (src : jsstring)
| Placeholder.

Definition mainView (game : GameData) (st : ProcessingStatus) : MainView :=
  if statusIs st complete && truthy (finalImageBase64 st)
  then FinalImage (orElse (finalImageBase64 st) [])
  else if statusIs st idle || statusIs st downloading || statusIs st errored
  then OriginalThumbnail (gameThumbnail game)
  else if truthy (cleanedImageBase64 st)
  then CleanedImage (orElse (cleanedImageBase64 st) [])
  else Placeholder.

(** The processing overlay and its label, when it is rendered. *)
Definition processingOverlay (st : ProcessingStatus) : option jsstring :=
  if isProcessing st
  then Some ((if statusIs st downloading then lit "Fetching" else [])
             ++ (if statusIs st generating then lit "AI Magic" else [])
             ++ (if statusIs st compositing then lit "Finishing" else []))
  else None.

(** The error overlay and its text, when it is rendered. *)
Definition errorOverlay (st : ProcessingStatus) : option jsstring :=
  if statusIs st errored then Some (orElse (error st) (lit "Failed")) else None.

(** The save link, when it is rendered: its [href] and [download]. *)
Definition saveLink (game : GameData) (st : ProcessingStatus)
    : option (option jsstring * jsstring) :=
  if statusIs st complete
  then Some (finalImageBase64 st, orElse (slug game) (lit "game") ++ lit "-portrait.png")
  else None.

(** Fixtures: a browser in which every image loads, one in which none
    does, encoders that answer with a fixed data URL, a game without
    provider, and settings for a small canvas. *)
Definition loadsLandscape (src : jsstring) : option Image := Some landscape.
Definition loadsNothing (src : jsstring) : option Image := None.
Definition jpegStub (e : EncodedImage) : jsstring := lit "data:image/jpeg;base64,/9j/4AAQ".
Definition pngStub (e : EncodedImage) : jsstring := lit "data:image/png;base64,iVBORw0KGgo=".
Definition noMessage (e : Error) : option jsstring := None.
Definition goldQuest : GameData :=
  mkGame (lit "g1") (lit "super gold quest") None (lit "https://example.com/gold.png")
         (Some (lit "gold-quest")).
Definition moonDice : GameData :=
  mkGame (lit "g2") (lit "moon dice") (Some (lit "Acme Games"))
         (lit "https://example.com/moon.png") None.
Definition smallSettings : AppSettings := mkSettings 20 40 (lit "portrait").

(** Fixtures for [parseGames]: a parser that knows one text, the
    conversion of string ids to keys, and two entries of a game list. *)
Definition stringKey (v : JSON) : option jsstring :=
  match v with
  | JString s => Some s
  | _ => None
  end.

Definition goldEntry : JSON :=
  JObject [(lit "id", JString (lit "g1")); (lit "name", JString (lit "super gold quest"));
           (lit "gameThumbnail", JString (lit "https://example.com/gold.png"))].

Definition namelessEntry : JSON :=
  JObject [(lit "id", JString (lit "g2"));
           (lit "gameThumbnail", JString (lit "https://example.com/moon.png"))].

Definition parsesAs (v : JSON) (text : jsstring) : option JSON := Some v.
Definition parsesNothing (text : jsstring) : option JSON := None.

(** * Proofs *)

(** ** Numbers printed and read back *)

Lemma lit_inv (s : string) : string_of_list_ascii (lit s) = s.
Proof. apply string_of_list_ascii_of_string. Qed.

Lemma digits_of_uint (d : Decimal.uint) :
  Forall (fun c => isDigit c = true) (lit (NilEmpty.string_of_uint d)).
Proof.
  induction d; cbn [NilEmpty.string_of_uint lit list_ascii_of_string];
    constructor; try reflexivity; exact IHd.
Qed.

Lemma numberToString_digits (z : Z) :
  0 <= z -> Forall (fun c => isDigit c = true) (numberToString z).
Proof.
  intros Hz. unfold numberToString.
  destruct z as [|p|p]; [ | | lia ].
  - repeat constructor.
  - cbn [Z.to_int NilZero.string_of_int].
    unfold NilZero.string_of_uint.
    destruct (Pos.to_uint p) eqn:E; try apply digits_of_uint.
    repeat constructor.
Qed.

Lemma numberToString_nonempty (z : Z) : 0 <= z -> numberToString z <> [].
Proof.
  intros Hz. unfold numberToString.
  destruct z as [|p|p]; [ discriminate | | lia ].
  cbn [Z.to_int NilZero.string_of_int]. unfold NilZero.string_of_uint.
  pose proof (Unsigned.to_uint_nonnil p) as Hn.
  destruct (Pos.to_uint p); try congruence; discriminate.
Qed.

Lemma NumberOfDigits_numberToString (z : Z) :
  0 <= z -> NumberOfDigits (numberToString z) = z.
Proof.
  intros Hz. unfold NumberOfDigits, numberToString. rewrite lit_inv.
  assert (Hd : exists d, Z.to_int z = Decimal.Pos d /\ d <> Decimal.Nil).
  { destruct z as [|p|p]; [ | | lia ].
    - eexists; split; [reflexivity | discriminate].
    - eexists; split; [reflexivity | apply Unsigned.to_uint_nonnil]. }
  destruct Hd as (d & Hd & Hnil).
  pose proof (DecimalZ.of_to z) as Hround.
  rewrite Hd in *. cbn [NilZero.string_of_int].
  rewrite (NilZero.usu d Hnil). exact Hround.
Qed.

(** ** Matching digit runs *)

Lemma digitRuns_digits (ds rest run : jsstring) :
  Forall (fun c => isDigit c = true) ds ->
  digitRuns (ds ++ rest) run = digitRuns rest (run ++ ds).
Proof.
  intros H. revert run.
  induction H as [|c ds Hc _ IH]; intros run.
  - now rewrite List.app_nil_r.
  - cbn [app digitRuns]. rewrite Hc, IH, <- List.app_assoc. reflexivity.
Qed.

Lemma flushRun_nonempty (run : jsstring) : run <> [] -> flushRun run = [run].
Proof. destruct run; [congruence | reflexivity]. Qed.

Lemma digitRuns_other (c : ascii) (s run : jsstring) :
  isDigit c = false -> digitRuns (c :: s) run = flushRun run ++ digitRuns s [].
Proof. intros H. cbn [digitRuns]. now rewrite H. Qed.

Lemma digitRuns_number (z : Z) (c : ascii) (s : jsstring) :
  0 <= z -> isDigit c = false ->
  digitRuns (numberToString z ++ c :: s) [] = numberToString z :: digitRuns s [].
Proof.
  intros Hz Hc.
  rewrite (digitRuns_digits _ _ _ (numberToString_digits z Hz)).
  rewrite digitRuns_other by exact Hc.
  cbn [app]. now rewrite (flushRun_nonempty _ (numberToString_nonempty z Hz)).
Qed.

Lemma digitRuns_rgbString (r g b : Z) :
  0 <= r -> 0 <= g -> 0 <= b ->
  digitRuns (rgbString r g b) [] =
    [numberToString r; numberToString g; numberToString b].
Proof.
  intros Hr Hg Hb. unfold rgbString.
  change (lit "rgb(" ++ ?x) with ("r"%char :: "g"%char :: "b"%char :: "("%char :: x).
  assert (Hcomma : forall x, lit "," ++ x = ","%char :: x) by reflexivity.
  rewrite !Hcomma. change (lit ")") with [")"%char].
  rewrite !digitRuns_other by reflexivity. cbn [flushRun app].
  rewrite !digitRuns_number by (assumption || reflexivity).
  reflexivity.
Qed.

Lemma parseTheme_rgbString (r g b : Z) (c : Context2D) :
  0 <= r -> 0 <= g -> 0 <= b ->
  parseTheme (rgbString r g b) c = inr ((r, g, b), c).
Proof.
  intros Hr Hg Hb. unfold parseTheme, matchDigits.
  rewrite digitRuns_rgbString by assumption.
  cbn [map]. rewrite !NumberOfDigits_numberToString by assumption.
  reflexivity.
Qed.

(** ** The sampling loop *)

Lemma channel_nonneg (b : byte) : 0 <= channel b.
Proof. unfold channel. lia. Qed.

Lemma at_nonneg (data : list byte) (offset : Z) : 0 <= at_ data offset.
Proof. apply channel_nonneg. Qed.

Lemma channelSum_nonneg (data : list byte) (c : Z) (k : nat) : 0 <= channelSum data c k.
Proof.
  induction k as [|k IH]; cbn [channelSum]; [lia|].
  pose proof (at_nonneg data (Z.of_nat k * 40 + c)). lia.
Qed.

Lemma visited_bounds (count : Z) :
  10 * visited count - 9 <= count <= 10 * visited count.
Proof.
  unfold visited.
  pose proof (Z.div_mod (count + 9) 10 ltac:(lia)).
  pose proof (Z.mod_pos_bound (count + 9) 10 ltac:(lia)). lia.
Qed.

(** The loop terminates within [count] iterations and leaves in each
    accumulator the sum of its channel over the visited pixels
    [0, 10, 20, ...]. *)
Lemma sampleLoop_sum (fuel : nat) :
  forall (data : list byte) (count : Z) (k : nat) (r g b : Z),
    Z.of_nat k <= visited count ->
    count - 10 * Z.of_nat k <= Z.of_nat fuel ->
    let K := Z.to_nat (visited count) in
    sampleLoop fuel data count (Z.of_nat k * 10) (r, g, b) =
      Some (r + (channelSum data 0 K - channelSum data 0 k),
            g + (channelSum data 1 K - channelSum data 1 k),
            b + (channelSum data 2 K - channelSum data 2 k)).
Proof.
  induction fuel as [|fuel IH]; intros data count k r g b Hk Hfuel K;
    pose proof (visited_bounds count) as Hv;
    cbn [sampleLoop]; destruct (Z.ltb_spec (Z.of_nat k * 10) count) as [Hlt|Hge].
  - lia.
  - assert (K = k) as -> by (unfold K; lia).
    do 2 f_equal; [f_equal|..]; lia.
  - replace (Z.of_nat k * 10 + 10) with (Z.of_nat (S k) * 10) by lia.
    rewrite IH by lia. fold K.
    cbn [channelSum].
    replace (Z.of_nat k * 10 * 4) with (Z.of_nat k * 40) by lia.
    replace (Z.of_nat k * 40 + 0) with (Z.of_nat k * 40) by lia.
    do 2 f_equal; [f_equal|..]; lia.
  - assert (K = k) as -> by (unfold K; lia).
    do 2 f_equal; [f_equal|..]; lia.
Qed.

(** What [getDominantColor] computes from the image data: each channel
    sum over the visited pixels, divided by [count / 10], floored. *)
Lemma averageOf_sums (data : list byte) :
  let count := Z.of_nat (List.length data) / 4 in
  let K := Z.to_nat (visited count) in
  let actualCount := (inject_Z count / 10)%Q in
  averageOf data =
    Some (floor (inject_Z (channelSum data 0 K) / actualCount),
          floor (inject_Z (channelSum data 1 K) / actualCount),
          floor (inject_Z (channelSum data 2 K) / actualCount)).
Proof.
  intros count K actualCount. unfold averageOf. fold count.
  assert (Hc : 0 <= count) by (apply Z.div_pos; lia).
  pose proof (visited_bounds count) as Hv.
  pose proof (sampleLoop_sum (Z.to_nat count) data count 0 0 0 0) as H.
  cbn [Z.of_nat channelSum] in H. change (0 * 10) with 0 in H.
  rewrite H by lia. fold K. fold actualCount.
  now rewrite !Z.sub_0_r, !Z.add_0_l.
Qed.

Lemma floor_div_nonneg (a : Z) (d : Q) : 0 <= a -> (0 <= d)%Q -> 0 <= floor (inject_Z a / d).
Proof.
  intros Ha Hd. unfold floor.
  change 0 with (Qfloor (inject_Z 0)). apply Qfloor_resp_le.
  unfold Qdiv. apply Qmult_le_0_compat.
  - change 0%Q with (inject_Z 0). now rewrite <- Zle_Qle.
  - now apply Qinv_le_0_compat.
Qed.

Lemma averageOf_nonneg (data : list byte) :
  exists r g b, averageOf data = Some (r, g, b) /\ 0 <= r /\ 0 <= g /\ 0 <= b.
Proof.
  rewrite averageOf_sums.
  assert (Hd : (0 <= inject_Z (Z.of_nat (List.length data) / 4) / 10)%Q).
  { unfold Qdiv. apply Qmult_le_0_compat; [|discriminate].
    change 0%Q with (inject_Z 0). rewrite <- Zle_Qle. apply Z.div_pos; lia. }
  do 3 eexists. split; [reflexivity|].
  repeat split; apply floor_div_nonneg; auto using channelSum_nonneg.
Qed.

(** When the band holds a multiple of ten pixels, [count / 10] is the
    number of visited pixels and the result is the floored mean. *)
Lemma averageOf_multiple_of_ten (data : list byte) :
  let count := Z.of_nat (List.length data) / 4 in
  let K := Z.to_nat (visited count) in
  count mod 10 = 0 ->
  averageOf data =
    Some (floor (inject_Z (channelSum data 0 K) / inject_Z (visited count)),
          floor (inject_Z (channelSum data 1 K) / inject_Z (visited count)),
          floor (inject_Z (channelSum data 2 K) / inject_Z (visited count))).
Proof.
  intros count K Hmod. rewrite averageOf_sums. fold count. fold K.
  assert (Hq : (inject_Z count / 10 == inject_Z (visited count))%Q).
  { pose proof (Z.div_mod count 10 ltac:(lia)) as Hdm.
    pose proof (visited_bounds count) as Hv.
    assert (count = 10 * visited count) as Hc by lia.
    rewrite Hc at 1. rewrite inject_Z_mult. field. }
  unfold floor. now rewrite !Hq.
Qed.

(** ** Running the pipeline *)

Lemma bind_inr {A B} (m : M A) (k : A -> M B) (c c' : Context2D) (a : A) :
  m c = inr (a, c') -> bind m k c = k a c'.
Proof. intros H. unfold bind. now rewrite H. Qed.

Lemma floor_scale (z : Z) (a : Z) (b : positive) :
  floor (inject_Z z * (a # b)) = (z * a) / Zpos b.
Proof. reflexivity. Qed.

Lemma sampleHeight_pos (height : Z) : 5 <= height -> 1 <= floor (inject_Z height * 0.2).
Proof.
  intros H. rewrite floor_scale.
  apply Z.div_le_lower_bound; lia.
Qed.

Lemma getDominantColor_run (width height : Z) (c : Context2D) :
  1 <= width -> 5 <= height ->
  exists r g b,
    0 <= r /\ 0 <= g /\ 0 <= b /\
    getDominantColor width height c = inr (rgbString r g b, c).
Proof.
  intros Hw Hh. pose proof (sampleHeight_pos height Hh) as Hs.
  unfold getDominantColor, getImageData, bind.
  destruct (Z.eqb_spec width 0) as [|_]; [lia|].
  destruct (Z.eqb_spec (floor (inject_Z height * 0.2)) 0) as [E|_]; [lia|].
  cbn [orb].
  destruct (averageOf_nonneg
              (rectData (canvasPixel c) 0 (height - floor (inject_Z height * 0.2))
                        width (floor (inject_Z height * 0.2))))
    as (r & g & b & Hav & Hr & Hg & Hb).
  rewrite Hav. exists r, g, b. repeat split; assumption.
Qed.

Lemma getDominantColor_empty_band (width height : Z) (c : Context2D) :
  0 <= height < 5 -> getDominantColor width height c = inl IndexSizeError.
Proof.
  intros Hh. unfold getDominantColor, getImageData, bind.
  rewrite floor_scale.
  replace (height * 2 / 10) with 0.
  - now rewrite Z.eqb_refl, orb_true_r.
  - symmetry. apply Z.div_small. lia.
Qed.

Lemma bind_setAttrs {B} (f : Attrs -> Attrs) (k : unit -> M B)
    (w h : Z) (bm : Bitmap) (a : Attrs) (cs : list (Attrs * DrawCall)) :
  bind (setAttrs f) k (mkContext w h bm a cs) = k tt (mkContext w h bm (f a) cs).
Proof. reflexivity. Qed.

Lemma bind_getAttrs {B} (k : Attrs -> M B) (c : Context2D) :
  bind getAttrs k c = k (attrs c) c.
Proof. reflexivity. Qed.

Ltac setAttrs_steps :=
  repeat (rewrite bind_setAttrs; cbv beta;
          cbn [fillStyle font textAlign shadowColor shadowBlur shadowOffsetX shadowOffsetY]).

Section PlatformFacts.

Variable textWidth : Font -> jsstring -> Q.
Variable paint : Z -> Z -> Attrs -> DrawCall -> Bitmap -> Bitmap.

Lemma fillLines_run (x y lineHeight : Q) (lines : list jsstring) :
  forall (i : nat) (c : Context2D),
  exists c',
    fillLines paint lines i x y lineHeight c = inr (tt, c') /\
    canvasWidth c' = canvasWidth c /\ canvasHeight c' = canvasHeight c /\
    attrs c' = attrs c /\
    calls c' = calls c ++ lineCalls (attrs c) lines i x y lineHeight.
Proof.
  induction lines as [|l rest IH]; intros i c; cbn [fillLines lineCalls].
  - exists c. rewrite List.app_nil_r.
    split; [reflexivity|]. split; [reflexivity|]. split; [reflexivity|].
    split; reflexivity.
  - destruct c as [w h bm a cs].
    unfold bind, fillText, draw at 1.
    match goal with |- context [fillLines _ _ _ _ _ _ ?c1] =>
      destruct (IH (S i) c1) as (c' & Hrun & Hw & Hh & Ha & Hc) end.
    exists c'. cbn [canvasWidth canvasHeight attrs calls] in *.
    rewrite Hrun, Hw, Hh, Ha, Hc, <- List.app_assoc.
    split; [reflexivity|]. split; [reflexivity|]. split; [reflexivity|].
    split; reflexivity.
Qed.

Lemma drawBackground_run (img : Image) (targetWidth targetHeight : Z) (c : Context2D) :
  attrs c = defaultAttrs ->
  exists c',
    drawBackground paint img targetWidth targetHeight c = inr (tt, c') /\
    canvasWidth c' = canvasWidth c /\ canvasHeight c' = canvasHeight c /\
    attrs c' = defaultAttrs /\
    calls c' = calls c ++
      let p := coverFit (imgWidth img) (imgHeight img) targetWidth targetHeight in
      [(defaultAttrs, FillRect 0 0 (inject_Z targetWidth) (inject_Z targetHeight));
       (defaultAttrs, DrawImage img (offsetX p) (offsetY p) (drawWidth p) (drawHeight p))].
Proof.
  intros Ha. destruct c as [w h bm a cs]. cbn [attrs] in Ha. subst a.
  eexists. split; [reflexivity|].
  cbn [canvasWidth canvasHeight attrs calls].
  rewrite <- List.app_assoc.
  split; [reflexivity|]. split; [reflexivity|]. split; reflexivity.
Qed.

Lemma addGradientOverlay_run (r g b : Z) (targetWidth targetHeight : Z) (c : Context2D) :
  0 <= r -> 0 <= g -> 0 <= b ->
  attrs c = defaultAttrs ->
  exists c',
    addGradientOverlay paint (rgbString r g b) targetWidth targetHeight c = inr (tt, c') /\
    canvasWidth c' = canvasWidth c /\ canvasHeight c' = canvasHeight c /\
    calls c' = calls c ++
      [(overlayAttrs (themeGradient targetHeight r g b),
        FillRect 0 (inject_Z targetHeight * 0.4) (inject_Z targetWidth)
                 (inject_Z targetHeight * 0.6))].
Proof.
  intros Hr Hg Hb Ha. unfold addGradientOverlay.
  rewrite (bind_inr _ _ _ _ _ (parseTheme_rgbString r g b c Hr Hg Hb)).
  destruct c as [w h bm a cs]. cbn [attrs] in Ha. subst a.
  eexists. split; [reflexivity|].
  cbn [canvasWidth canvasHeight attrs calls].
  split; [reflexivity|]. split; reflexivity.
Qed.

Lemma addText_run (gameName providerName : jsstring) (targetWidth targetHeight : Z)
    (c : Context2D) :
  exists c',
    addText textWidth paint gameName providerName targetWidth targetHeight c
      = inr (tt, c') /\
    canvasWidth c' = canvasWidth c /\ canvasHeight c' = canvasHeight c /\
    calls c' = calls c ++
      let lines := wrapLines (textWidth (mkFont 900 (floor (inject_Z targetWidth * 0.12))))
                             (inject_Z targetWidth * 0.9) gameName in
      lineCalls (titleAttrs targetWidth) lines 0 (inject_Z targetWidth / 2)
                (titleTop targetWidth targetHeight (List.length lines))
                (titleLineHeight targetWidth)
      ++ [(providerAttrs targetWidth,
           FillText (toUpperCase providerName) (inject_Z targetWidth / 2)
                    (inject_Z targetHeight - inject_Z targetHeight * 0.05))].
Proof.
  destruct c as [w h bm a cs].
  unfold addText, setTextAlign, setShadowColor, setShadowBlur, setShadowOffsetX,
    setShadowOffsetY, setFont, setFillStyle.
  cbv zeta. setAttrs_steps.
  rewrite bind_getAttrs. cbv beta. cbn [attrs].
  match goal with |- context [bind (fillLines _ ?ls ?i ?x ?y ?lh) _ ?c1] =>
    destruct (fillLines_run x y lh ls i c1) as (c' & Hrun & Hw & Hh & Ha & Hc) end.
  rewrite (bind_inr _ _ _ _ _ Hrun).
  destruct c' as [w' h' bm' a' cs'].
  cbn [canvasWidth canvasHeight attrs calls] in Hw, Hh, Ha, Hc. subst w' h' a' cs'.
  setAttrs_steps.
  eexists. split; [reflexivity|].
  cbn [canvasWidth canvasHeight attrs calls].
  rewrite <- List.app_assoc.
  split; [reflexivity|]. split; reflexivity.
Qed.

End PlatformFacts.

Section PipelineFacts.

Variable textWidth : Font -> jsstring -> Q.
Variable paint : Z -> Z -> Attrs -> DrawCall -> Bitmap -> Bitmap.

(** For a canvas at least one pixel wide and five pixels high the
    pipeline runs to its end, and issues exactly the expected calls. *)
Lemma compose_run (img : Image) (gameName providerName : jsstring)
    (targetWidth targetHeight : Z) :
  1 <= targetWidth -> 5 <= targetHeight ->
  exists r g b c1 c',
    0 <= r /\ 0 <= g /\ 0 <= b /\
    drawBackground paint img targetWidth targetHeight
      (createCanvas targetWidth targetHeight) = inr (tt, c1) /\
    getDominantColor targetWidth targetHeight c1 = inr (rgbString r g b, c1) /\
    compose textWidth paint img gameName providerName targetWidth targetHeight
      (createCanvas targetWidth targetHeight) = inr (tt, c') /\
    canvasWidth c' = targetWidth /\ canvasHeight c' = targetHeight /\
    calls c' =
      expectedCalls textWidth img gameName providerName targetWidth targetHeight r g b.
Proof.
  intros Hw Hh. unfold compose.
  destruct (drawBackground_run paint img targetWidth targetHeight
              (createCanvas targetWidth targetHeight) eq_refl)
    as (c1 & Hbg & Hw1 & Hh1 & Ha1 & Hc1).
  destruct (getDominantColor_run targetWidth targetHeight c1 Hw Hh)
    as (r & g & b & Hr & Hg & Hb & Hdom).
  destruct (addGradientOverlay_run paint r g b targetWidth targetHeight c1 Hr Hg Hb Ha1)
    as (c2 & Hov & Hw2 & Hh2 & Hc2).
  destruct (addText_run textWidth paint gameName providerName targetWidth targetHeight c2)
    as (c3 & Htx & Hw3 & Hh3 & Hc3).
  cbn [createCanvas canvasWidth canvasHeight] in Hw1, Hh1.
  exists r, g, b, c1, c3.
  rewrite (bind_inr _ _ _ _ _ Hbg), (bind_inr _ _ _ _ _ Hdom), (bind_inr _ _ _ _ _ Hov).
  repeat (split; [assumption|]).
  split; [congruence|]. split; [congruence|].
  rewrite Hc3, Hc2, Hc1. cbn [createCanvas calls app].
  unfold expectedCalls, titleLines. reflexivity.
Qed.

Lemma textCalls_app (w : Z) (xs ys : list (Attrs * DrawCall)) :
  textCalls w (xs ++ ys) = textCalls w xs ++ textCalls w ys.
Proof. apply flat_map_app. Qed.

Lemma textCalls_lineCalls (a : Attrs) (lines : list jsstring) (x y lineHeight : Q) :
  forall i : nat,
    textCalls (fontWeight (font a)) (lineCalls a lines i x y lineHeight)
      = placedLines lines i x y lineHeight.
Proof.
  induction lines as [|l rest IH]; intros i; [reflexivity|].
  cbn [lineCalls placedLines]. unfold textCalls in *. cbn [flat_map fst snd].
  rewrite Z.eqb_refl, IH. reflexivity.
Qed.

Lemma textCalls_expected (img : Image) (gameName providerName : jsstring)
    (targetWidth targetHeight r g b : Z) :
  let lines := titleLines textWidth gameName targetWidth in
  textCalls 900
    (expectedCalls textWidth img gameName providerName targetWidth targetHeight r g b)
  = placedLines lines 0 (inject_Z targetWidth / 2)
      (titleTop targetWidth targetHeight (List.length lines))
      (titleLineHeight targetWidth).
Proof.
  intros lines. unfold expectedCalls. fold lines.
  rewrite !textCalls_app.
  change 900 with (fontWeight (font (titleAttrs targetWidth))) at 2.
  rewrite textCalls_lineCalls. cbn. now rewrite List.app_nil_r.
Qed.

Lemma imageDraws_lineCalls (a : Attrs) (lines : list jsstring) (x y lineHeight : Q) :
  forall i, imageDraws (lineCalls a lines i x y lineHeight) = [].
Proof.
  induction lines as [|l rest IH]; intros i; [reflexivity|].
  cbn [lineCalls]. unfold imageDraws in *. cbn [flat_map snd app]. apply IH.
Qed.

(** The image is drawn once, in the rectangle of the cover fit. *)
Lemma imageDraws_expected (img : Image) (gameName providerName : jsstring)
    (targetWidth targetHeight r g b : Z) :
  let p := coverFit (imgWidth img) (imgHeight img) targetWidth targetHeight in
  imageDraws
    (expectedCalls textWidth img gameName providerName targetWidth targetHeight r g b)
  = [(offsetX p, offsetY p, drawWidth p, drawHeight p)].
Proof.
  intros p. unfold expectedCalls.
  assert (Happ : forall xs ys, imageDraws (xs ++ ys) = imageDraws xs ++ imageDraws ys)
    by (intros; apply flat_map_app).
  rewrite !Happ, imageDraws_lineCalls. reflexivity.
Qed.

End PipelineFacts.

Lemma placedLines_length (lines : list jsstring) (x y lineHeight : Q) :
  forall i, List.length (placedLines lines i x y lineHeight) = List.length lines.
Proof. induction lines; intros i; cbn [placedLines List.length]; auto. Qed.

Lemma placedLines_ys (lines : list jsstring) (x y lineHeight : Q) :
  forall (i k : nat),
    (k < List.length lines)%nat ->
    nth k (ys (placedLines lines i x y lineHeight)) 0%Q
      = (y + inject_Z (Z.of_nat (i + k)) * lineHeight)%Q.
Proof.
  induction lines as [|l rest IH]; intros i k Hk; cbn [List.length] in Hk; [lia|].
  cbn [placedLines ys map snd]. destruct k as [|k].
  - cbn [nth]. now rewrite Nat.add_0_r.
  - cbn [nth]. fold (ys (placedLines rest (S i) x y lineHeight)).
    rewrite IH by lia. now rewrite Nat.add_succ_comm.
Qed.

Lemma placedLines_texts (lines : list jsstring) (x y lineHeight : Q) :
  forall i, texts (placedLines lines i x y lineHeight) = map trim lines.
Proof.
  induction lines as [|l rest IH]; intros i; [reflexivity|].
  cbn [placedLines texts map fst]. f_equal. apply IH.
Qed.

(** ** Theme Sampler *)

(** C9.  There is a canvas whose bottom band holds a number of pixels that
    is not a multiple of ten and for which the sampler returns a red
    channel above 255: the sum over the visited pixels is divided by
    [count / 10], which is smaller than the number of visited pixels, and
    nothing clamps the quotient. *)
Theorem sampler_result_can_exceed_255 :
  exists c : Context2D,
    let width := canvasWidth c in
    let height := canvasHeight c in
    let count := width * floor (inject_Z height * 0.2) in
    0 < width /\ 0 < height /\
    count mod 10 <> 0 /\
    (inject_Z count / 10 < inject_Z (visited count))%Q /\
    exists r g b,
      getDominantColor width height c = inr (rgbString r g b, c) /\
      (let data := rectData (canvasPixel c) 0 (height - floor (inject_Z height * 0.2))
                     width (floor (inject_Z height * 0.2)) in
       r = floor (inject_Z (channelSum data 0 (Z.to_nat (visited count)))
                  / (inject_Z count / 10))) /\
      255 < r.
Proof.
  exists (redCanvas 1 5). cbn [redCanvas canvasWidth canvasHeight].
  split; [lia|]. split; [lia|].
  split; [vm_compute; discriminate|].
  split; [vm_compute; reflexivity|].
  exists 2550, 0, 0. split; [vm_compute; reflexivity|].
  split; [vm_compute; reflexivity | lia].
Qed.

(** C2, at a band of one pixel (a 1 x 5 canvas, pure red).  One pixel is
    visited and its red byte 255 is the channel sum, so the mean over the
    visited pixels is 255; the code divides by [count / 10 = 1/10] and
    returns 2550. *)
Theorem sampler_divides_by_a_tenth_of_count :
  let c := redCanvas 1 5 in
  let data := rectData (canvasPixel c) 0 4 1 1 in
  let count := Z.of_nat (List.length data) / 4 in
  count = 1 /\ visited count = 1 /\
  channelSum data 0 (Z.to_nat (visited count)) = 255 /\
  floor (inject_Z 255 / inject_Z (visited count)) = 255 /\
  getDominantColor 1 5 c = inr (rgbString 2550 0 0, c).
Proof. vm_compute. repeat split; reflexivity. Qed.

(** ** Frame Compositor *)

Lemma Qgtb_true (x y : Q) : Qgtb x y = true <-> (y < x)%Q.
Proof.
  unfold Qgtb. rewrite negb_true_iff, <- not_true_iff_false, Qle_bool_iff.
  split; [apply Qnot_le_lt | apply Qlt_not_le].
Qed.

Lemma Qgtb_false (x y : Q) : Qgtb x y = false <-> (x <= y)%Q.
Proof.
  unfold Qgtb. now rewrite negb_false_iff, Qle_bool_iff.
Qed.

Lemma inject_Z_pos (z : Z) : 0 < z -> (0 < inject_Z z)%Q.
Proof. intros H. change 0%Q with (inject_Z 0). now rewrite <- Zlt_Qlt. Qed.

(** ** Double precision: one rounding *)

Lemma roundHalfEven_close (q : Q) :
  (q - (1 # 2) <= inject_Z (roundHalfEven q) <= q + (1 # 2))%Q.
Proof.
  unfold roundHalfEven.
  pose proof (Qfloor_le q) as Hlo. pose proof (Qlt_floor q) as Hhi.
  set (f := Qfloor q) in *. clearbody f.
  rewrite inject_Z_plus in Hhi. change (inject_Z 1) with 1%Q in Hhi.
  destruct (q - inject_Z f ?= 1 # 2)%Q eqn:E.
  - apply Qeq_alt in E.
    destruct (Z.even f); [|rewrite inject_Z_plus; change (inject_Z 1) with 1%Q];
      split; lra.
  - apply Qlt_alt in E. split; lra.
  - apply Qgt_alt in E. rewrite inject_Z_plus. change (inject_Z 1) with 1%Q. split; lra.
Qed.

Lemma roundHalfEven_Z (z : Z) : roundHalfEven (inject_Z z) = z.
Proof.
  unfold roundHalfEven. rewrite Qfloor_Z.
  assert (E : (inject_Z z - inject_Z z ?= 1 # 2)%Q = Lt).
  { rewrite <- Qlt_alt. lra. }
  now rewrite E.
Qed.

#[global] Instance roundHalfEven_comp : Proper (Qeq ==> eq) roundHalfEven.
Proof.
  intros x y H. unfold roundHalfEven. rewrite (Qfloor_comp _ _ H).
  assert (E : (x - inject_Z (Qfloor y) == y - inject_Z (Qfloor y))%Q) by (rewrite H; reflexivity).
  now rewrite (Qcompare_comp _ _ E _ _ (Qeq_refl (1 # 2))).
Qed.

Lemma pow2_pos (k : Z) : (0 < 2 ^ k)%Q.
Proof. apply Qpower_0_lt. reflexivity. Qed.

Lemma pow2_plus (a b : Z) : (2 ^ (a + b) == 2 ^ a * 2 ^ b)%Q.
Proof. apply Qpower_plus. discriminate. Qed.

Lemma pow2_Z (n : Z) : 0 <= n -> (2 ^ n == inject_Z (2 ^ n))%Q.
Proof. intros H. now rewrite Zpower_Qpower. Qed.

(** [2 ^ exponentOf q <= |q|] for [q] other than 0. *)
Lemma exponentOf_le (q : Q) : ~ (q == 0)%Q -> (2 ^ exponentOf q <= Qabs q)%Q.
Proof.
  intros Hq. unfold exponentOf.
  set (a := Z.abs (Qnum q)). set (b := Zpos (Qden q)).
  destruct (Qle_bool (2 ^ (Z.log2 a - Z.log2 b)) (Qabs q)) eqn:E.
  - now apply Qle_bool_iff in E.
  - assert (Ha : 0 < a).
    { unfold a. destruct q as [n d]. cbn [Qnum]. unfold Qeq in Hq. cbn in Hq. lia. }
    assert (Hb : 0 < b) by (unfold b; lia).
    pose proof (Z.log2_spec a Ha) as [Ha1 _].
    pose proof (Z.log2_spec b Hb) as [_ Hb2].
    pose proof (Z.log2_nonneg a) as Na. pose proof (Z.log2_nonneg b) as Nb.
    assert (Eabs : (Qabs q == inject_Z a / inject_Z b)%Q).
    { destruct q as [n d]. unfold Qabs, a, b. cbn [Qnum Qden].
      rewrite (Qmake_Qdiv (Z.abs n) d). reflexivity. }
    rewrite Eabs.
    replace (Z.log2 a - Z.log2 b - 1) with (Z.log2 a + - (Z.log2 b + 1)) by lia.
    rewrite pow2_plus, Qpower_opp, !pow2_Z by lia.
    assert (Pb : (0 < inject_Z b)%Q) by (change 0%Q with (inject_Z 0); now rewrite <- Zlt_Qlt).
    assert (Pb' : (0 < inject_Z (2 ^ (Z.log2 b + 1)))%Q).
    { change 0%Q with (inject_Z 0). rewrite <- Zlt_Qlt. lia. }
    apply Qle_shift_div_l; [exact Pb|].
    unfold Qdiv. 
    assert (Hle1 : (inject_Z (2 ^ Z.log2 a) <= inject_Z a)%Q) by (now rewrite <- Zle_Qle).
    assert (Hle2 : (inject_Z b <= inject_Z (2 ^ (Z.log2 b + 1)))%Q) by (rewrite <- Zle_Qle; lia).
    assert (P2a : (0 <= inject_Z (2 ^ Z.log2 a))%Q).
    { change 0%Q with (inject_Z 0). rewrite <- Zle_Qle. lia. }
    set (x := inject_Z (2 ^ Z.log2 a)) in *. set (y := inject_Z (2 ^ (Z.log2 b + 1))) in *.
    set (A := inject_Z a) in *. set (B := inject_Z b) in *.
    clearbody x y A B.
    assert (Hinv : (B / y <= 1)%Q) by (apply Qle_shift_div_r; lra).
    assert (Einv : (/ y * B == B / y)%Q) by (field; lra).
    setoid_replace (x * / y * B)%Q with (x * (/ y * B))%Q by ring.
    assert (Pinv : (0 <= B / y)%Q) by (apply Qle_shift_div_l; lra).
    rewrite Einv. set (t := (B / y)%Q) in *. clearbody t. nra.
Qed.

(** The relative error of one rounding is at most [2^-53]. *)
Lemma round64_error (q : Q) : (Qabs (round64 q - q) <= Qabs q * eps64)%Q.
Proof.
  unfold round64. pose proof (Qred_correct q) as Hred.
  set (q' := Qred q) in *. clearbody q'.
  destruct (Qeq_bool q' 0) eqn:E0.
  - apply Qeq_bool_iff in E0. rewrite <- Hred, E0. cbn. discriminate.
  - assert (Hq : ~ (q' == 0)%Q).
    { intros H. apply Qeq_bool_iff in H. congruence. }
    cbv zeta. rewrite <- Hred.
    pose proof (exponentOf_le q' Hq) as HE.
    set (E := exponentOf q') in *. clearbody E.
    replace E with ((E - 52) + 52) in HE by lia. rewrite pow2_plus in HE.
    pose proof (pow2_pos (E - 52)) as Pu.
    set (u := (2 ^ (E - 52))%Q) in *. clearbody u.
    pose proof (roundHalfEven_close (q' / u)) as [H1 H2].
    set (n := inject_Z (roundHalfEven (q' / u))) in *. clearbody n.
    assert (Hd : (n * u - q' == (n - q' / u) * u)%Q) by (field; lra).
    rewrite Hd, Qabs_Qmult, (Qabs_pos u) by lra.
    assert (Hn : (Qabs (n - q' / u) <= 1 # 2)%Q) by (apply Qabs_Qle_condition; split; lra).
    change (2 ^ 52)%Q with (4503599627370496 # 1)%Q in HE.
    unfold eps64.
    set (m := Qabs (n - q' / u)) in *. set (a := Qabs q') in *.
    assert (0 <= m)%Q by apply Qabs_nonneg.
    clearbody m a. nra.
Qed.

Lemma round64_bounds (q : Q) :
  (0 <= q -> q * (1 - eps64) <= round64 q <= q * (1 + eps64))%Q.
Proof.
  intros Hq. pose proof (round64_error q) as H.
  rewrite (Qabs_pos q Hq) in H. apply Qabs_Qle_condition in H. split; lra.
Qed.

Lemma round64_bounds_neg (q : Q) :
  (q <= 0 -> q * (1 + eps64) <= round64 q <= q * (1 - eps64))%Q.
Proof.
  intros Hq. pose proof (round64_error q) as H.
  rewrite (Qabs_neg q Hq) in H. apply Qabs_Qle_condition in H. split; lra.
Qed.

#[global] Instance round64_comp : Proper (Qeq ==> eq) round64.
Proof. intros x y H. unfold round64. now rewrite (Qred_complete _ _ H). Qed.

Lemma round64_0 : round64 0 = 0%Q.
Proof. reflexivity. Qed.

(** Integers below [2^53] in magnitude are doubles. *)
Lemma round64_Z (n : Z) : Z.abs n < 2 ^ 53 -> (round64 (inject_Z n) == inject_Z n)%Q.
Proof.
  intros Hn. unfold round64. pose proof (Qred_correct (inject_Z n)) as Hred.
  set (q' := Qred (inject_Z n)) in *. clearbody q'.
  destruct (Qeq_bool q' 0) eqn:E0.
  - apply Qeq_bool_iff in E0. now rewrite <- Hred, E0.
  - assert (Hq : ~ (q' == 0)%Q).
    { intros H. apply Qeq_bool_iff in H. congruence. }
    cbv zeta. pose proof (exponentOf_le q' Hq) as HE.
    set (E := exponentOf q') in *. clearbody E.
    assert (HE53 : E < 53).
    { apply (Qpower_lt_compat_l_inv 2); [|reflexivity].
      eapply Qle_lt_trans; [exact HE|]. rewrite Hred.
      rewrite pow2_Z by lia. 
      assert (Ea : (Qabs (inject_Z n) == inject_Z (Z.abs n))%Q) by reflexivity.
      rewrite Ea, <- Zlt_Qlt. exact Hn. }
    assert (Eu : (2 ^ (E - 52) == / inject_Z (2 ^ (52 - E)))%Q).
    { replace (E - 52) with (- (52 - E)) by lia. rewrite Qpower_opp, pow2_Z by lia.
      reflexivity. }
    assert (Pp : (0 < inject_Z (2 ^ (52 - E)))%Q).
    { change 0%Q with (inject_Z 0). rewrite <- Zlt_Qlt. lia. }
    assert (Em : (q' / 2 ^ (E - 52) == inject_Z (n * 2 ^ (52 - E)))%Q).
    { rewrite Eu, Hred, inject_Z_mult. field. lra. }
    rewrite Em, roundHalfEven_Z, Eu, inject_Z_mult. field. lra.
Qed.
(** ** The cover-fit rectangle in double precision *)

Lemma eps64_small : (0 < eps64 /\ eps64 <= 1 # 8)%Q.
Proof. split; reflexivity || discriminate. Qed.

Lemma Qdiv_pos (a b : Q) : (0 < a -> 0 < b -> 0 < a / b)%Q.
Proof. intros Ha Hb. apply Qlt_shift_div_l; lra. Qed.

(** What the comparison of two rounded ratios says about the exact ones. *)
Lemma ratio_cross (a b c d : Q) :
  (0 < a -> 0 < b -> 0 < c -> 0 < d ->
   fdiv a b <= fdiv c d -> a * d * (1 - eps64) <= c * b * (1 + eps64))%Q.
Proof.
  intros Ha Hb Hc Hd H. unfold fdiv in H.
  pose proof (Qdiv_pos a b Ha Hb) as P1. pose proof (Qdiv_pos c d Hc Hd) as P2.
  pose proof (round64_bounds (a / b) (Qlt_le_weak _ _ P1)) as [L1 _].
  pose proof (round64_bounds (c / d) (Qlt_le_weak _ _ P2)) as [_ U2].
  assert (E1 : (a / b * b == a)%Q) by (field; lra).
  assert (E2 : (c / d * d == c)%Q) by (field; lra).
  destruct eps64_small as [He0 He1].
  set (e := eps64) in *. set (u := (a / b)%Q) in *. set (v := (c / d)%Q) in *.
  set (A := round64 u) in *. set (B := round64 v) in *. clearbody e u v A B.
  assert (Huv : (u * (1 - e) <= v * (1 + e))%Q) by lra.
  rewrite <- E1, <- E2.
  assert (Hbd : (0 < b * d)%Q) by nra.
  setoid_replace (u * b * d * (1 - e))%Q with (u * (1 - e) * (b * d))%Q by ring.
  setoid_replace (v * d * b * (1 + e))%Q with (v * (1 + e) * (b * d))%Q by ring.
  apply Qmult_le_compat_r; lra.
Qed.

(** The side that is computed falls short of the target by at most four
    roundings. *)
Lemma cover_side (s1 s2 t1 t2 : Q) :
  (0 < s1 -> 0 < s2 -> 0 < t1 -> 0 < t2 ->
   t1 * s2 * (1 - eps64) <= s1 * t2 * (1 + eps64) ->
   t1 * (1 - 4 * eps64) <= fmul s1 (fdiv t2 s2))%Q.
Proof.
  intros H1 H2 H3 H4 Hc. unfold fmul, fdiv.
  pose proof (Qdiv_pos t2 s2 H4 H2) as Pq.
  pose proof (round64_bounds (t2 / s2) (Qlt_le_weak _ _ Pq)) as [Lr _].
  assert (Eq : (t2 / s2 * s2 == t2)%Q) by (field; lra).
  destruct eps64_small as [He0 He1].
  set (e := eps64) in *. set (q := (t2 / s2)%Q) in *.
  set (r := round64 q) in *.
  assert (Pr0 : (0 <= r)%Q).
  { eapply Qle_trans; [|exact Lr]. apply Qmult_le_0_compat; lra. }
  assert (Pr : (0 <= s1 * r)%Q) by (apply Qmult_le_0_compat; lra).
  pose proof (round64_bounds (s1 * r) Pr) as [Ld _]. fold e in Ld.
  set (D := round64 (s1 * r)) in *. clearbody e q r D.
  assert (P1e : (0 <= 1 - e)%Q) by lra.
  assert (Ps1e : (0 <= s1 * (1 - e))%Q) by (apply Qmult_le_0_compat; lra).
  pose proof (Qmult_le_compat_r _ _ _ Lr Ps1e) as M1.
  assert (HD : (s1 * q * ((1 - e) * (1 - e)) <= D)%Q) by lra.
  assert (Pf : (0 <= (1 + e) * s2)%Q) by (apply Qmult_le_0_compat; lra).
  pose proof (Qmult_le_compat_r _ _ _ HD Pf) as M2.
  assert (Psq : (0 <= (1 - e) * (1 - e))%Q) by (apply Qmult_le_0_compat; lra).
  rewrite <- Eq in Hc.
  pose proof (Qmult_le_compat_r _ _ _ Hc Psq) as M3.
  assert (Hpoly : ((1 - 4 * e) * (1 + e) <= (1 - e) * (1 - e) * (1 - e))%Q).
  { assert (0 <= e * e)%Q by (apply Qmult_le_0_compat; lra).
    assert (e * e * e <= e * e * (1 # 8))%Q.
    { setoid_replace (e * e * e)%Q with (e * (e * e))%Q by ring.
      setoid_replace (e * e * (1 # 8))%Q with ((1 # 8) * (e * e))%Q by ring.
      apply Qmult_le_compat_r; lra. }
    lra. }
  assert (Pts : (0 <= t1 * s2)%Q) by (apply Qmult_le_0_compat; lra).
  pose proof (Qmult_le_compat_r _ _ _ Hpoly Pts) as M4.
  assert (Pp : (0 < (1 + e) * s2)%Q).
  { apply Qmult_lt_0_compat; lra. }
  apply (Qmult_le_r _ _ _ Pp). lra.
Qed.

(** The offset along the computed side: the rectangle is centred on the
    canvas up to rounding, and leaves at most a rounding error of the
    canvas uncovered at either end. *)
Lemma centred_offset (T D : Q) :
  (0 < T -> T * (1 - 4 * eps64) <= D ->
   let o := fdiv (fsub T D) 2 in
   o <= T * (4 * eps64) /\ T * (1 - 4 * eps64) <= o + D /\
   Qabs ((o + D - T) - (- o)) <= Qabs (T - D) * (3 * eps64))%Q.
Proof.
  intros HT HD o. unfold o, fdiv, fsub. clear o.
  pose proof (round64_error (T - D)) as E1.
  set (x := round64 (T - D)) in *.
  pose proof (round64_error (x / 2)) as E2.
  set (o := round64 (x / 2)) in *.
  destruct eps64_small as [He0 He1]. set (e := eps64) in *.
  pose proof (Qabs_nonneg (T - D)) as Ny.
  pose proof (Qle_Qabs (T - D)) as Y1.
  pose proof (Qle_Qabs (- (T - D))) as Y2. rewrite Qabs_opp in Y2.
  set (ay := Qabs (T - D)) in *.
  apply Qabs_Qle_condition in E1.
  assert (Ax : (Qabs (x / 2) <= ay * (1 + e) / 2)%Q).
  { apply Qabs_Qle_condition. clearbody x o e ay.
    unfold Qdiv. change (/ 2)%Q with (1 # 2)%Q. split; nra. }
  assert (E2' : (Qabs (o - x / 2) <= ay * (1 + e) / 2 * e)%Q).
  { eapply Qle_trans; [exact E2|]. apply Qmult_le_compat_r; [exact Ax | lra]. }
  apply Qabs_Qle_condition in E2'.
  assert (Hsign : ((T - D <= 0 -> ay == D - T) /\ (0 <= T - D -> ay == T - D))%Q).
  { split; intros Hs; unfold ay; [rewrite Qabs_neg by exact Hs | rewrite Qabs_pos by exact Hs];
      ring. }
  clearbody x o e ay. unfold Qdiv in *. change (/ 2)%Q with (1 # 2)%Q in *.
  destruct Hsign as [Sn Sp].
  split; [|split].
  - destruct (Qlt_le_dec (T - D) 0) as [Hneg|Hpos].
    + specialize (Sn (Qlt_le_weak _ _ Hneg)). nra.
    + specialize (Sp Hpos). nra.
  - destruct (Qlt_le_dec (T - D) 0) as [Hneg|Hpos].
    + specialize (Sn (Qlt_le_weak _ _ Hneg)). nra.
    + specialize (Sp Hpos). nra.
  - apply Qabs_Qle_condition. split; nra.
Qed.

Section CoverFit.

Variable textWidth : Font -> jsstring -> Q.
Variable paint : Z -> Z -> Attrs -> DrawCall -> Bitmap -> Bitmap.

(** C3, amended.  The run fills the canvas and then draws the image,
    into the cover-fit rectangle computed in double precision; on a
    canvas at least five pixels high, where the run completes, this is
    the only time the image is drawn.  If the rounded ratio
    [srcW / srcH] exceeds the rounded [canvasW / canvasH], the rectangle
    has height exactly [canvasH], width [srcW * (canvasH / srcH)] and
    [offsetY = 0]; otherwise width exactly [canvasW], height
    [srcH * (canvasW / srcW)] and [offsetX = 0]; the other offset is
    half the difference of canvas and rectangle.  The computed side
    reaches the canvas side up to a relative error of [4 * 2^-53]: the
    rectangle covers the canvas except for at most that much at either
    end, and is centred on it up to rounding. *)
Theorem drawn_image_covers_canvas_up_to_rounding (img : Image) (canvasW canvasH : Z) :
  0 < imgWidth img -> 0 < imgHeight img -> 0 < canvasW -> 0 < canvasH ->
  let sw := inject_Z (imgWidth img) in let sh := inject_Z (imgHeight img) in
  let cw := inject_Z canvasW in let ch := inject_Z canvasH in
  exists (c' : Context2D) (dx dy dw dh : Q),
    drawBackground paint img canvasW canvasH (createCanvas canvasW canvasH)
      = inr (tt, c') /\
    calls c' = [(defaultAttrs, FillRect 0 0 cw ch);
                (defaultAttrs, DrawImage img dx dy dw dh)] /\
    (5 <= canvasH -> forall gameName providerName, exists c'',
       compose textWidth paint img gameName providerName canvasW canvasH
         (createCanvas canvasW canvasH) = inr (tt, c'') /\
       imageDraws (calls c'') = [(dx, dy, dw, dh)]) /\
    ((fdiv cw ch < fdiv sw sh)%Q ->
       dh = ch /\ dw = fmul sw (fdiv ch sh) /\
       dx = fdiv (fsub cw dw) 2 /\ dy = 0%Q) /\
    (~ (fdiv cw ch < fdiv sw sh)%Q ->
       dw = cw /\ dh = fmul sh (fdiv cw sw) /\
       dy = fdiv (fsub ch dh) 2 /\ dx = 0%Q) /\
    (cw * (1 - 4 * eps64) <= dw /\ ch * (1 - 4 * eps64) <= dh /\
     dx <= cw * (4 * eps64) /\ cw * (1 - 4 * eps64) <= dx + dw /\
     dy <= ch * (4 * eps64) /\ ch * (1 - 4 * eps64) <= dy + dh /\
     Qabs ((dx + dw - cw) - (- dx)) <= Qabs (cw - dw) * (3 * eps64) /\
     Qabs ((dy + dh - ch) - (- dy)) <= Qabs (ch - dh) * (3 * eps64))%Q.
Proof.
  intros Hsw Hsh Hcw Hch sw sh cw ch.
  pose proof (inject_Z_pos _ Hsw) as Psw. pose proof (inject_Z_pos _ Hsh) as Psh.
  pose proof (inject_Z_pos _ Hcw) as Pcw. pose proof (inject_Z_pos _ Hch) as Pch.
  fold sw in Psw. fold sh in Psh. fold cw in Pcw. fold ch in Pch.
  destruct (drawBackground_run paint img canvasW canvasH (createCanvas canvasW canvasH)
              eq_refl) as (c' & Hrun & _ & _ & _ & Hcalls).
  cbn [createCanvas calls app] in Hcalls. cbv zeta in Hcalls.
  set (p := coverFit (imgWidth img) (imgHeight img) canvasW canvasH) in Hcalls.
  exists c', (offsetX p), (offsetY p), (drawWidth p), (drawHeight p).
  split; [exact Hrun|]. split; [exact Hcalls|]. clear Hrun Hcalls.
  split.
  { intros Hh gameName providerName.
    destruct (compose_run textWidth paint img gameName providerName canvasW canvasH
                ltac:(lia) Hh)
      as (r & g & b & c1 & c'' & _ & _ & _ & _ & _ & Hrun & _ & _ & Hcalls).
    exists c''. split; [exact Hrun|]. rewrite Hcalls.
    apply (imageDraws_expected textWidth). }
  unfold p, coverFit. fold sw sh cw ch. clearbody sw sh cw ch. clear p.
  destruct eps64_small as [He0 He1].
  assert (Hfit : forall T : Q, (0 < T)%Q ->
            (T * (1 - 4 * eps64) <= T /\ 0 <= T * (4 * eps64) /\
             T * (1 - 4 * eps64) <= 0 + T /\
             Qabs (0 + T - T - - 0) <= Qabs (T - T) * (3 * eps64))%Q).
  { intros T HT.
    assert (P : (0 <= T * (4 * eps64))%Q) by (apply Qmult_le_0_compat; lra).
    split; [lra|]. split; [exact P|]. split; [lra|].
    assert (E1 : (0 + T - T - - 0 == 0)%Q) by ring.
    assert (E2 : (T - T == 0)%Q) by ring.
    rewrite E1, E2. cbn. discriminate. }
  destruct (Qgtb (fdiv sw sh) (fdiv cw ch)) eqn:E.
  - apply Qgtb_true in E. cbn [drawWidth drawHeight offsetX offsetY].
    split; [intros _; repeat split; reflexivity|].
    split; [intros N; contradiction|].
    assert (Hside : (cw * (1 - 4 * eps64) <= fmul sw (fdiv ch sh))%Q).
    { apply cover_side; try assumption.
      apply (ratio_cross cw ch sw sh); try assumption. now apply Qlt_le_weak. }
    destruct (centred_offset cw (fmul sw (fdiv ch sh)) Pcw Hside) as (O1 & O2 & O3).
    destruct (Hfit ch Pch) as (F1 & F2 & F3 & F4).
    repeat (split; [assumption|]). assumption.
  - apply Qgtb_false in E. cbn [drawWidth drawHeight offsetX offsetY].
    split; [intros N; exfalso; revert N; apply Qle_not_lt; assumption|].
    split; [intros _; repeat split; reflexivity|].
    assert (Hside : (ch * (1 - 4 * eps64) <= fmul sh (fdiv cw sw))%Q).
    { apply cover_side; try assumption.
      pose proof (ratio_cross sw sh cw ch Psw Psh Pcw Pch E) as H.
      setoid_replace (ch * sw * (1 - eps64))%Q with (sw * ch * (1 - eps64))%Q by ring.
      setoid_replace (sh * cw * (1 + eps64))%Q with (cw * sh * (1 + eps64))%Q by ring.
      exact H. }
    destruct (centred_offset ch (fmul sh (fdiv cw sw)) Pch Hside) as (O1 & O2 & O3).
    destruct (Hfit cw Pcw) as (F1 & F2 & F3 & F4).
    repeat (split; [assumption|]). assumption.
Qed.

End CoverFit.

Lemma drawn_image_covers_canvas_up_to_rounding_witness :
  exists (c' : Context2D) (dx dy dw dh : Q),
    drawBackground paintRed landscape 1080 1920 (createCanvas 1080 1920) = inr (tt, c') /\
    calls c' = [(defaultAttrs, FillRect 0 0 (inject_Z 1080) (inject_Z 1920));
                (defaultAttrs, DrawImage landscape dx dy dw dh)] /\
    (inject_Z 1080 * (1 - 4 * eps64) <= dw /\ inject_Z 1920 * (1 - 4 * eps64) <= dh)%Q.
Proof.
  destruct (drawn_image_covers_canvas_up_to_rounding monoWidth paintRed landscape 1080 1920)
    as (c' & dx & dy & dw & dh & Hrun & Hcalls & _ & _ & _ & Hw & Hh & _);
    [reflexivity | reflexivity | lia | lia |].
  exists c', dx, dy, dw, dh. split; [exact Hrun|]. split; [exact Hcalls|]. now split.
Defined.

(** C3, as stated, fails in the arithmetic of the code: for an 11 x 11
    image on a 15 x 15 canvas the drawn height is [11 * (15 / 11)], which
    is [15 - 2^-49] in double precision, and the image starts [2^-50]
    below the top of the canvas. *)
Lemma cover_falls_short_in_doubles :
  exists (c' : Context2D) (dx dy dw dh : Q),
    drawBackground paintRed speck 15 15 (createCanvas 15 15) = inr (tt, c') /\
    map snd (calls c') = [FillRect 0 0 (inject_Z 15) (inject_Z 15);
                          DrawImage speck dx dy dw dh] /\
    (dw == 15 /\ dh == 15 - (1 # 562949953421312) /\ dh < 15 /\
     dx == 0 /\ dy == 1 # 1125899906842624 /\ 0 < dy)%Q.
Proof.
  destruct (drawBackground_run paintRed speck 15 15 (createCanvas 15 15) eq_refl)
    as (c' & Hrun & _ & _ & _ & Hcalls).
  cbn [createCanvas calls app] in Hcalls.
  exists c', (offsetX (coverFit 11 11 15 15)), (offsetY (coverFit 11 11 15 15)),
    (drawWidth (coverFit 11 11 15 15)), (drawHeight (coverFit 11 11 15 15)).
  split; [exact Hrun|]. split; [rewrite Hcalls; reflexivity|].
  vm_compute. repeat split; reflexivity || discriminate.
Qed.

(** ** Overlay *)





Section OverlayClaims.

Variable textWidth : Font -> jsstring -> Q.
Variable paint : Z -> Z -> Attrs -> DrawCall -> Bitmap -> Bitmap.


End OverlayClaims.


(** C6, as stated, fails at channel value 255: the middle stop carries
    127.5, not the truncated 127. *)
Lemma gradient_stop_not_truncated :
  let stops := colorStops (themeGradient 1920 255 255 255) in
  exists m : Color,
    nth_error stops 1 = Some (0.6%Q, m) /\
    (cr m == 127.5)%Q /\
    truncTowardZero (inject_Z 255 * 0.5) = 127 /\
    ~ (cr m == inject_Z (truncTowardZero (inject_Z 255 * 0.5)))%Q.
Proof.
  eexists. split; [reflexivity|]. split; [reflexivity|]. split; [reflexivity|].
  vm_compute. discriminate.
Qed.

(** C6, amended.  The channel values of the middle and final stops are
    the products [c * 0.5] and [c * 0.2] themselves.  For a channel value
    between 0 and 255 the product is the truncated integer only when [c]
    is even, respectively a multiple of five. *)
Theorem gradient_stops_are_unrounded (canvasH r g b c : Z) :
  0 <= c <= 255 ->
  colorStops (themeGradient canvasH r g b) =
    [(0%Q, rgba (inject_Z r) (inject_Z g) (inject_Z b) 0);
     (0.6%Q, rgba (inject_Z r * 0.5) (inject_Z g * 0.5) (inject_Z b * 0.5) 0.8);
     (1%Q, rgba (inject_Z r * 0.2) (inject_Z g * 0.2) (inject_Z b * 0.2) 1)] /\
  ((inject_Z c * 0.5 == inject_Z (truncTowardZero (inject_Z c * 0.5)))%Q <-> c mod 2 = 0) /\
  ((inject_Z c * 0.2 == inject_Z (truncTowardZero (inject_Z c * 0.2)))%Q <-> c mod 5 = 0).
Proof.
  intros Hc. split; [reflexivity|].
  unfold truncTowardZero, Qeq.
  cbn [Qnum Qden inject_Z Qmult Pos.mul].
  rewrite !Z.quot_div_nonneg by lia.
  pose proof (Z.div_mod (c * 5) 10 ltac:(lia)).
  pose proof (Z.mod_pos_bound (c * 5) 10 ltac:(lia)).
  pose proof (Z.div_mod (c * 2) 10 ltac:(lia)).
  pose proof (Z.mod_pos_bound (c * 2) 10 ltac:(lia)).
  pose proof (Z.div_mod c 2 ltac:(lia)).
  pose proof (Z.mod_pos_bound c 2 ltac:(lia)).
  pose proof (Z.div_mod c 5 ltac:(lia)).
  pose proof (Z.mod_pos_bound c 5 ltac:(lia)).
  split; split; lia.
Qed.

Lemma gradient_stops_are_unrounded_witness :
  (inject_Z 255 * 0.5 == inject_Z (truncTowardZero (inject_Z 255 * 0.5)))%Q <-> 255 mod 2 = 0.
Proof.
  apply (gradient_stops_are_unrounded 1920 255 255 255 255). lia.
Defined.

(** ** Strings *)

Lemma isSpace_true (c : ascii) : isSpace c = true -> c = space.
Proof. unfold isSpace. apply Ascii.eqb_eq. Qed.

Lemma upperChar_isSpace (c : ascii) : isSpace (upperChar c) = isSpace c.
Proof. destruct c as [[] [] [] [] [] [] [] []]; reflexivity. Qed.

Lemma upperChar_isWhiteSpace (c : ascii) : isWhiteSpace (upperChar c) = isWhiteSpace c.
Proof. destruct c as [[] [] [] [] [] [] [] []]; reflexivity. Qed.

Lemma split_nonempty (s : jsstring) : split s <> [].
Proof.
  destruct s as [|c s]; cbn [split]; [discriminate|].
  destruct (isSpace c); [discriminate|]. destruct (split s); discriminate.
Qed.

Lemma split_toUpperCase (s : jsstring) :
  split (toUpperCase s) = map toUpperCase (split s).
Proof.
  induction s as [|c s IH]; [reflexivity|].
  cbn [toUpperCase map split]. fold (toUpperCase s).
  rewrite upperChar_isSpace, IH.
  destruct (isSpace c); [reflexivity|].
  destruct (split s); reflexivity.
Qed.

Lemma spaced_cons (w : jsstring) (ws : list jsstring) :
  spaced (w :: ws) = w ++ space :: spaced ws.
Proof. unfold spaced. cbn [map List.concat]. now rewrite <- List.app_assoc. Qed.

Lemma spaced_app (a b : list jsstring) : spaced (a ++ b) = spaced a ++ spaced b.
Proof. unfold spaced. now rewrite map_app, concat_app. Qed.

Lemma spaced_snoc (g : list jsstring) (w : jsstring) :
  spaced (g ++ [w]) = spaced g ++ w ++ [space].
Proof. rewrite spaced_app, spaced_cons. reflexivity. Qed.

(** The words of a string, each followed by a space, spell the string
    followed by a space. *)
Lemma spaced_split (s : jsstring) : spaced (split s) = s ++ [space].
Proof.
  induction s as [|c s IH]; [reflexivity|].
  cbn [split]. destruct (isSpace c) eqn:E.
  - apply isSpace_true in E. subst c. rewrite spaced_cons, IH. reflexivity.
  - destruct (split s) as [|w ws] eqn:Es; [now apply split_nonempty in Es|].
    rewrite spaced_cons in *. cbn [app]. now rewrite IH.
Qed.

Lemma join_cons (w : jsstring) (ws : list jsstring) :
  ws <> [] -> join (w :: ws) = w ++ space :: join ws.
Proof. destruct ws; [congruence | reflexivity]. Qed.

Lemma join_split (s : jsstring) : join (split s) = s.
Proof.
  induction s as [|c s IH]; [reflexivity|].
  cbn [split]. destruct (isSpace c) eqn:E.
  - apply isSpace_true in E. subst c.
    rewrite join_cons by apply split_nonempty. now rewrite IH.
  - destruct (split s) as [|w ws] eqn:Es; [now apply split_nonempty in Es|].
    destruct ws as [|w' ws'].
    + cbn [join] in *. now rewrite IH.
    + rewrite join_cons in * by discriminate. cbn [app]. now rewrite IH.
Qed.

Lemma join_app (a b : list jsstring) :
  a <> [] -> b <> [] -> join (a ++ b) = join a ++ space :: join b.
Proof.
  intros Ha Hb. induction a as [|w a IH]; [congruence|].
  destruct a as [|w' a'].
  - cbn [app]. now rewrite join_cons.
  - change ((w :: w' :: a') ++ b) with (w :: (w' :: a') ++ b).
    rewrite join_cons by discriminate.
    rewrite IH by discriminate.
    rewrite (join_cons w (w' :: a')) by discriminate.
    now rewrite <- List.app_assoc.
Qed.

Lemma spaced_join (g : list jsstring) : g <> [] -> spaced g = join g ++ [space].
Proof.
  induction g as [|w g IH]; [congruence|]. intros _.
  rewrite spaced_cons. destruct g as [|w' g'].
  - reflexivity.
  - rewrite IH by discriminate. rewrite (join_cons w (w' :: g')) by discriminate.
    now rewrite <- List.app_assoc.
Qed.

Lemma concat_nonempty (groups : list (list jsstring)) :
  groups <> [] -> Forall (fun g => g <> []) groups -> List.concat groups <> [].
Proof.
  intros Hne Hall. destruct groups as [|g gs]; [congruence|].
  inversion Hall as [|? ? Hg _]; subst. cbn [List.concat].
  destruct g; [congruence | discriminate].
Qed.

Lemma join_concat (groups : list (list jsstring)) :
  Forall (fun g => g <> []) groups ->
  join (map join groups) = join (List.concat groups).
Proof.
  induction groups as [|g gs IH]; intros Hall; [reflexivity|].
  inversion Hall as [|? ? Hg Hgs]; subst.
  destruct gs as [|g' gs'].
  - cbn [map join List.concat]. now rewrite List.app_nil_r.
  - change (map join (g :: g' :: gs')) with (join g :: map join (g' :: gs')).
    rewrite join_cons by discriminate.
    rewrite IH by assumption.
    change (List.concat (g :: g' :: gs')) with (g ++ List.concat (g' :: gs')).
    rewrite join_app; [reflexivity | assumption |].
    apply concat_nonempty; [discriminate | assumption].
Qed.

(** [singleSpaced] read off the characters. *)
Lemma words_nonempty_chars (s : jsstring) :
  (Forall (fun w => w <> []) (split s) <->
     s <> [] /\ startsWithSpace s = false /\ spacesFollowed s = true) /\
  (Forall (fun w => w <> []) (tl (split s)) <-> spacesFollowed s = true).
Proof.
  induction s as [|c s [IHall IHtl]].
  - split; split.
    + intros H. inversion H; congruence.
    + intros [H _]; congruence.
    + reflexivity.
    + constructor.
  - cbn [split startsWithSpace spacesFollowed]. destruct (isSpace c) eqn:Ec.
    + split; split.
      * intros H. inversion H; congruence.
      * intros (_ & H & _); discriminate.
      * cbn [tl]. rewrite IHall. intros (Hne & Hst & Hfo).
        destruct s; [congruence|]. rewrite Hst, Hfo. reflexivity.
      * cbn [tl]. rewrite IHall. destruct s as [|d s']; [discriminate|].
        intros H. apply andb_true_iff in H. destruct H as [Hst Hfo].
        apply negb_true_iff in Hst. repeat split; [discriminate | assumption..].
    + cbn [andb].
      destruct (split s) as [|w ws] eqn:Es; [now apply split_nonempty in Es|].
      cbn [tl] in *. split; split.
      * intros H. inversion H; subst.
        repeat split; [discriminate | now apply IHtl].
      * intros (_ & _ & H). constructor; [discriminate | now apply IHtl].
      * apply IHtl.
      * apply IHtl.
Qed.

Lemma singleSpaced_chars (s : jsstring) :
  singleSpaced s <-> startsWithSpace s = false /\ spacesFollowed s = true.
Proof.
  unfold singleSpaced. rewrite (proj1 (words_nonempty_chars s)). split.
  - intros [->|(_ & H)]; [split; reflexivity | exact H].
  - intros H. destruct s as [|c s]; [now left | right].
    split; [discriminate | exact H].
Qed.

(** Trimming *)

Lemma trimStart_length (s : jsstring) : (List.length (trimStart s) <= List.length s)%nat.
Proof.
  induction s as [|c s IH]; cbn [trimStart]; [lia|].
  destruct (isWhiteSpace c); cbn [List.length]; lia.
Qed.

Lemma trimStart_fixed (s : jsstring) :
  List.length (trimStart s) = List.length s -> trimStart s = s.
Proof.
  destruct s as [|c s]; [reflexivity|]. cbn [trimStart].
  destruct (isWhiteSpace c); [|reflexivity].
  pose proof (trimStart_length s). cbn [List.length]. lia.
Qed.

Lemma trimEnd_length (s : jsstring) : (List.length (trimEnd s) <= List.length s)%nat.
Proof.
  unfold trimEnd. rewrite length_rev.
  pose proof (trimStart_length (rev s)) as H. now rewrite length_rev in H.
Qed.

Lemma trim_fixed (s : jsstring) :
  trim s = s -> trimStart s = s /\ trimStart (rev s) = rev s.
Proof.
  intros H. unfold trim in H.
  assert (Hs : trimStart s = s).
  { apply trimStart_fixed.
    pose proof (trimEnd_length (trimStart s)) as H1.
    pose proof (trimStart_length s) as H2. rewrite H in H1. lia. }
  split; [exact Hs|].
  rewrite Hs in H. unfold trimEnd in H.
  apply (f_equal (@rev ascii)) in H. now rewrite rev_involutive in H.
Qed.

Lemma trimStart_app (s t : jsstring) :
  s <> [] -> trimStart s = s -> trimStart (s ++ t) = s ++ t.
Proof.
  destruct s as [|c s]; [congruence|]. intros _. cbn [trimStart app].
  destruct (isWhiteSpace c) eqn:E; [|reflexivity].
  intros H. pose proof (trimStart_length s) as Hl.
  apply (f_equal (@List.length ascii)) in H. cbn [List.length] in H. lia.
Qed.

Lemma trimStart_join (g : list jsstring) (w : jsstring) :
  w <> [] -> trimStart w = w -> trimStart (join (w :: g)) = join (w :: g).
Proof.
  intros Hw Ht. destruct g as [|w' g'].
  - exact Ht.
  - rewrite join_cons by discriminate. now apply trimStart_app.
Qed.

Lemma rev_join (g : list jsstring) : rev (join g) = join (map (@rev ascii) (rev g)).
Proof.
  induction g as [|w g IH]; [reflexivity|].
  destruct g as [|w' g'].
  - reflexivity.
  - rewrite join_cons by discriminate.
    rewrite rev_app_distr. cbn [rev]. rewrite <- List.app_assoc.
    fold (rev (join (w' :: g'))).
    change (rev (join (w' :: g')) ++ [space] ++ rev w)
      with (rev (join (w' :: g')) ++ space :: rev w).
    rewrite IH.
    change (rev (w :: w' :: g')) with (rev (w' :: g') ++ [w]).
    rewrite map_app. cbn [map].
    rewrite join_app; [reflexivity | | discriminate].
    intros E. apply map_eq_nil in E.
    apply (f_equal (@List.length jsstring)) in E.
    cbn [rev] in E. rewrite length_app in E. cbn [List.length] in E. lia.
Qed.

(** A line of clean words, trimmed, is the words joined by spaces. *)
Lemma trim_spaced (g : list jsstring) :
  g <> [] -> Forall (fun w => w <> [] /\ trim w = w) g -> trim (spaced g) = join g.
Proof.
  intros Hne Hall. rewrite spaced_join by assumption.
  assert (Hstart : trimStart (join g) = join g).
  { destruct g as [|w g']; [congruence|].
    inversion Hall as [|? ? [Hw Ht] _]; subst.
    apply trimStart_join; [assumption | apply trim_fixed; assumption]. }
  assert (Hend : trimStart (rev (join g)) = rev (join g)).
  { rewrite rev_join.
    destruct (rev g) as [|w r] eqn:Er.
    - apply (f_equal (@List.length jsstring)) in Er. rewrite length_rev in Er.
      destruct g; [congruence | discriminate].
    - cbn [map].
      assert (Hin : In w g) by (apply in_rev; rewrite Er; now left).
      rewrite Forall_forall in Hall. destruct (Hall w Hin) as [Hw Ht].
      apply trimStart_join.
      + intros E. apply (f_equal (@List.length ascii)) in E. rewrite length_rev in E.
        destruct w; [congruence | discriminate].
      + apply trim_fixed; assumption. }
  assert (Hj : join g <> []).
  { destruct g as [|w g']; [congruence|].
    inversion Hall as [|? ? [Hw _] _]; subst.
    destruct g'; [exact Hw|]. rewrite join_cons by discriminate.
    destruct w; [congruence | discriminate]. }
  unfold trim. rewrite trimStart_app by assumption.
  unfold trimEnd. rewrite rev_app_distr. cbn [rev app trimStart].
  replace (isWhiteSpace space) with true by reflexivity.
  rewrite Hend. apply rev_involutive.
Qed.

Lemma trimStart_toUpperCase (s : jsstring) :
  trimStart (toUpperCase s) = toUpperCase (trimStart s).
Proof.
  induction s as [|c s IH]; [reflexivity|].
  cbn [toUpperCase map trimStart]. fold (toUpperCase s).
  rewrite upperChar_isWhiteSpace. destruct (isWhiteSpace c); [exact IH | reflexivity].
Qed.

Lemma trimEnd_toUpperCase (s : jsstring) :
  trimEnd (toUpperCase s) = toUpperCase (trimEnd s).
Proof.
  unfold trimEnd.
  replace (rev (toUpperCase s)) with (toUpperCase (rev s))
    by (unfold toUpperCase; apply map_rev).
  rewrite trimStart_toUpperCase. unfold toUpperCase. symmetry. apply map_rev.
Qed.

Lemma trim_toUpperCase (s : jsstring) : trim (toUpperCase s) = toUpperCase (trim s).
Proof. unfold trim. now rewrite trimStart_toUpperCase, trimEnd_toUpperCase. Qed.

(** ** The word-wrap loop *)

Section WordWrap.

Variable measure : jsstring -> Q.
Variable maxWidth : Q.

(** Every line the loop builds is a group of consecutive words, each
    followed by a space; the groups, in order, are the words, and no
    group is empty. *)
Lemma wrapLoop_groups (rest : list jsstring) :
  forall (n : nat) (g : list jsstring) (gs : list (list jsstring)),
    (n <> 0%nat -> g <> []) ->
    Forall (fun x => x <> []) gs ->
    exists g' gs',
      wrapLoop measure maxWidth rest n (spaced g) (map spaced gs)
        = (spaced g', map spaced gs') /\
      List.concat (gs' ++ [g']) = List.concat (gs ++ [g]) ++ rest /\
      Forall (fun x => x <> []) gs' /\
      (rest <> [] \/ n <> 0%nat -> g' <> []).
Proof.
  induction rest as [|w rest IH]; intros n g gs Hg Hgs.
  - exists g, gs. cbn [wrapLoop]. rewrite List.app_nil_r.
    repeat split; try assumption. intros [H|H]; [congruence | auto].
  - cbn [wrapLoop].
    destruct (Qgtb (measure (spaced g ++ w ++ [space])) maxWidth && (0 <? n)%nat) eqn:E.
    + apply andb_true_iff in E. destruct E as [_ En]. apply Nat.ltb_lt in En.
      destruct (IH (S n) [w] (gs ++ [g])) as (g' & gs' & Hrun & Hcat & Hall & Hne).
      * discriminate.
      * apply Forall_app. split; [assumption|]. constructor; [|constructor].
        apply Hg. lia.
      * exists g', gs'. rewrite map_app in Hrun. cbn [map] in Hrun.
        rewrite (spaced_cons w []) in Hrun.
        change (spaced []) with (@nil ascii) in Hrun. rewrite Hrun.
        split; [reflexivity|]. split.
        { rewrite Hcat. rewrite !concat_app. cbn [List.concat].
          rewrite !List.app_nil_r, <- !List.app_assoc. reflexivity. }
        split; [assumption|]. intros _. apply Hne. right. lia.
    + destruct (IH (S n) (g ++ [w]) gs) as (g' & gs' & Hrun & Hcat & Hall & Hne).
      * intros _. destruct g; discriminate.
      * assumption.
      * exists g', gs'. rewrite spaced_snoc in Hrun. rewrite Hrun.
        split; [reflexivity|]. split.
        { rewrite Hcat. rewrite !concat_app. cbn [List.concat].
          rewrite !List.app_nil_r, <- !List.app_assoc. reflexivity. }
        split; [assumption|]. intros _. apply Hne. right. lia.
Qed.

(** The first word never commits a line. *)
Lemma wrapLoop_first (w : jsstring) (rest : list jsstring) (lines : list jsstring) :
  wrapLoop measure maxWidth (w :: rest) 0 [] lines
    = wrapLoop measure maxWidth rest 1 (w ++ [space]) lines.
Proof.
  cbn [wrapLoop]. change (0 <? 0)%nat with false. now rewrite andb_false_r.
Qed.

(** The committed lines only grow. *)
Lemma wrapLoop_keeps_lines (rest : list jsstring) :
  forall n line lines,
    exists more, snd (wrapLoop measure maxWidth rest n line lines) = lines ++ more.
Proof.
  induction rest as [|w rest IH]; intros n line lines; cbn [wrapLoop].
  - exists []. now rewrite List.app_nil_r.
  - destruct (Qgtb _ _ && _).
    + destruct (IH (S n) (w ++ [space]) (lines ++ [line])) as (more & Hm).
      exists (line :: more). rewrite Hm, <- List.app_assoc. reflexivity.
    + apply IH.
Qed.



(** The wrapped lines are groups of consecutive words of the upper-cased
    title: every word once, in order. *)
Lemma wrapLines_groups (title : jsstring) :
  exists groups : list (list jsstring),
    wrapLines measure maxWidth title = map spaced groups /\
    List.concat groups = split (toUpperCase title) /\
    Forall (fun g => g <> []) groups.
Proof.
  unfold wrapLines.
  destruct (wrapLoop_groups (split (toUpperCase title)) 0 [] [])
    as (g' & gs' & Hrun & Hcat & Hall & Hne); [congruence | constructor |].
  cbn [spaced map List.concat] in Hrun. rewrite Hrun.
  exists (gs' ++ [g']). rewrite map_app. split; [reflexivity|].
  split; [exact Hcat|].
  apply Forall_app. split; [assumption|]. constructor; [|constructor].
  apply Hne. left. apply split_nonempty.
Qed.

Lemma wrapLines_nonempty (title : jsstring) : wrapLines measure maxWidth title <> [].
Proof.
  unfold wrapLines. destruct (wrapLoop _ _ _ _ _ _) as [line lines].
  destruct lines; discriminate.
Qed.



End WordWrap.

(** ** Typesetter: the word-wrap *)




(** The wrapped lines, trimmed: groups of consecutive words joined by
    single spaces. *)
Lemma wrapLines_rejoin (measure : jsstring -> Q) (maxWidth : Q) (title : jsstring) :
  singleSpaced title -> tightWords title ->
  exists groups : list (list jsstring),
    map trim (wrapLines measure maxWidth title) = map join groups /\
    List.concat groups = split (toUpperCase title) /\
    Forall (fun g => g <> []) groups /\
    join (map trim (wrapLines measure maxWidth title)) = toUpperCase title.
Proof.
  intros [->|Hwords] Htight.
  - exists [[[]]]. unfold wrapLines. cbn [toUpperCase map split].
    rewrite wrapLoop_first. cbn [wrapLoop app].
    repeat split; try reflexivity. constructor; [discriminate | constructor].
  - destruct (wrapLines_groups measure maxWidth title) as (groups & Hl & Hcat & Hne).
    assert (Hgood : Forall (fun w => w <> [] /\ trim w = w) (split (toUpperCase title))).
    { rewrite split_toUpperCase. apply Forall_map.
      unfold tightWords in Htight. rewrite Forall_forall in *.
      intros w Hw. split.
      - pose proof (Hwords w Hw) as Hn. destruct w; [congruence | discriminate].
      - rewrite trim_toUpperCase. now rewrite (Htight w Hw). }
    assert (Htrim : map trim (wrapLines measure maxWidth title) = map join groups).
    { rewrite Hl, map_map. apply map_ext_in. intros g Hg.
      rewrite Forall_forall in Hne. apply trim_spaced; [now apply Hne|].
      rewrite Forall_forall in *. intros w Hw. apply Hgood.
      rewrite <- Hcat. apply in_concat. exists g. split; assumption. }
    exists groups. repeat split; try assumption.
    rewrite Htrim, join_concat by assumption. rewrite Hcat. apply join_split.
Qed.

(** ** Typesetter: where the game name is drawn *)

Lemma placedLines_ys_by_length (l1 l2 : list jsstring) (x y lineHeight : Q) :
  List.length l1 = List.length l2 ->
  forall i, ys (placedLines l1 i x y lineHeight) = ys (placedLines l2 i x y lineHeight).
Proof.
  revert l2. induction l1 as [|a l1 IH]; intros [|b l2] Hlen i;
    cbn [List.length] in Hlen; try discriminate; [reflexivity|].
  cbn [placedLines ys map snd]. f_equal. apply IH. lia.
Qed.

Section TypesetterClaims.

Variable textWidth : Font -> jsstring -> Q.
Variable paint : Z -> Z -> Attrs -> DrawCall -> Bitmap -> Bitmap.

(** What a run draws of the game name. *)
Lemma title_calls (img : Image) (gameName providerName : jsstring) (canvasW canvasH : Z) :
1 <= canvasW -> 5 <= canvasH ->
exists c',
  compose textWidth paint img gameName providerName canvasW canvasH
    (createCanvas canvasW canvasH) = inr (tt, c') /\
  let lines := titleLines textWidth gameName canvasW in
  textCalls 900 (calls c') =
    placedLines lines 0 (inject_Z canvasW / 2)
      (titleTop canvasW canvasH (List.length lines)) (titleLineHeight canvasW).
Proof.
intros Hw Hh.
destruct (compose_run textWidth paint img gameName providerName canvasW canvasH Hw Hh)
  as (r & g & b & c1 & c' & _ & _ & _ & _ & _ & Hrun & _ & _ & Hcalls).
exists c'. split; [exact Hrun|]. rewrite Hcalls. apply textCalls_expected.
Qed.

(** What [addText] adds to the calls: the lines of the game name, then
  the provider. *)
Lemma addText_title_calls (gameName providerName : jsstring) (canvasW canvasH : Z)
  (c : Context2D) :
exists c' new,
  addText textWidth paint gameName providerName canvasW canvasH c = inr (tt, c') /\
  calls c' = calls c ++ new /\
  let lines := titleLines textWidth gameName canvasW in
  textCalls 900 new =
    placedLines lines 0 (inject_Z canvasW / 2)
      (titleTop canvasW canvasH (List.length lines)) (titleLineHeight canvasW).
Proof.
destruct (addText_run textWidth paint gameName providerName canvasW canvasH c)
  as (c' & Hrun & _ & _ & Hcalls).
eexists c', _. split; [exact Hrun|]. split; [exact Hcalls|].
cbv zeta. rewrite textCalls_app.
change 900 with (fontWeight (font (titleAttrs canvasW))) at 1.
rewrite textCalls_lineCalls. cbn. now rewrite List.app_nil_r.
Qed.

(** C7.  The game name is drawn in [n >= 1] lines; line [i] is drawn
  [(n - 1 - i)] line-heights above [canvasH - canvasH * 0.15], the last
  line exactly there, whatever [n] is. *)
Theorem title_block_is_bottom_anchored (gameName providerName : jsstring)
  (canvasW canvasH : Z) (c : Context2D) :
exists c' new,
  addText textWidth paint gameName providerName canvasW canvasH c = inr (tt, c') /\
  calls c' = calls c ++ new /\
  let drawn := textCalls 900 new in
  let n := List.length drawn in
  let lineHeight := (inject_Z (floor (inject_Z canvasW * 0.12)) * 1.1)%Q in
  (1 <= n)%nat /\
  n = List.length (titleLines textWidth gameName canvasW) /\
  (nth (n - 1) (ys drawn) 0 == inject_Z canvasH - inject_Z canvasH * 0.15)%Q /\
  forall i, (i < n)%nat ->
    (nth i (ys drawn) 0 ==
       inject_Z canvasH - inject_Z canvasH * 0.15
       - inject_Z (Z.of_nat n - 1 - Z.of_nat i) * lineHeight)%Q.
Proof.
destruct (addText_title_calls gameName providerName canvasW canvasH c)
  as (c' & new & Hrun & Hnew & Hcalls).
exists c', new. split; [exact Hrun|]. split; [exact Hnew|].
cbv zeta in Hcalls |- *. rewrite Hcalls.
rewrite placedLines_length.
set (lines := titleLines textWidth gameName canvasW).
assert (Hn : (1 <= List.length lines)%nat).
{ pose proof (wrapLines_nonempty (textWidth (mkFont 900 (floor (inject_Z canvasW * 0.12))))
                (inject_Z canvasW * 0.9) gameName) as Hne.
  fold (titleLines textWidth gameName canvasW) in Hne. fold lines in Hne.
  destruct lines; [congruence | cbn [List.length]; lia]. }
assert (Hall : forall i, (i < List.length lines)%nat ->
  (nth i (ys (placedLines lines 0 (inject_Z canvasW / 2)
                (titleTop canvasW canvasH (List.length lines))
                (titleLineHeight canvasW))) 0 ==
     inject_Z canvasH - inject_Z canvasH * 0.15
     - inject_Z (Z.of_nat (List.length lines) - 1 - Z.of_nat i)
       * (inject_Z (floor (inject_Z canvasW * 0.12)) * 1.1))%Q).
{ intros i Hi. rewrite placedLines_ys by exact Hi.
  unfold titleTop, titleLineHeight. cbn [Nat.add].
  unfold Z.sub. rewrite !inject_Z_plus, !inject_Z_opp. ring. }
split; [exact Hn|]. split; [reflexivity|]. split; [|exact Hall].
rewrite Hall by lia.
replace (Z.of_nat (List.length lines) - 1 - Z.of_nat (List.length lines - 1)) with 0 by lia.
ring.
Qed.

(** C1, amended.  The shift computed for a name longer than 15 characters
  is overwritten by the assignment that follows the wrap: two names that
  wrap to the same number of lines are drawn at the same vertical
  positions, whatever their lengths. *)
Theorem title_position_ignores_name_length (name1 name2 providerName : jsstring)
  (canvasW canvasH : Z) (c : Context2D) :
List.length (titleLines textWidth name1 canvasW)
  = List.length (titleLines textWidth name2 canvasW) ->
exists c1 new1 c2 new2,
  addText textWidth paint name1 providerName canvasW canvasH c = inr (tt, c1) /\
  calls c1 = calls c ++ new1 /\
  addText textWidth paint name2 providerName canvasW canvasH c = inr (tt, c2) /\
  calls c2 = calls c ++ new2 /\
  ys (textCalls 900 new1) = ys (textCalls 900 new2).
Proof.
intros Hlen.
destruct (addText_title_calls name1 providerName canvasW canvasH c)
  as (c1 & new1 & Hrun1 & Hnew1 & Hc1).
destruct (addText_title_calls name2 providerName canvasW canvasH c)
  as (c2 & new2 & Hrun2 & Hnew2 & Hc2).
exists c1, new1, c2, new2. repeat (split; [assumption|]).
cbv zeta in Hc1, Hc2. rewrite Hc1, Hc2, Hlen.
now apply placedLines_ys_by_length.
Qed.

(** C10, amended.  For a game name with single spaces between its words,
  none at its ends, and no word beginning or ending with white space,
  the texts drawn are groups of consecutive words of the upper-cased
  name, every word once and in order, and joined by single spaces they
  spell the upper-cased name. *)
Theorem drawn_title_spells_the_name (gameName providerName : jsstring)
  (canvasW canvasH : Z) (c : Context2D) :
singleSpaced gameName -> tightWords gameName ->
exists c' new (groups : list (list jsstring)),
  addText textWidth paint gameName providerName canvasW canvasH c = inr (tt, c') /\
  calls c' = calls c ++ new /\
  texts (textCalls 900 new) = map join groups /\
  List.concat groups = split (toUpperCase gameName) /\
  Forall (fun g => g <> []) groups /\
  join (texts (textCalls 900 new)) = toUpperCase gameName.
Proof.
intros Hsingle Htight.
destruct (addText_title_calls gameName providerName canvasW canvasH c)
  as (c' & new & Hrun & Hnew & Hcalls).
destruct (wrapLines_rejoin (textWidth (mkFont 900 (floor (inject_Z canvasW * 0.12))))
            (inject_Z canvasW * 0.9) gameName Hsingle Htight)
  as (groups & Htrim & Hcat & Hne & Hjoin).
exists c', new, groups. split; [exact Hrun|]. split; [exact Hnew|].
cbv zeta in Hcalls. rewrite Hcalls, placedLines_texts.
unfold titleLines. repeat split; assumption.
Qed.

End TypesetterClaims.

Lemma title_block_is_bottom_anchored_witness :
  exists c' new,
    addText monoWidth paintRed (lit "super gold quest") (lit "Acme Games") 1080 1920
      (createCanvas 1080 1920) = inr (tt, c') /\
    calls c' = new /\
    (nth 0 (ys (textCalls 900 new)) 0 ==
       inject_Z 1920 - inject_Z 1920 * 0.15
       - inject_Z (Z.of_nat (List.length (textCalls 900 new)) - 1 - 0)
         * (inject_Z (floor (inject_Z 1080 * 0.12)) * 1.1))%Q.
Proof.
  destruct (title_block_is_bottom_anchored monoWidth paintRed
              (lit "super gold quest") (lit "Acme Games") 1080 1920
              (createCanvas 1080 1920))
    as (c' & new & Hrun & Hnew & Hn & _ & _ & Hall).
  exists c', new. split; [exact Hrun|]. split; [exact Hnew|].
  apply (Hall 0%nat). lia.
Defined.

(** C1, as stated, fails: a name of 16 characters and a name of 14
    characters, each on one line, are drawn at the same height; the longer
    one is not one line-height (2.2 here) higher. *)
Lemma long_name_is_not_drawn_higher :
  let long := lit "ABCDEFGHIJKLMNOP" in
  let short := lit "ABCDEFGHIJKLMN" in
  List.length long = 16%nat /\ List.length short = 14%nat /\
  exists c16 c14 y16 y14,
    compose monoWidth paintRed landscape long (lit "Acme Games") 20 40
      (createCanvas 20 40) = inr (tt, c16) /\
    compose monoWidth paintRed landscape short (lit "Acme Games") 20 40
      (createCanvas 20 40) = inr (tt, c14) /\
    textCalls 900 (calls c16) = [(long, (inject_Z 20 / 2)%Q, y16)] /\
    textCalls 900 (calls c14) = [(short, (inject_Z 20 / 2)%Q, y14)] /\
    (y16 == y14)%Q /\ ~ (y16 == y14 - titleLineHeight 20)%Q.
Proof.
  cbv zeta. split; [reflexivity|]. split; [reflexivity|].
  destruct (title_calls monoWidth paintRed landscape (lit "ABCDEFGHIJKLMNOP")
              (lit "Acme Games") 20 40 ltac:(lia) ltac:(lia)) as (c16 & Hrun16 & Hc16).
  destruct (title_calls monoWidth paintRed landscape (lit "ABCDEFGHIJKLMN")
              (lit "Acme Games") 20 40 ltac:(lia) ltac:(lia)) as (c14 & Hrun14 & Hc14).
  exists c16, c14. do 2 eexists.
  split; [exact Hrun16|]. split; [exact Hrun14|].
  split; [rewrite Hc16; vm_compute; reflexivity|].
  split; [rewrite Hc14; vm_compute; reflexivity|].
  split; [reflexivity|]. vm_compute. discriminate.
Qed.

Lemma title_position_ignores_name_length_witness :
  exists c1 new1 c2 new2,
    addText monoWidth paintRed (lit "ABCDEFGHIJKLMNOP") (lit "Acme Games") 20 40
      (createCanvas 20 40) = inr (tt, c1) /\
    calls c1 = new1 /\
    addText monoWidth paintRed (lit "ABCDEFGHIJKLMN") (lit "Acme Games") 20 40
      (createCanvas 20 40) = inr (tt, c2) /\
    calls c2 = new2 /\
    ys (textCalls 900 new1) = ys (textCalls 900 new2).
Proof.
  apply (title_position_ignores_name_length monoWidth paintRed
           (lit "ABCDEFGHIJKLMNOP") (lit "ABCDEFGHIJKLMN") (lit "Acme Games") 20 40
           (createCanvas 20 40)).
  vm_compute. reflexivity.
Defined.

(** C10, as stated, fails for a name whose word begins with a tab: the
    name has no space at all, yet [trim] removes the tab and the text
    drawn is not the upper-cased name. *)
Lemma leading_tab_is_dropped :
  let name := tab :: lit "A" in
  singleSpaced name /\
  exists c',
    compose monoWidth paintRed landscape name (lit "Acme Games") 20 40
      (createCanvas 20 40) = inr (tt, c') /\
    join (texts (textCalls 900 (calls c'))) = lit "A" /\
    toUpperCase name = tab :: lit "A" /\
    join (texts (textCalls 900 (calls c'))) <> toUpperCase name.
Proof.
  cbv zeta. split.
  { right. repeat constructor. discriminate. }
  destruct (title_calls monoWidth paintRed landscape (tab :: lit "A")
              (lit "Acme Games") 20 40 ltac:(lia) ltac:(lia)) as (c' & Hrun & Hc).
  exists c'. split; [exact Hrun|]. rewrite Hc.
  split; [vm_compute; reflexivity|]. split; [reflexivity|].
  vm_compute. discriminate.
Qed.

Lemma drawn_title_spells_the_name_witness :
  exists c' new,
    addText monoWidth paintRed (lit "super gold quest") (lit "Acme Games") 20 40
      (createCanvas 20 40) = inr (tt, c') /\
    calls c' = new /\
    join (texts (textCalls 900 new)) = lit "SUPER GOLD QUEST".
Proof.
  destruct (drawn_title_spells_the_name monoWidth paintRed
              (lit "super gold quest") (lit "Acme Games") 20 40 (createCanvas 20 40))
    as (c' & new & groups & Hrun & Hnew & _ & _ & _ & Hjoin).
  - right. vm_compute. repeat constructor; discriminate.
  - unfold tightWords. vm_compute. repeat constructor.
  - exists c', new. split; [exact Hrun|]. split; [exact Hnew | exact Hjoin].
Defined.

(** ** The canvas size *)

Lemma keepsSize_ret {A} (a : A) : keepsSize (ret a).
Proof. intros c a' c' H. inversion H; subst. now split. Qed.

Lemma keepsSize_throw {A} (e : Error) : keepsSize (@throw A e).
Proof. intros c a c' H. discriminate. Qed.

Lemma keepsSize_bind {A B} (m : M A) (k : A -> M B) :
  keepsSize m -> (forall a, keepsSize (k a)) -> keepsSize (bind m k).
Proof.
  intros Hm Hk c b c' H. unfold bind in H.
  destruct (m c) as [e|[a c1]] eqn:E; [discriminate|].
  destruct (Hm _ _ _ E) as [Hw Hh]. destruct (Hk a _ _ _ H) as [Hw' Hh'].
  split; congruence.
Qed.

Lemma keepsSize_setAttrs (f : Attrs -> Attrs) : keepsSize (setAttrs f).
Proof. intros c a c' H. inversion H; subst. now split. Qed.

Lemma keepsSize_getAttrs : keepsSize getAttrs.
Proof. intros c a c' H. inversion H; subst. now split. Qed.

Lemma keepsSize_getImageData (sx sy sw sh : Z) : keepsSize (getImageData sx sy sw sh).
Proof.
  intros c a c' H. unfold getImageData in H.
  destruct ((sw =? 0) || (sh =? 0)); [discriminate|]. inversion H; subst. now split.
Qed.

Lemma keepsSize_getDominantColor (width height : Z) :
  keepsSize (getDominantColor width height).
Proof.
  unfold getDominantColor. apply keepsSize_bind; [apply keepsSize_getImageData|].
  intros data. destruct (averageOf data) as [[[r g] b]|];
    [apply keepsSize_ret | apply keepsSize_throw].
Qed.

Lemma keepsSize_parseTheme (themeColor : jsstring) : keepsSize (parseTheme themeColor).
Proof.
  unfold parseTheme.
  destruct (match matchDigits themeColor with
            | Some runs => map NumberOfDigits runs
            | None => [0; 0; 0]
            end) as [|r [|g [|b rest]]];
    (apply keepsSize_ret || apply keepsSize_throw).
Qed.

Create HintDb size discriminated.
#[local] Hint Resolve keepsSize_ret keepsSize_throw keepsSize_setAttrs keepsSize_getAttrs
  keepsSize_getImageData keepsSize_getDominantColor keepsSize_parseTheme : size.

Ltac keeps_size :=
  repeat (apply keepsSize_bind; [|intros]); auto with size.

Section CanvasSize.

Variable textWidth : Font -> jsstring -> Q.
Variable paint : Z -> Z -> Attrs -> DrawCall -> Bitmap -> Bitmap.
Variable allocates : Z -> Z -> bool.

Lemma keepsSize_draw (d : DrawCall) : keepsSize (draw paint d).
Proof. intros c a c' H. inversion H; subst. now split. Qed.

Lemma keepsSize_fillLines (x y lineHeight : Q) (lines : list jsstring) :
forall i, keepsSize (fillLines paint lines i x y lineHeight).
Proof.
induction lines as [|l rest IH]; intros i; cbn [fillLines].
- apply keepsSize_ret.
- apply keepsSize_bind; [apply keepsSize_draw | intros; apply IH].
Qed.

Lemma keepsSize_drawBackground (img : Image) (targetWidth targetHeight : Z) :
keepsSize (drawBackground paint img targetWidth targetHeight).
Proof.
unfold drawBackground, setFillStyle, fillRect, drawImage.
cbv zeta. keeps_size; apply keepsSize_draw.
Qed.

Lemma keepsSize_addGradientOverlay (themeColor : jsstring) (targetWidth targetHeight : Z) :
keepsSize (addGradientOverlay paint themeColor targetWidth targetHeight).
Proof.
unfold addGradientOverlay. apply keepsSize_bind; [apply keepsSize_parseTheme|].
intros [[r g] b]. unfold setFillStyle, fillRect.
keeps_size; apply keepsSize_draw.
Qed.

Lemma keepsSize_addText (gameName providerName : jsstring) (targetWidth targetHeight : Z) :
keepsSize (addText textWidth paint gameName providerName targetWidth targetHeight).
Proof.
unfold addText, setTextAlign, setShadowColor, setShadowBlur, setShadowOffsetX,
  setShadowOffsetY, setFont, setFillStyle, fillText.
cbv zeta. keeps_size; try apply keepsSize_draw; apply keepsSize_fillLines.
Qed.

(** With fewer than five rows the band to sample is empty and the run
  stops with the error of [getImageData]. *)
Lemma compositeFinalImage_empty_band (img : Image) (gameName providerName : jsstring)
  (targetWidth targetHeight : Z) :
0 <= targetHeight < 5 ->
compositeFinalImage textWidth paint allocates img gameName providerName
  targetWidth targetHeight = inl IndexSizeError.
Proof.
intros Hh. unfold compositeFinalImage, compose.
destruct (drawBackground_run paint img targetWidth targetHeight
            (createCanvas targetWidth targetHeight) eq_refl) as (c1 & Hbg & _).
rewrite (bind_inr _ _ _ _ _ Hbg).
unfold bind at 1. now rewrite getDominantColor_empty_band.
Qed.

(** C8, amended.  The canvas is created with the target width and
  height and none of the stages changes them.  For a target at least one
  pixel wide and five pixels high, of a size for which the browser
  allocates a bitmap, the pipeline produces an image, and the image has
  exactly the target width and height; beyond that size [toDataURL]
  returns ["data:,"], which holds no image; for a target less than five
  pixels high the run stops with an exception. *)
Theorem output_has_target_size (img : Image) (gameName providerName : jsstring)
  (targetWidth targetHeight : Z) :
1 <= targetWidth -> 5 <= targetHeight ->
(forall h, 1 <= h < 5 ->
   compositeFinalImage textWidth paint allocates img gameName providerName
     targetWidth h = inl IndexSizeError) /\
canvasWidth (createCanvas targetWidth targetHeight) = targetWidth /\
canvasHeight (createCanvas targetWidth targetHeight) = targetHeight /\
keepsSize (drawBackground paint img targetWidth targetHeight) /\
keepsSize (getDominantColor targetWidth targetHeight) /\
(forall themeColor,
   keepsSize (addGradientOverlay paint themeColor targetWidth targetHeight)) /\
keepsSize (addText textWidth paint gameName providerName targetWidth targetHeight) /\
(allocates targetWidth targetHeight = true ->
 exists out : EncodedImage,
   compositeFinalImage textWidth paint allocates img gameName providerName
     targetWidth targetHeight = inr (Some out) /\
   pngWidth out = targetWidth /\ pngHeight out = targetHeight) /\
(allocates targetWidth targetHeight = false ->
 compositeFinalImage textWidth paint allocates img gameName providerName
   targetWidth targetHeight = inr None).
Proof.
intros Hw Hh.
split; [intros h Hlow; apply compositeFinalImage_empty_band; lia|].
split; [reflexivity|]. split; [reflexivity|].
split; [apply keepsSize_drawBackground|].
split; [apply keepsSize_getDominantColor|].
split; [intros; apply keepsSize_addGradientOverlay|].
split; [apply keepsSize_addText|].
destruct (compose_run textWidth paint img gameName providerName targetWidth targetHeight
            Hw Hh)
  as (r & g & b & c1 & c' & _ & _ & _ & _ & _ & Hrun & Hcw & Hch & _).
unfold compositeFinalImage, toDataURL. rewrite Hrun, Hcw, Hch.
destruct (Z.ltb_spec 0 targetWidth) as [_|]; [|lia].
destruct (Z.ltb_spec 0 targetHeight) as [_|]; [|lia].
cbn [andb]. split; intros Hal; rewrite Hal.
- eexists. split; [reflexivity|]. now split.
- reflexivity.
Qed.

End CanvasSize.

Lemma output_has_target_size_witness :
  (exists out : EncodedImage,
     compositeFinalImage monoWidth paintRed sizeLimit landscape (lit "super gold quest")
       (lit "Acme Games") 20 40 = inr (Some out) /\
     pngWidth out = 20 /\ pngHeight out = 40) /\
  compositeFinalImage monoWidth paintRed sizeLimit landscape (lit "super gold quest")
    (lit "Acme Games") 70000 5 = inr None.
Proof.
  split.
  - apply (output_has_target_size monoWidth paintRed sizeLimit landscape
             (lit "super gold quest") (lit "Acme Games") 20 40); [lia | lia | reflexivity].
  - apply (output_has_target_size monoWidth paintRed sizeLimit landscape
             (lit "super gold quest") (lit "Acme Games") 70000 5); [lia | lia | reflexivity].
Defined.

(** C8, as stated, fails for a target less than five pixels high: the
    sampled band has no row, reading it raises [IndexSizeError] and no
    image is produced. *)
Lemma no_output_below_five_rows :
  compositeFinalImage monoWidth paintRed sizeLimit landscape (lit "super gold quest")
    (lit "Acme Games") 20 4 = inl IndexSizeError.
Proof. vm_compute. reflexivity. Qed.

(** * Further properties of the code *)

(** ** getDominantColor: which pixels it reads and what it can return *)

Lemma flat_map_block_length {A B} (f : A -> list B) (b : nat) (xs : list A) :
  (forall x, List.length (f x) = b) ->
  List.length (flat_map f xs) = (List.length xs * b)%nat.
Proof.
  intros Hf. induction xs as [|x xs IH]; [reflexivity|].
  cbn [flat_map List.length]. rewrite length_app, Hf, IH. lia.
Qed.

(** In a list made of blocks of equal length, element [r] of block [n]. *)
Lemma nth_flat_map_block {B} (f : nat -> list B) (b : nat) (d : B) :
  (forall k, List.length (f k) = b) ->
  forall (m s n r : nat),
    (n < m)%nat -> (r < b)%nat ->
    nth (n * b + r) (flat_map f (seq s m)) d = nth r (f (s + n)%nat) d.
Proof.
  intros Hf. induction m as [|m IH]; intros s n r Hn Hr; [lia|].
  cbn [seq flat_map]. destruct n as [|n].
  - rewrite app_nth1 by (rewrite Hf; lia). now rewrite Nat.add_0_r.
  - rewrite app_nth2 by (rewrite Hf; lia). rewrite Hf.
    replace (S n * b + r - b)%nat with (n * b + r)%nat by lia.
    rewrite IH by lia. f_equal. f_equal. lia.
Qed.

Lemma rowData_length (bm : Bitmap) (sx sw y : Z) :
  List.length (rowData bm sx sw y) = (Z.to_nat sw * 4)%nat.
Proof.
  unfold rowData. rewrite (flat_map_block_length _ 4%nat) by reflexivity.
  now rewrite length_seq.
Qed.

Lemma rectData_length (bm : Bitmap) (sx sy sw sh : Z) :
  List.length (rectData bm sx sy sw sh) = (Z.to_nat sh * (Z.to_nat sw * 4))%nat.
Proof.
  unfold rectData.
  rewrite (flat_map_block_length _ (Z.to_nat sw * 4)%nat)
    by (intros; apply rowData_length).
  now rewrite length_seq.
Qed.

(** [ImageData] layout: byte [c] of the pixel in column [x], row [y] of
    the rectangle is at offset [4 * (y * sw + x) + c]. *)
Lemma nth_rectData (bm : Bitmap) (sx sy sw sh : Z) (x y c : nat) :
  (x < Z.to_nat sw)%nat -> (y < Z.to_nat sh)%nat -> (c < 4)%nat ->
  nth ((y * Z.to_nat sw + x) * 4 + c) (rectData bm sx sy sw sh) x00
    = nth c (pixelBytes (bm (sx + Z.of_nat x) (sy + Z.of_nat y))) x00.
Proof.
  intros Hx Hy Hc. unfold rectData.
  replace ((y * Z.to_nat sw + x) * 4 + c)%nat
    with (y * (Z.to_nat sw * 4) + (x * 4 + c))%nat by lia.
  rewrite (nth_flat_map_block _ (Z.to_nat sw * 4)%nat)
    by (try (intros; apply rowData_length); lia).
  cbn [Nat.add]. unfold rowData.
  rewrite (nth_flat_map_block _ 4%nat) by (try reflexivity; lia).
  reflexivity.
Qed.

Lemma at_rectData (bm : Bitmap) (sx sy sw sh i c : Z) :
  0 < sw -> 0 <= i < sw * sh -> 0 <= c < 4 ->
  at_ (rectData bm sx sy sw sh) (i * 4 + c)
    = channel (nth (Z.to_nat c) (pixelBytes (bm (sx + i mod sw) (sy + i / sw))) x00).
Proof.
  intros Hsw Hi Hc. unfold at_. f_equal.
  pose proof (Z.div_mod i sw ltac:(lia)) as Hdm.
  pose proof (Z.mod_pos_bound i sw Hsw) as Hm.
  assert (Hq : 0 <= i / sw < sh).
  { split; [apply Z.div_pos; lia|]. apply Z.div_lt_upper_bound; lia. }
  replace (Z.to_nat (i * 4 + c))
    with ((Z.to_nat (i / sw) * Z.to_nat sw + Z.to_nat (i mod sw)) * 4 + Z.to_nat c)%nat.
  - rewrite nth_rectData by lia. now rewrite !Z2Nat.id by lia.
  - rewrite <- Z2Nat.inj_mul, <- Z2Nat.inj_add by nia.
    change 4%nat with (Z.to_nat 4).
    rewrite <- Z2Nat.inj_mul, <- Z2Nat.inj_add by nia.
    f_equal. nia.
Qed.

Lemma channel_le_255 (b : byte) : channel b <= 255.
Proof. unfold channel. pose proof (Byte.to_N_bounded b). lia. Qed.

Lemma channelSum_le (data : list byte) (c : Z) (k : nat) :
  channelSum data c k <= 255 * Z.of_nat k.
Proof.
  induction k as [|k IH]; cbn [channelSum]; [lia|].
  pose proof (channel_le_255 (nth (Z.to_nat (Z.of_nat k * 40 + c)) data x00)) as H.
  unfold at_. lia.
Qed.

Lemma floor_div_le (s count bound : Z) :
  0 < count -> s <= bound * count ->
  floor (inject_Z s / (inject_Z count / 10)) <= 10 * bound.
Proof.
  intros Hc Hs. unfold floor.
  rewrite <- (Qfloor_Z (10 * bound)). apply Qfloor_resp_le.
  apply Qle_shift_div_r.
  - apply Qlt_shift_div_l; [reflexivity|]. rewrite Qmult_0_l.
    now apply inject_Z_pos.
  - assert (E : (inject_Z (10 * bound) * (inject_Z count / 10)
                 == inject_Z (bound * count))%Q).
    { rewrite !inject_Z_mult. field. }
    rewrite E. now rewrite <- Zle_Qle.
Qed.

(** The band a successful call reads has [width * sampleHeight] pixels. *)
Lemma band_count (c : Context2D) (width height : Z) :
  1 <= width -> 5 <= height ->
  Z.of_nat (List.length (rectData (canvasPixel c) 0 (height - sampleHeightOf height)
                           width (sampleHeightOf height))) / 4
    = width * sampleHeightOf height.
Proof.
  intros Hw Hh. pose proof (sampleHeight_pos height Hh) as Hs.
  fold (sampleHeightOf height) in Hs.
  rewrite rectData_length.
  replace (Z.of_nat (Z.to_nat (sampleHeightOf height) * (Z.to_nat width * 4)))
    with (width * sampleHeightOf height * 4) by nia.
  apply Z.div_mul. lia.
Qed.

Lemma getDominantColor_value (c : Context2D) (width height : Z) :
  1 <= width -> 5 <= height ->
  let data := rectData (canvasPixel c) 0 (height - sampleHeightOf height)
                width (sampleHeightOf height) in
  let count := width * sampleHeightOf height in
  let K := Z.to_nat (visited count) in
  let actualCount := (inject_Z count / 10)%Q in
  getDominantColor width height c =
    inr (rgbString (floor (inject_Z (channelSum data 0 K) / actualCount))
                   (floor (inject_Z (channelSum data 1 K) / actualCount))
                   (floor (inject_Z (channelSum data 2 K) / actualCount)), c).
Proof.
  intros Hw Hh data count K actualCount.
  pose proof (sampleHeight_pos height Hh) as Hs. fold (sampleHeightOf height) in Hs.
  unfold getDominantColor, getImageData, bind. fold (sampleHeightOf height).
  destruct (Z.eqb_spec width 0) as [|_]; [lia|].
  destruct (Z.eqb_spec (sampleHeightOf height) 0) as [|_]; [lia|].
  cbn [orb]. rewrite averageOf_sums. cbv zeta.
  rewrite (band_count c width height Hw Hh).
  unfold ret. reflexivity.
Qed.

(** The sums over the image data are sums over pixels of the band. *)
Lemma channelSum_band (c : Context2D) (width height : Z) (ch : Z) (k : nat) :
  1 <= width -> 5 <= height -> 0 <= ch < 4 ->
  Z.of_nat k <= visited (width * sampleHeightOf height) ->
  channelSum (rectData (canvasPixel c) 0 (height - sampleHeightOf height)
                width (sampleHeightOf height)) ch k
    = sampledSum (fun p => nth (Z.to_nat ch) (pixelBytes p) x00)
                 (bandPixel c width height) k.
Proof.
  intros Hw Hh Hch. pose proof (sampleHeight_pos height Hh) as Hs.
  fold (sampleHeightOf height) in Hs.
  pose proof (visited_bounds (width * sampleHeightOf height)) as Hv.
  induction k as [|k IH]; intros Hk; [reflexivity|].
  cbn [channelSum sampledSum]. rewrite IH by lia. f_equal.
  replace (Z.of_nat k * 40 + ch) with (Z.of_nat k * 10 * 4 + ch) by lia.
  rewrite at_rectData by lia. unfold bandPixel. now rewrite Z.add_0_l.
Qed.

Lemma getDominantColor_sampled (c : Context2D) (width height : Z) :
  1 <= width -> 5 <= height ->
  let count := width * sampleHeightOf height in
  let K := Z.to_nat (visited count) in
  let px := bandPixel c width height in
  let actualCount := (inject_Z count / 10)%Q in
  getDominantColor width height c =
    inr (rgbString (floor (inject_Z (sampledSum red px K) / actualCount))
                   (floor (inject_Z (sampledSum green px K) / actualCount))
                   (floor (inject_Z (sampledSum blue px K) / actualCount)), c).
Proof.
  intros Hw Hh count K px actualCount.
  rewrite (getDominantColor_value c width height Hw Hh). cbv zeta.
  fold count. fold K. fold actualCount.
  pose proof (sampleHeight_pos height Hh) as Hs. fold (sampleHeightOf height) in Hs.
  assert (Hc : 0 < count) by (unfold count; nia).
  assert (HK : Z.of_nat K <= visited count).
  { unfold K. pose proof (visited_bounds count). lia. }
  rewrite !(channelSum_band c width height) by (assumption || lia).
  reflexivity.
Qed.

(** The same for the sampler in double precision. *)
Lemma averageOf64_sums (data : list byte) :
  let count := Z.of_nat (List.length data) / 4 in
  let K := Z.to_nat (visited count) in
  let actualCount := fdiv (inject_Z count) 10 in
  averageOf64 data =
    Some (floor (fdiv (inject_Z (channelSum data 0 K)) actualCount),
          floor (fdiv (inject_Z (channelSum data 1 K)) actualCount),
          floor (fdiv (inject_Z (channelSum data 2 K)) actualCount)).
Proof.
  intros count K actualCount. unfold averageOf64. fold count.
  assert (Hc : 0 <= count) by (apply Z.div_pos; lia).
  pose proof (visited_bounds count) as Hv.
  pose proof (sampleLoop_sum (Z.to_nat count) data count 0 0 0 0) as H.
  cbn [Z.of_nat channelSum] in H. change (0 * 10) with 0 in H.
  rewrite H by lia. fold K. fold actualCount.
  now rewrite !Z.sub_0_r, !Z.add_0_l.
Qed.

Lemma getDominantColor64_sampled (c : Context2D) (width height : Z) :
  1 <= width -> 5 <= height ->
  let count := width * sampleHeightOf height in
  let K := Z.to_nat (visited count) in
  let px := bandPixel c width height in
  let actualCount := fdiv (inject_Z count) 10 in
  getDominantColor64 width height c =
    inr (rgbString (floor (fdiv (inject_Z (sampledSum red px K)) actualCount))
                   (floor (fdiv (inject_Z (sampledSum green px K)) actualCount))
                   (floor (fdiv (inject_Z (sampledSum blue px K)) actualCount)), c).
Proof.
  intros Hw Hh count K px actualCount.
  pose proof (sampleHeight_pos height Hh) as Hs. fold (sampleHeightOf height) in Hs.
  assert (Hc : 0 < count) by (unfold count; nia).
  assert (HK : Z.of_nat K <= visited count).
  { unfold K. pose proof (visited_bounds count). lia. }
  unfold getDominantColor64, getImageData, bind. fold (sampleHeightOf height).
  destruct (Z.eqb_spec width 0) as [|_]; [lia|].
  destruct (Z.eqb_spec (sampleHeightOf height) 0) as [|_]; [lia|].
  cbn [orb]. rewrite averageOf64_sums. cbv zeta.
  rewrite (band_count c width height Hw Hh). fold count. fold K. fold actualCount.
  rewrite !(channelSum_band c width height) by (assumption || lia).
  unfold ret. reflexivity.
Qed.

(** X1.  On a canvas at least one pixel wide and five high,
    [getDominantColor], with its quotients in double precision, sums the
    red, green and blue bytes of the band pixels number 0, 10, 20, ... in
    row-major order of the band, divides each sum by a tenth of the number
    of band pixels and floors; it returns the context as it was. *)
Theorem sampler_reads_every_tenth_band_pixel (c : Context2D) (width height : Z) :
  1 <= width -> 5 <= height ->
  let count := width * sampleHeightOf height in
  let K := Z.to_nat (visited count) in
  let px := bandPixel c width height in
  let actualCount := fdiv (inject_Z count) 10 in
  getDominantColor64 width height c =
    inr (rgbString (floor (fdiv (inject_Z (sampledSum red px K)) actualCount))
                   (floor (fdiv (inject_Z (sampledSum green px K)) actualCount))
                   (floor (fdiv (inject_Z (sampledSum blue px K)) actualCount)), c).
Proof. exact (getDominantColor64_sampled c width height). Qed.

Lemma sampler_reads_every_tenth_band_pixel_witness :
  getDominantColor64 11 5 (stripeCanvas 11 5)
    = inr (rgbString 29 49 59, stripeCanvas 11 5).
Proof.
  rewrite (sampler_reads_every_tenth_band_pixel (stripeCanvas 11 5) 11 5) by lia.
  vm_compute. reflexivity.
Defined.

(** X2.  Every channel [getDominantColor] returns is an integer between 0
    and 2550. *)
Theorem sampler_channels_within_2550 (c : Context2D) (width height : Z) :
  1 <= width -> 5 <= height ->
  exists r g b,
    getDominantColor width height c = inr (rgbString r g b, c) /\
    0 <= r <= 2550 /\ 0 <= g <= 2550 /\ 0 <= b <= 2550.
Proof.
  intros Hw Hh. pose proof (sampleHeight_pos height Hh) as Hs.
  fold (sampleHeightOf height) in Hs.
  rewrite (getDominantColor_value c width height Hw Hh). cbv zeta.
  set (count := width * sampleHeightOf height).
  set (data := rectData _ _ _ _ _).
  assert (Hc : 0 < count) by (unfold count; nia).
  pose proof (visited_bounds count) as Hv.
  assert (Hd : (0 <= inject_Z count / 10)%Q).
  { apply Qle_shift_div_l; [reflexivity|]. rewrite Qmult_0_l.
    apply Qlt_le_weak. now apply inject_Z_pos. }
  assert (Hsum : forall ch, channelSum data ch (Z.to_nat (visited count)) <= 255 * count).
  { intros ch. pose proof (channelSum_le data ch (Z.to_nat (visited count))). nia. }
  do 3 eexists. split; [reflexivity|].
  repeat split;
    (apply floor_div_nonneg; [apply channelSum_nonneg | exact Hd])
    || (apply (floor_div_le _ count 255); [exact Hc | apply Hsum]).
Qed.

Lemma sampler_channels_within_2550_witness :
  exists r g b,
    getDominantColor 3 7 (redCanvas 3 7) = inr (rgbString r g b, redCanvas 3 7) /\
    0 <= r <= 2550 /\ 0 <= g <= 2550 /\ 0 <= b <= 2550.
Proof. apply (sampler_channels_within_2550 (redCanvas 3 7) 3 7); lia. Defined.

Lemma floor_exact_div (s k : Z) :
  0 < k -> floor (inject_Z s / inject_Z k) = s / k.
Proof. intros _. unfold floor. symmetry. apply Zdiv_Qdiv. Qed.

Lemma tenth_of_count (count : Z) :
  count mod 10 = 0 -> (inject_Z count / 10 == inject_Z (visited count))%Q.
Proof.
  intros Hmod. pose proof (Z.div_mod count 10 ltac:(lia)) as Hdm.
  pose proof (visited_bounds count) as Hv.
  assert (count = 10 * visited count) as Hc by lia.
  rewrite Hc at 1. rewrite inject_Z_mult. field.
Qed.

Lemma sampledSum_bounds (f : Pixel -> byte) (px : Z -> Pixel) (k : nat) :
  0 <= sampledSum f px k <= 255 * Z.of_nat k.
Proof.
  induction k as [|k IH]; cbn [sampledSum]; [lia|].
  pose proof (channel_nonneg (f (px (Z.of_nat k * 10)))).
  pose proof (channel_le_255 (f (px (Z.of_nat k * 10)))). lia.
Qed.

Lemma getDominantColor_exact (c : Context2D) (width height : Z) :
  1 <= width -> 5 <= height ->
  (width * sampleHeightOf height) mod 10 = 0 ->
  let K := visited (width * sampleHeightOf height) in
  let px := bandPixel c width height in
  let r := sampledSum red px (Z.to_nat K) / K in
  let g := sampledSum green px (Z.to_nat K) / K in
  let b := sampledSum blue px (Z.to_nat K) / K in
  getDominantColor width height c = inr (rgbString r g b, c) /\
  0 <= r <= 255 /\ 0 <= g <= 255 /\ 0 <= b <= 255.
Proof.
  intros Hw Hh Hmod K px r g b.
  pose proof (sampleHeight_pos height Hh) as Hs. fold (sampleHeightOf height) in Hs.
  pose proof (visited_bounds (width * sampleHeightOf height)) as Hv. fold K in Hv.
  assert (Hc : 0 < width * sampleHeightOf height) by (apply Z.mul_pos_pos; lia).
  assert (HK : 0 < K) by lia.
  split.
  - rewrite (getDominantColor_sampled c width height Hw Hh). cbv zeta.
    fold K. fold px. unfold floor.
    rewrite !(tenth_of_count _ Hmod). fold K.
    rewrite <- !Zdiv_Qdiv. reflexivity.
  - assert (Hb : forall f, 0 <= sampledSum f px (Z.to_nat K) <= 255 * K).
    { intros f. pose proof (sampledSum_bounds f px (Z.to_nat K)) as Hf.
      rewrite Z2Nat.id in Hf by lia. exact Hf. }
    unfold r, g, b. repeat split;
      (apply Z.div_pos; [apply Hb | exact HK])
      || (apply Z.div_le_upper_bound; [exact HK | rewrite Z.mul_comm; apply Hb]).
Qed.

(** A quotient of integers below [2^53], taken in double precision and
    floored, is the integer quotient: the rounding never crosses an
    integer. *)
Lemma floor_fdiv_exact (s k : Z) :
  0 <= s <= maxSafeInteger -> 0 < k -> floor (fdiv (inject_Z s) (inject_Z k)) = s / k.
Proof.
  intros [Hs0 Hs] Hk. unfold maxSafeInteger in Hs. unfold floor, fdiv.
  pose proof (Z.div_mod s k ltac:(lia)) as Hdm.
  pose proof (Z.mod_pos_bound s k Hk) as Hmod.
  pose proof (Z.div_pos s k Hs0 Hk) as Hn0.
  set (n := s / k) in *. set (t := s mod k) in *.
  pose proof (inject_Z_pos k Hk) as Pk.
  destruct (Z.eq_dec t 0) as [Ht|Ht].
  - assert (E : (inject_Z s / inject_Z k == inject_Z n)%Q).
    { rewrite Hdm, Ht, Z.add_0_r, inject_Z_mult. field. lra. }
    rewrite (round64_comp _ _ E).
    assert (Hn : n <= s) by nia.
    rewrite (Qfloor_comp _ _ (round64_Z n ltac:(lia))). apply Qfloor_Z.
  - assert (Px : (0 <= inject_Z s / inject_Z k)%Q).
    { apply Qle_shift_div_l; [exact Pk|]. rewrite Qmult_0_l.
      change 0%Q with (inject_Z 0). now rewrite <- Zle_Qle. }
    pose proof (round64_bounds _ Px) as [Lo Hi].
    assert (Ex : (inject_Z s / inject_Z k * inject_Z k == inject_Z s)%Q) by (field; lra).
    assert (Es : (inject_Z s == inject_Z k * inject_Z n + inject_Z t)%Q).
    { rewrite <- inject_Z_mult, <- inject_Z_plus, <- Hdm. reflexivity. }
    assert (Ht1 : (1 <= inject_Z t)%Q).
    { change 1%Q with (inject_Z 1). rewrite <- Zle_Qle. lia. }
    assert (Ht2 : (inject_Z t <= inject_Z k - 1)%Q).
    { assert (H : (inject_Z t <= inject_Z (k + -1))%Q) by (rewrite <- Zle_Qle; lia).
      rewrite inject_Z_plus in H. change (inject_Z (-1)) with (-1 # 1)%Q in H. lra. }
    assert (Hse : (inject_Z s * eps64 < 1)%Q).
    { unfold eps64.
      assert (H : (inject_Z s < inject_Z 9007199254740992)%Q) by (rewrite <- Zlt_Qlt; lia).
      change (inject_Z 9007199254740992) with (9007199254740992 # 1)%Q in H.
      assert (E : (inject_Z s * (1 # 9007199254740992)
                   == inject_Z s / (9007199254740992 # 1))%Q) by (field; discriminate).
      rewrite E. apply Qlt_shift_div_r; [reflexivity|]. lra. }
    set (x := (inject_Z s / inject_Z k)%Q) in *. set (y := round64 x) in *.
    set (S := inject_Z s) in *. set (K := inject_Z k) in *.
    set (N := inject_Z n) in *. set (T := inject_Z t) in *.
    assert (Hlo : (N <= y)%Q).
    { eapply Qle_trans; [|exact Lo]. apply (Qmult_le_r _ _ K Pk).
      assert (E : (x * (1 - eps64) * K == x * K - x * K * eps64)%Q) by ring.
      rewrite E, Ex. clearbody x y S K N T. lra. }
    assert (Hhi : (y < N + 1)%Q).
    { eapply Qle_lt_trans; [exact Hi|]. apply (Qmult_lt_r _ _ K Pk).
      assert (E : (x * (1 + eps64) * K == x * K + x * K * eps64)%Q) by ring.
      rewrite E, Ex. clearbody x y S K N T. lra. }
    clearbody y. 
    assert (H1 : n <= Qfloor y).
    { rewrite <- (Qfloor_Z n). apply Qfloor_resp_le. exact Hlo. }
    assert (H2 : Qfloor y < n + 1).
    { rewrite Zlt_Qlt. eapply Qle_lt_trans; [apply Qfloor_le|].
      rewrite inject_Z_plus. exact Hhi. }
    lia.
Qed.

(** X27.  Where the band holds a multiple of ten pixels, at most
    [maxSafeInteger / 255] of them, rounding changes nothing: the sampler
    with its quotients in double precision returns the colour that exact
    arithmetic gives, so what is proved of [getDominantColor] there holds
    of the quotients as the code takes them. *)
Theorem rounding_is_harmless_for_multiples_of_ten (c : Context2D) (width height : Z) :
  1 <= width -> 5 <= height ->
  (width * sampleHeightOf height) mod 10 = 0 ->
  255 * (width * sampleHeightOf height) <= maxSafeInteger ->
  getDominantColor64 width height c = getDominantColor width height c.
Proof.
  intros Hw Hh Hmod Hmax.
  pose proof (sampleHeight_pos height Hh) as Hs. fold (sampleHeightOf height) in Hs.
  set (count := width * sampleHeightOf height) in *.
  pose proof (visited_bounds count) as Hv.
  assert (Hc : 0 < count) by (unfold count; apply Z.mul_pos_pos; lia).
  assert (HK : 0 < visited count) by lia.
  destruct (getDominantColor_exact c width height Hw Hh Hmod) as [Hex _].
  rewrite Hex, (getDominantColor64_sampled c width height Hw Hh). cbv zeta.
  fold count.
  assert (Eac : fdiv (inject_Z count) 10 = round64 (inject_Z (visited count))).
  { unfold fdiv. apply round64_comp. now apply tenth_of_count. }
  assert (HKmax : Z.abs (visited count) < 2 ^ 53) by (unfold maxSafeInteger in Hmax; lia).
  assert (Hq : forall f,
             floor (fdiv (inject_Z (sampledSum f (bandPixel c width height)
                                      (Z.to_nat (visited count))))
                         (fdiv (inject_Z count) 10))
             = sampledSum f (bandPixel c width height) (Z.to_nat (visited count))
               / visited count).
  { intros f.
    pose proof (sampledSum_bounds f (bandPixel c width height) (Z.to_nat (visited count)))
      as Hb.
    rewrite Eac.
    assert (E : fdiv (inject_Z (sampledSum f (bandPixel c width height)
                                  (Z.to_nat (visited count))))
                     (round64 (inject_Z (visited count)))
                = fdiv (inject_Z (sampledSum f (bandPixel c width height)
                                    (Z.to_nat (visited count))))
                       (inject_Z (visited count))).
    { unfold fdiv. apply round64_comp. now rewrite (round64_Z _ HKmax). }
    rewrite E. apply floor_fdiv_exact; [|exact HK].
    unfold maxSafeInteger in *. lia. }
  now rewrite !Hq.
Qed.

Lemma rounding_is_harmless_for_multiples_of_ten_witness :
  getDominantColor64 10 5 (stripeCanvas 10 5) = getDominantColor 10 5 (stripeCanvas 10 5).
Proof.
  apply (rounding_is_harmless_for_multiples_of_ten (stripeCanvas 10 5) 10 5).
  - lia.
  - lia.
  - reflexivity.
  - vm_compute. discriminate.
Defined.

(** X3.  When the band holds a multiple of ten pixels, each channel is
    the integer quotient of the channel sum by the number of pixels
    visited, and lies between 0 and 255. *)
Theorem sampler_exact_when_count_is_multiple_of_ten (c : Context2D) (width height : Z) :
  1 <= width -> 5 <= height ->
  (width * sampleHeightOf height) mod 10 = 0 ->
  let K := visited (width * sampleHeightOf height) in
  let px := bandPixel c width height in
  let r := sampledSum red px (Z.to_nat K) / K in
  let g := sampledSum green px (Z.to_nat K) / K in
  let b := sampledSum blue px (Z.to_nat K) / K in
  getDominantColor width height c = inr (rgbString r g b, c) /\
  0 <= r <= 255 /\ 0 <= g <= 255 /\ 0 <= b <= 255.
Proof. exact (getDominantColor_exact c width height). Qed.

Lemma sampler_exact_when_count_is_multiple_of_ten_witness :
  getDominantColor 10 10 (redCanvas 10 10) = inr (rgbString 255 0 0, redCanvas 10 10).
Proof.
  destruct (sampler_exact_when_count_is_multiple_of_ten (redCanvas 10 10) 10 10)
    as [H _]; [lia | lia | reflexivity |].
  rewrite H. vm_compute. reflexivity.
Defined.

Lemma sampledSum_const (f : Pixel -> byte) (px : Z -> Pixel) (v : Z) (k : nat) :
  (forall j, (j < k)%nat -> channel (f (px (Z.of_nat j * 10))) = v) ->
  sampledSum f px k = Z.of_nat k * v.
Proof.
  induction k as [|k IH]; intros H; cbn [sampledSum]; [lia|].
  rewrite IH by (intros; apply H; lia). rewrite H by lia. lia.
Qed.

Lemma bandPixel_inside (c : Context2D) (i : Z) :
  1 <= canvasWidth c -> 5 <= canvasHeight c ->
  0 <= i < canvasWidth c * sampleHeightOf (canvasHeight c) ->
  let x := i mod canvasWidth c in
  let y := canvasHeight c - sampleHeightOf (canvasHeight c) + i / canvasWidth c in
  0 <= x < canvasWidth c /\
  canvasHeight c - sampleHeightOf (canvasHeight c) <= y < canvasHeight c /\ 0 <= y /\
  bandPixel c (canvasWidth c) (canvasHeight c) i = bitmap c x y.
Proof.
  intros Hw Hh Hi x y.
  pose proof (Z.mod_pos_bound i (canvasWidth c) ltac:(lia)) as Hm.
  assert (Hq : 0 <= i / canvasWidth c < sampleHeightOf (canvasHeight c)).
  { split; [apply Z.div_pos; lia|]. apply Z.div_lt_upper_bound; lia. }
  assert (Hsh : sampleHeightOf (canvasHeight c) <= canvasHeight c).
  { unfold sampleHeightOf. rewrite floor_scale.
    apply Z.div_le_upper_bound; lia. }
  fold x in Hm. unfold y.
  repeat split; try lia.
  unfold bandPixel, canvasPixel. fold x.
  destruct (Z.leb_spec 0 x); [|lia]. destruct (Z.ltb_spec x (canvasWidth c)); [|lia].
  destruct (Z.leb_spec 0 (canvasHeight c - sampleHeightOf (canvasHeight c)
                          + i / canvasWidth c)); [|lia].
  destruct (Z.ltb_spec (canvasHeight c - sampleHeightOf (canvasHeight c)
                        + i / canvasWidth c) (canvasHeight c)); [|lia].
  reflexivity.
Qed.

(** X4.  If every pixel of the bottom band of the canvas has the same
    colour and the band holds a multiple of ten pixels, the sampler
    returns exactly that colour. *)
Theorem sampler_of_uniform_band (c : Context2D) (p : Pixel) :
  let width := canvasWidth c in
  let height := canvasHeight c in
  1 <= width -> 5 <= height ->
  (width * sampleHeightOf height) mod 10 = 0 ->
  (forall x y, 0 <= x < width -> height - sampleHeightOf height <= y < height ->
     bitmap c x y = p) ->
  getDominantColor width height c =
    inr (rgbString (channel (red p)) (channel (green p)) (channel (blue p)), c).
Proof.
  intros width height Hw Hh Hmod Huni.
  destruct (getDominantColor_exact c width height Hw Hh Hmod)
    as [Hrun _].
  rewrite Hrun. cbv zeta.
  pose proof (sampleHeight_pos height Hh) as Hs. fold (sampleHeightOf height) in Hs.
  pose proof (visited_bounds (width * sampleHeightOf height)) as Hv.
  assert (Hc : 0 < width * sampleHeightOf height) by (apply Z.mul_pos_pos; lia).
  set (K := visited (width * sampleHeightOf height)) in *.
  assert (HK : 0 < K) by lia.
  assert (Hpx : forall j, (j < Z.to_nat K)%nat ->
                  bandPixel c width height (Z.of_nat j * 10) = p).
  { intros j Hj.
    destruct (bandPixel_inside c (Z.of_nat j * 10) Hw Hh) as (Hx & Hy & _ & Hbp);
      [fold width height; lia|].
    fold width height in Hbp, Hx, Hy. rewrite Hbp. apply Huni; assumption. }
  rewrite !(sampledSum_const _ _ _ _
              (fun j Hj => f_equal (fun q => channel (_ q)) (Hpx j Hj))).
  rewrite !Z2Nat.id by lia. rewrite !(Z.mul_comm K), !Z.div_mul by lia.
  reflexivity.
Qed.

Lemma sampler_of_uniform_band_witness :
  getDominantColor 10 10 (redCanvas 10 10) = inr (rgbString 255 0 0, redCanvas 10 10).
Proof.
  apply (sampler_of_uniform_band (redCanvas 10 10) (mkPixel xff x00 x00 xff));
    [cbn; lia | cbn; lia | reflexivity | reflexivity].
Defined.

Lemma sampledSum_ext (f : Pixel -> byte) (px1 px2 : Z -> Pixel) (k : nat) :
  (forall j, (j < k)%nat -> f (px1 (Z.of_nat j * 10)) = f (px2 (Z.of_nat j * 10))) ->
  sampledSum f px1 k = sampledSum f px2 k.
Proof.
  induction k as [|k IH]; intros H; cbn [sampledSum]; [reflexivity|].
  rewrite IH by (intros; apply H; lia). rewrite H by lia. reflexivity.
Qed.

(** X5.  The sampler looks at nothing but the red, green and blue bytes
    of the band pixels it visits: two canvases that agree on those get the
    same theme colour, whatever their other pixels, their alpha bytes and
    the rows above the band are. *)
Theorem sampler_ignores_everything_else (c1 c2 : Context2D) (width height : Z) :
  1 <= width -> 5 <= height ->
  (forall j : nat,
     Z.of_nat j < visited (width * sampleHeightOf height) ->
     let p1 := bandPixel c1 width height (Z.of_nat j * 10) in
     let p2 := bandPixel c2 width height (Z.of_nat j * 10) in
     red p1 = red p2 /\ green p1 = green p2 /\ blue p1 = blue p2) ->
  exists themeColor,
    getDominantColor width height c1 = inr (themeColor, c1) /\
    getDominantColor width height c2 = inr (themeColor, c2).
Proof.
  intros Hw Hh Hagree.
  rewrite (getDominantColor_sampled c1 width height Hw Hh).
  rewrite (getDominantColor_sampled c2 width height Hw Hh).
  cbv zeta. eexists. split; [reflexivity|].
  pose proof (visited_bounds (width * sampleHeightOf height)) as Hv.
  rewrite (sampledSum_ext red (bandPixel c2 width height) (bandPixel c1 width height)),
          (sampledSum_ext green (bandPixel c2 width height) (bandPixel c1 width height)),
          (sampledSum_ext blue (bandPixel c2 width height) (bandPixel c1 width height));
    [reflexivity | | | ];
    intros j Hj; destruct (Hagree j ltac:(lia)) as (Hr & Hg & Hb); congruence.
Qed.

Lemma sampler_ignores_everything_else_witness :
  exists themeColor,
    getDominantColor 3 7 (redCanvas 3 7) = inr (themeColor, redCanvas 3 7) /\
    getDominantColor 3 7
      (mkContext 3 7 (fun x y => if y <? 6 then transparentBlack
                                 else mkPixel xff x00 x00 x00) defaultAttrs [])
      = inr (themeColor, mkContext 3 7 (fun x y => if y <? 6 then transparentBlack
                                                  else mkPixel xff x00 x00 x00)
                           defaultAttrs []).
Proof.
  apply (sampler_ignores_everything_else); [lia | lia |].
  intros j Hj. assert (Hv : visited (3 * sampleHeightOf 7) = 1) by reflexivity.
  rewrite Hv in Hj. assert (j = 0%nat) as -> by lia.
  vm_compute. repeat split.
Defined.

(** X6.  The theme colour survives the trip through its string: the
    string built from three non-negative integers holds exactly three runs
    of digits, and they are read back as the same three integers. *)
Theorem theme_string_round_trip (r g b : Z) (c : Context2D) :
  0 <= r -> 0 <= g -> 0 <= b ->
  matchDigits (rgbString r g b)
    = Some [numberToString r; numberToString g; numberToString b] /\
  parseTheme (rgbString r g b) c = inr ((r, g, b), c).
Proof.
  intros Hr Hg Hb. split.
  - unfold matchDigits. now rewrite digitRuns_rgbString.
  - now apply parseTheme_rgbString.
Qed.

Lemma theme_string_round_trip_witness :
  parseTheme (rgbString 2550 0 17) (redCanvas 1 5) = inr ((2550, 0, 17), redCanvas 1 5).
Proof. apply (theme_string_round_trip 2550 0 17 (redCanvas 1 5)); lia. Defined.

(** ** The cover fit keeps the proportions of the image *)

Lemma fmul_fdiv_bounds (s1 s2 t2 : Q) :
  (0 < s1 -> 0 < s2 -> 0 < t2 ->
   let D := fmul s1 (fdiv t2 s2) in
   s1 * t2 * ((1 - eps64) * (1 - eps64)) <= D * s2 /\
   D * s2 <= s1 * t2 * ((1 + eps64) * (1 + eps64)))%Q.
Proof.
  intros H1 H2 H4 D. unfold D, fmul, fdiv. clear D.
  pose proof (Qdiv_pos t2 s2 H4 H2) as Pq.
  pose proof (round64_bounds (t2 / s2) (Qlt_le_weak _ _ Pq)) as [Lr Ur].
  assert (Eq : (t2 / s2 * s2 == t2)%Q) by (field; lra).
  destruct eps64_small as [He0 He1].
  set (e := eps64) in *. set (q := (t2 / s2)%Q) in *.
  set (r := round64 q) in *.
  assert (Pr0 : (0 <= r)%Q).
  { eapply Qle_trans; [|exact Lr]. apply Qmult_le_0_compat; lra. }
  assert (Pr : (0 <= s1 * r)%Q) by (apply Qmult_le_0_compat; lra).
  pose proof (round64_bounds (s1 * r) Pr) as [Ld Ud]. fold e in Ld, Ud.
  set (D := round64 (s1 * r)) in *. clearbody e q r D.
  rewrite <- Eq.
  assert (Pm : (0 <= s1 * (1 - e) * s2)%Q)
    by (repeat apply Qmult_le_0_compat; lra).
  assert (Pp : (0 <= s1 * (1 + e) * s2)%Q)
    by (repeat apply Qmult_le_0_compat; lra).
  pose proof (Qmult_le_compat_r _ _ _ Lr Pm) as M1.
  pose proof (Qmult_le_compat_r _ _ _ Ur Pp) as M2.
  assert (Ps2 : (0 <= s2)%Q) by lra.
  pose proof (Qmult_le_compat_r _ _ _ Ld Ps2) as M3.
  pose proof (Qmult_le_compat_r _ _ _ Ud Ps2) as M4.
  split; lra.
Qed.

(** X7.  The rectangle the image is drawn into has the aspect ratio of the
    image up to two roundings: of the products [drawWidth * srcH] and
    [drawHeight * srcW] neither is below [(1 - 2^-53)^2] times the other.
    An image of the very size of the canvas is drawn exactly onto the
    canvas. *)
Theorem coverFit_keeps_aspect_ratio (srcW srcH canvasW canvasH : Z) :
  0 < srcW -> 0 < srcH -> 0 < canvasW -> 0 < canvasH ->
  let p := coverFit srcW srcH canvasW canvasH in
  let k := ((1 - eps64) * (1 - eps64))%Q in
  (k * (drawWidth p * inject_Z srcH) <= drawHeight p * inject_Z srcW /\
   k * (drawHeight p * inject_Z srcW) <= drawWidth p * inject_Z srcH)%Q /\
  (srcW = canvasW -> srcH = canvasH ->
   canvasW <= maxSafeInteger -> canvasH <= maxSafeInteger ->
   (drawWidth p == inject_Z canvasW /\ drawHeight p == inject_Z canvasH /\
    offsetX p == 0 /\ offsetY p == 0)%Q).
Proof.
  intros Hsw Hsh Hcw Hch p k.
  pose proof (inject_Z_pos _ Hsw) as Psw. pose proof (inject_Z_pos _ Hsh) as Psh.
  pose proof (inject_Z_pos _ Hcw) as Pcw. pose proof (inject_Z_pos _ Hch) as Pch.
  destruct eps64_small as [He0 He1].
  assert (Hk : (k * ((1 + eps64) * (1 + eps64)) <= 1)%Q).
  { unfold k. set (e := eps64) in *. clearbody e.
    assert (0 <= e * e)%Q by (apply Qmult_le_0_compat; lra).
    assert (e * e <= 1)%Q.
    { assert (e * e <= (1 # 8) * e)%Q by (apply Qmult_le_compat_r; lra). lra. }
    assert (E : ((1 - e) * (1 - e) * ((1 + e) * (1 + e)) == 1 - e * e * (2 - e * e))%Q)
      by ring.
    rewrite E.
    assert (0 <= e * e * (2 - e * e))%Q by (apply Qmult_le_0_compat; lra). lra. }
  assert (Pk : (0 <= k)%Q) by (unfold k; apply Qmult_le_0_compat; lra).
  split.
  - unfold p, coverFit.
    destruct (Qgtb _ _); cbn [drawWidth drawHeight offsetX offsetY].
    + destruct (fmul_fdiv_bounds (inject_Z srcW) (inject_Z srcH) (inject_Z canvasH)
                  Psw Psh Pch) as [L U].
      set (D := fmul _ _) in *. fold k in L. clearbody D.
      assert (PX : (0 <= inject_Z srcW * inject_Z canvasH)%Q) by (apply Qmult_le_0_compat; lra).
      pose proof (Qmult_le_compat_r _ _ _ Hk PX) as M1.
      pose proof (Qmult_le_compat_r _ _ _ U Pk) as M2.
      clearbody k. split; lra.
    + destruct (fmul_fdiv_bounds (inject_Z srcH) (inject_Z srcW) (inject_Z canvasW)
                  Psh Psw Pcw) as [L U].
      set (D := fmul _ _) in *. fold k in L. clearbody D.
      assert (PX : (0 <= inject_Z srcH * inject_Z canvasW)%Q) by (apply Qmult_le_0_compat; lra).
      pose proof (Qmult_le_compat_r _ _ _ Hk PX) as M1.
      pose proof (Qmult_le_compat_r _ _ _ U Pk) as M2.
      clearbody k. split; lra.
  - intros -> -> Hmw Hmh. unfold p, coverFit, Qgtb.
    assert (Hle : Qle_bool (fdiv (inject_Z canvasW) (inject_Z canvasH))
                    (fdiv (inject_Z canvasW) (inject_Z canvasH)) = true)
      by (apply Qle_bool_iff, Qle_refl).
    rewrite Hle. cbn [negb drawWidth drawHeight offsetX offsetY].
    assert (E1 : fdiv (inject_Z canvasW) (inject_Z canvasW) = round64 (inject_Z 1)).
    { unfold fdiv. apply round64_comp. field. lra. }
    assert (Hh : (fmul (inject_Z canvasH) (fdiv (inject_Z canvasW) (inject_Z canvasW))
                  == inject_Z canvasH)%Q).
    { rewrite E1. unfold fmul.
      assert (E2 : round64 (inject_Z canvasH * round64 (inject_Z 1))
                   = round64 (inject_Z canvasH)).
      { apply round64_comp. rewrite (round64_Z 1) by reflexivity. ring. }
      rewrite E2. apply round64_Z. unfold maxSafeInteger in Hmh. lia. }
    split; [reflexivity|]. split; [exact Hh|]. split; [reflexivity|].
    assert (E3 : fsub (inject_Z canvasH)
                   (fmul (inject_Z canvasH) (fdiv (inject_Z canvasW) (inject_Z canvasW)))
                 = round64 0).
    { unfold fsub. apply round64_comp. rewrite Hh. ring. }
    rewrite E3. reflexivity.
Qed.

Lemma coverFit_keeps_aspect_ratio_witness :
  let p := coverFit 1080 1920 1080 1920 in
  (drawWidth p == inject_Z 1080 /\ drawHeight p == inject_Z 1920 /\
   offsetX p == 0 /\ offsetY p == 0)%Q.
Proof.
  apply (coverFit_keeps_aspect_ratio 1080 1920 1080 1920);
    try reflexivity; unfold maxSafeInteger; lia.
Defined.

(** ** More about the word-wrap *)

Lemma spaced_concat (groups : list (list jsstring)) :
  List.concat (map spaced groups) = spaced (List.concat groups).
Proof.
  induction groups as [|g gs IH]; [reflexivity|].
  cbn [map List.concat]. now rewrite IH, spaced_app.
Qed.

Lemma groups_no_more_than_items {A} (groups : list (list A)) :
  Forall (fun g => g <> []) groups ->
  (List.length groups <= List.length (List.concat groups))%nat.
Proof.
  induction 1 as [|g gs Hg _ IH]; [reflexivity|].
  cbn [List.concat List.length]. rewrite length_app.
  destruct g; [congruence | cbn [List.length]; lia].
Qed.

Lemma wrapLines_keeps_characters (measure : jsstring -> Q) (maxWidth : Q)
    (gameName : jsstring) :
  let lines := wrapLines measure maxWidth gameName in
  List.concat lines = toUpperCase gameName ++ [space] /\
  Forall (fun l => exists body, l = body ++ [space]) lines /\
  (List.length lines <= List.length (split (toUpperCase gameName)))%nat.
Proof.
  intros lines. unfold lines.
  destruct (wrapLines_groups measure maxWidth gameName) as (groups & Hl & Hcat & Hne).
  rewrite Hl. split; [|split].
  - now rewrite spaced_concat, Hcat, spaced_split.
  - apply Forall_map. rewrite Forall_forall in *. intros g Hg.
    exists (join g). apply spaced_join. now apply Hne.
  - rewrite length_map, <- Hcat. now apply groups_no_more_than_items.
Qed.

(** X8.  The wrap loses nothing and adds nothing: the lines, put end to
    end, spell the upper-cased name followed by one space.  Every line
    ends with a space, and there are never more lines than words. *)
Theorem word_wrap_keeps_every_character (measure : jsstring -> Q) (maxWidth : Q)
    (gameName : jsstring) :
  let lines := wrapLines measure maxWidth gameName in
  List.concat lines = toUpperCase gameName ++ [space] /\
  Forall (fun l => exists body, l = body ++ [space]) lines /\
  (List.length lines <= List.length (split (toUpperCase gameName)))%nat.
Proof. exact (wrapLines_keeps_characters measure maxWidth gameName). Qed.

Section OneLine.

Variable measure : jsstring -> Q.
Variable maxWidth : Q.

Lemma wrapLoop_one_line (rest : list jsstring) :
  forall (n : nat) (line : jsstring),
    (0 < n)%nat ->
    (snd (wrapLoop measure maxWidth rest n line []) = [] <->
     forall k, (1 <= k <= List.length rest)%nat ->
       (measure (line ++ spaced (firstn k rest)) <= maxWidth)%Q).
Proof.
  induction rest as [|w rest IH]; intros n line Hn.
  - cbn [wrapLoop snd List.length]. split; [intros _ k Hk; lia | reflexivity].
  - cbn [wrapLoop]. pose proof Hn as Hn'. apply Nat.ltb_lt in Hn'. rewrite Hn'.
    rewrite andb_true_r.
    destruct (Qgtb (measure (line ++ w ++ [space])) maxWidth) eqn:E.
    + split.
      * intros H.
        destruct (wrapLoop_keeps_lines measure maxWidth rest (S n) (w ++ [space])
                    ([] ++ [line])) as (more & Hm).
        rewrite Hm in H. discriminate.
      * intros H. exfalso. apply Qgtb_true in E.
        apply (Qlt_not_le _ _ E).
        specialize (H 1%nat ltac:(cbn [List.length]; lia)).
        cbn [firstn] in H. rewrite spaced_cons in H. exact H.
    + apply Qgtb_false in E. rewrite (IH (S n) (line ++ w ++ [space])) by lia.
      split.
      * intros H k Hk. cbn [List.length] in Hk. destruct k as [|[|k]]; [lia | |].
        -- cbn [firstn]. rewrite spaced_cons. exact E.
        -- cbn [firstn]. rewrite spaced_cons.
           specialize (H (S k) ltac:(lia)). cbn [firstn] in H.
           rewrite <- !List.app_assoc in H. exact H.
      * intros H k Hk. specialize (H (S k) ltac:(cbn [List.length]; lia)).
        cbn [firstn] in H. rewrite spaced_cons in H.
        rewrite <- !List.app_assoc. exact H.
Qed.

(** X9.  The name stays on one line exactly when every line the loop
    tests after the first word fits the limit: the first [k] words, each
    followed by a space, for every [k] from 2 to the number of words.  The
    line is then the whole upper-cased name followed by a space. *)
Theorem one_line_iff_all_tests_fit (gameName : jsstring) :
  let words := split (toUpperCase gameName) in
  let lines := wrapLines measure maxWidth gameName in
  (List.length lines = 1%nat <->
   forall k, (2 <= k <= List.length words)%nat ->
     (measure (spaced (firstn k words)) <= maxWidth)%Q) /\
  (List.length lines = 1%nat -> lines = [toUpperCase gameName ++ [space]]).
Proof.
  intros words lines. split.
  - unfold lines, wrapLines. fold words.
    destruct words as [|w0 rest] eqn:Ew; [now apply split_nonempty in Ew|].
    rewrite wrapLoop_first.
    pose proof (wrapLoop_one_line rest 1 (w0 ++ [space]) ltac:(lia)) as H.
    destruct (wrapLoop measure maxWidth rest 1 (w0 ++ [space]) []) as [line ls].
    cbn [snd] in H. rewrite length_app. cbn [List.length].
    split.
    + intros Hlen k Hk. destruct ls; [|cbn [List.length] in Hlen; lia].
      destruct k as [|k]; [lia|]. cbn [firstn]. rewrite spaced_cons.
      replace (w0 ++ space :: spaced (firstn k rest))
        with ((w0 ++ [space]) ++ spaced (firstn k rest))
        by (rewrite <- List.app_assoc; reflexivity).
      apply (proj1 H eq_refl). lia.
    + intros Hall. assert (ls = []) as ->; [|reflexivity].
      apply H. intros k Hk. specialize (Hall (S k) ltac:(lia)).
      cbn [firstn] in Hall. rewrite spaced_cons in Hall.
      rewrite <- List.app_assoc. exact Hall.
  - intros Hlen.
    destruct (wrapLines_keeps_characters measure maxWidth gameName) as (Hcat & _).
    fold lines in Hcat. destruct lines as [|l [|l' ls]]; try discriminate.
    cbn [List.concat] in Hcat. rewrite List.app_nil_r in Hcat. now rewrite Hcat.
Qed.

End OneLine.

Lemma one_line_iff_all_tests_fit_witness :
  wrapLines (monoWidth (mkFont 900 12)) (inject_Z 1080 * 0.9) (lit "super gold quest")
    = [lit "SUPER GOLD QUEST "].
Proof.
  destruct (one_line_iff_all_tests_fit (monoWidth (mkFont 900 12)) (inject_Z 1080 * 0.9)
              (lit "super gold quest")) as [Hiff Hline].
  apply Hline. apply Hiff. intros k Hk.
  assert (k = 2%nat \/ k = 3%nat) as [-> | ->] by (vm_compute in Hk; lia);
    vm_compute; discriminate.
Defined.

(** ** The provider line and the order of the layers *)

Lemma textCalls_other_weight (a : Attrs) (w : Z) (lines : list jsstring)
    (x y lineHeight : Q) :
  fontWeight (font a) <> w ->
  forall i, textCalls w (lineCalls a lines i x y lineHeight) = [].
Proof.
  intros Hw. induction lines as [|l rest IH]; intros i; [reflexivity|].
  cbn [lineCalls]. unfold textCalls in *. cbn [flat_map fst snd].
  destruct (Z.eqb_spec (fontWeight (font a)) w); [contradiction|].
  cbn [app]. apply IH.
Qed.

Lemma lineCalls_length (a : Attrs) (lines : list jsstring) (x y lineHeight : Q) :
  forall i, List.length (lineCalls a lines i x y lineHeight) = List.length lines.
Proof. induction lines; intros i; cbn [lineCalls List.length]; auto. Qed.

Lemma lineCalls_calls (a : Attrs) (lines : list jsstring) (x y lineHeight : Q) :
  forall i,
    map snd (lineCalls a lines i x y lineHeight)
      = map (fun t => FillText (fst (fst t)) (snd (fst t)) (snd t))
            (placedLines lines i x y lineHeight).
Proof.
  induction lines as [|l rest IH]; intros i; [reflexivity|].
  cbn [lineCalls placedLines map fst snd]. f_equal. apply IH.
Qed.

Section LayersAndProvider.

Variable textWidth : Font -> jsstring -> Q.
Variable paint : Z -> Z -> Attrs -> DrawCall -> Bitmap -> Bitmap.

(** X10.  Whatever the game name is and however many lines it takes,
    [addText] draws the provider exactly once, after the lines of the
    name: upper-cased, centred at [canvasW / 2], at height
    [canvasH - canvasH * 0.05], a tenth of the canvas height below the
    last line of the name, in weight 500, white at 70%, with the shadow
    blur switched off. *)
Theorem provider_line_is_fixed (gameName providerName : jsstring) (canvasW canvasH : Z)
    (c : Context2D) :
  exists c' new,
    addText textWidth paint gameName providerName canvasW canvasH c = inr (tt, c') /\
    calls c' = calls c ++ new /\
    let n := List.length (titleLines textWidth gameName canvasW) in
    let providerY := (inject_Z canvasH - inject_Z canvasH * 0.05)%Q in
    let call := FillText (toUpperCase providerName) (inject_Z canvasW / 2) providerY in
    List.length new = S n /\
    nth_error new n = Some (providerAttrs canvasW, call) /\
    textCalls 500 new = [(toUpperCase providerName, (inject_Z canvasW / 2)%Q, providerY)] /\
    shadowBlur (providerAttrs canvasW) = 0%Q /\
    fillStyle (providerAttrs canvasW) = Solid (rgba 255 255 255 0.7) /\
    (nth (n - 1) (ys (textCalls 900 new)) 0 + inject_Z canvasH * 0.1 == providerY)%Q.
Proof.
  destruct (addText_run textWidth paint gameName providerName canvasW canvasH c)
    as (c' & Hrun & _ & _ & Hcalls).
  eexists c', _. split; [exact Hrun|]. split; [exact Hcalls|].
  cbv zeta. fold (titleLines textWidth gameName canvasW).
  set (lines := titleLines textWidth gameName canvasW).
  assert (Hn : (1 <= List.length lines)%nat).
  { pose proof (wrapLines_nonempty (textWidth (mkFont 900 (floor (inject_Z canvasW * 0.12))))
                  (inject_Z canvasW * 0.9) gameName) as Hne.
    fold (titleLines textWidth gameName canvasW) in Hne. fold lines in Hne.
    destruct lines; [congruence | cbn [List.length]; lia]. }
  split; [rewrite length_app, lineCalls_length; cbn [List.length]; lia|].
  split.
  { rewrite nth_error_app2 by (rewrite lineCalls_length; lia).
    rewrite lineCalls_length, Nat.sub_diag. reflexivity. }
  split.
  { rewrite textCalls_app, textCalls_other_weight by (cbn; discriminate).
    reflexivity. }
  split; [reflexivity|]. split; [reflexivity|].
  rewrite textCalls_app.
  change 900 with (fontWeight (font (titleAttrs canvasW))) at 1.
  rewrite textCalls_lineCalls.
  replace (textCalls _ [_]) with (@nil (jsstring * Q * Q)) by reflexivity.
  rewrite List.app_nil_r, placedLines_ys by lia.
  unfold titleTop. cbn [Nat.add].
  replace (Z.of_nat (List.length lines - 1)) with (Z.of_nat (List.length lines) - 1) by lia.
  ring.
Qed.


End LayersAndProvider.


(** ** geminiService: the request and the result *)

Lemma stripPrefix_spec (p s r : jsstring) :
  stripPrefix p s = Some r <-> s = p ++ r.
Proof.
  revert s. induction p as [|a p IH]; intros s; cbn [stripPrefix app].
  - split; [intros H; inversion H; reflexivity | intros ->; reflexivity].
  - destruct s as [|b s]; [split; discriminate|].
    destruct (Ascii.eqb_spec a b) as [->|Hne].
    + rewrite IH. split; [intros ->; reflexivity | intros H; inversion H; reflexivity].
    + split; [discriminate | intros H; inversion H; congruence].
Qed.

Lemma stripPrefix_app (p r : jsstring) : stripPrefix p (p ++ r) = Some r.
Proof. now apply stripPrefix_spec. Qed.

Lemma stripType_spec (types : list jsstring) (s r : jsstring) :
  stripType types s = Some r ->
  exists t, In t types /\ s = t ++ lit ";base64," ++ r.
Proof.
  induction types as [|t rest IH]; cbn [stripType]; [discriminate|].
  destruct (stripPrefix (t ++ lit ";base64,") s) as [s'|] eqn:E.
  - intros H. inversion H; subst. apply stripPrefix_spec in E.
    exists t. split; [now left|]. now rewrite E, <- List.app_assoc.
  - intros H. destruct (IH H) as (t' & Hin & Hs). exists t'. split; [now right | exact Hs].
Qed.

Section GeminiFacts.

Variable generateContent : Request -> Outcome Response.

(** X12.  The header of a data URL of type png, jpeg, jpg or webp is
    removed before the image is sent, so the service answers the same with
    and without it; any other string is sent as it is.  The result of
    stripping is always the input or the input without such a header. *)
Theorem data_url_header_is_stripped (t payload prompt : jsstring) :
  In t headerTypes ->
  let url := lit "data:image/" ++ t ++ lit ";base64," ++ payload in
  stripDataHeader url = payload /\
  (stripDataHeader payload = payload ->
   generatePortraitImage generateContent url prompt
     = generatePortraitImage generateContent payload prompt) /\
  (forall s, stripDataHeader s = s \/
             exists t', In t' headerTypes /\
               s = lit "data:image/" ++ t' ++ lit ";base64," ++ stripDataHeader s).
Proof.
  intros Hin url.
  assert (Hstrip : stripDataHeader url = payload).
  { unfold url, stripDataHeader. rewrite stripPrefix_app.
    cbn [headerTypes In] in Hin.
    destruct Hin as [<-|[<-|[<-|[<-|[]]]]]; reflexivity. }
  split; [exact Hstrip|]. split.
  - intros Hpay. unfold generatePortraitImage, generatePortraitImage_try, portraitRequest.
    now rewrite Hstrip, Hpay.
  - intros s. unfold stripDataHeader.
    destruct (stripPrefix (lit "data:image/") s) as [s1|] eqn:E1; [|now left].
    destruct (stripType headerTypes s1) as [s2|] eqn:E2; [|now left].
    right. apply stripPrefix_spec in E1. apply stripType_spec in E2.
    destruct E2 as (t' & Hin' & Hs1). exists t'. split; [exact Hin'|].
    now rewrite E1, Hs1.
Qed.

Lemma firstImage_skips (before rest : list Part) :
  Forall carriesNoImage before -> firstImage (before ++ rest) = firstImage rest.
Proof.
  induction 1 as [|part before Hp _ IH]; [reflexivity|].
  cbn [app firstImage]. unfold carriesNoImage in Hp.
  destruct (inlineData part) as [i|]; [rewrite Hp|]; exact IH.
Qed.

Lemma firstImage_empty (ps : list Part) :
  firstImage ps = [] <-> Forall carriesNoImage ps.
Proof.
  induction ps as [|part ps IH]; cbn [firstImage].
  - split; [constructor | reflexivity].
  - unfold carriesNoImage at 1.
    destruct (inlineData part) as [i|] eqn:Ei.
    + destruct (truthy (data i)) eqn:Et.
      * split; [discriminate|]. intros H. inversion H as [|? ? Hp _]; subst.
        unfold carriesNoImage in Hp. rewrite Ei in Hp. congruence.
      * rewrite IH. split.
        -- intros H. constructor; [unfold carriesNoImage; now rewrite Ei | exact H].
        -- intros H. now inversion H.
    + rewrite IH. split.
      * intros H. constructor; [unfold carriesNoImage; now rewrite Ei | exact H].
      * intros H. now inversion H.
Qed.

(** X13.  The image returned is the first part of the answer that carries
    non-empty image data, whatever parts precede it: a data URL built from
    its type, or from [image/png] when the type is missing or empty, and
    its data. *)
Theorem first_image_part_is_returned (imageBase64 prompt : jsstring)
    (response : Response) (before rest : list Part)
    (t m : option jsstring) (d : jsstring) :
  generateContent (portraitRequest imageBase64 prompt) = inr response ->
  responseParts response
    = Some (before ++ mkPart t (Some (mkInlineData m (Some d))) :: rest) ->
  Forall carriesNoImage before ->
  d <> [] ->
  generatePortraitImage generateContent imageBase64 prompt
    = inr (lit "data:" ++ orElse m (lit "image/png") ++ lit ";base64," ++ d).
Proof.
  intros Hcall Hparts Hbefore Hd.
  unfold generatePortraitImage, generatePortraitImage_try.
  rewrite Hcall, Hparts. cbv zeta. rewrite firstImage_skips by exact Hbefore.
  cbn [firstImage inlineData data mimeType].
  destruct d as [|ch d]; [congruence|]. reflexivity.
Qed.

(** X14.  A failure of the service always carries a non-empty message.
    An answer without first candidate, content or parts is rejected with
    "No content returned from Gemini"; an answer whose parts carry no
    image data, an empty list of parts included, with "Gemini did not
    return an image ..."; a rejection of the call keeps its message when
    it has one and gets "Failed to generate image" otherwise. *)
Theorem service_failures_carry_a_message (imageBase64 prompt : jsstring) :
  (forall e, generatePortraitImage generateContent imageBase64 prompt = inl e ->
     truthy (message e) = true) /\
  (forall response,
     generateContent (portraitRequest imageBase64 prompt) = inr response ->
     responseParts response = None ->
     generatePortraitImage generateContent imageBase64 prompt
       = inl (newError (lit "No content returned from Gemini"))) /\
  (forall response ps,
     generateContent (portraitRequest imageBase64 prompt) = inr response ->
     responseParts response = Some ps ->
     Forall carriesNoImage ps ->
     generatePortraitImage generateContent imageBase64 prompt
       = inl (newError
                (lit "Gemini did not return an image. It might have refused the request."))) /\
  (forall err,
     generateContent (portraitRequest imageBase64 prompt) = inl err ->
     generatePortraitImage generateContent imageBase64 prompt
       = inl (newError (orElse (message err) (lit "Failed to generate image")))).
Proof.
  unfold generatePortraitImage, generatePortraitImage_try.
  split; [|split; [|split]].
  - intros e.
    destruct (generateContent (portraitRequest imageBase64 prompt)) as [err|response].
    + intros H. inversion H; subst. cbn [message newError].
      destruct (message err) as [[|ch m]|]; reflexivity.
    + destruct (responseParts response) as [ps|].
      * cbv zeta. destruct (firstImage ps); intros H; inversion H; reflexivity.
      * intros H. inversion H. reflexivity.
  - intros response Hcall Hparts. now rewrite Hcall, Hparts.
  - intros response ps Hcall Hparts Hnone. rewrite Hcall, Hparts. cbv zeta.
    apply firstImage_empty in Hnone. now rewrite Hnone.
  - intros err Hcall. now rewrite Hcall.
Qed.

End GeminiFacts.

Lemma data_url_header_is_stripped_witness :
  stripDataHeader (lit "data:image/jpeg;base64,/9j/4AAQ") = lit "/9j/4AAQ".
Proof.
  apply (data_url_header_is_stripped echoService (lit "jpeg") (lit "/9j/4AAQ") []).
  right. left. reflexivity.
Defined.

Lemma first_image_part_is_returned_witness :
  generatePortraitImage echoService (lit "data:image/jpeg;base64,/9j/4AAQ")
    (lit "portrait") = inr (lit "data:image/jpeg;base64,/9j/4AAQ").
Proof.
  apply (first_image_part_is_returned echoService
           (lit "data:image/jpeg;base64,/9j/4AAQ") (lit "portrait")
           (mkResponse (Some [mkCandidate (Some (mkContent
              (Some [mkPart (Some (lit "Here is the portrait.")) None;
                     mkPart None (Some (mkInlineData (Some (lit "image/jpeg"))
                                                     (Some (lit "/9j/4AAQ"))))])))]))
           [mkPart (Some (lit "Here is the portrait.")) None] [] None
           (Some (lit "image/jpeg")) (lit "/9j/4AAQ")).
  - reflexivity.
  - reflexivity.
  - repeat constructor.
  - discriminate.
Defined.

Lemma service_failures_carry_a_message_witness :
  generatePortraitImage unreachableService (lit "/9j/4AAQ") (lit "portrait")
    = inl (newError (lit "Failed to generate image")).
Proof.
  destruct (service_failures_carry_a_message unreachableService (lit "/9j/4AAQ")
              (lit "portrait")) as (_ & _ & _ & H).
  apply (H (mkError None)). reflexivity.
Defined.

(** ** The application: status updates and [processGame] *)

Lemma jsstring_eqb_eq (a b : jsstring) : jsstring_eqb a b = true <-> a = b.
Proof.
  unfold jsstring_eqb. destruct (list_eq_dec ascii_dec a b); split; congruence.
Qed.

Lemma jsstring_eqb_refl (a : jsstring) : jsstring_eqb a a = true.
Proof. now apply jsstring_eqb_eq. Qed.

Lemma jsstring_eqb_neq (a b : jsstring) : a <> b -> jsstring_eqb a b = false.
Proof.
  intros H. destruct (jsstring_eqb a b) eqn:E; [|reflexivity].
  apply jsstring_eqb_eq in E. contradiction.
Qed.

Lemma applyUpdates_at (l : list (jsstring * StatusUpdate)) :
  forall (prev : Statuses) (k : jsstring),
    applyUpdates l prev k
      = statusAfter (map snd (filter (fun ku => jsstring_eqb k (fst ku)) l)) (prev k).
Proof.
  unfold applyUpdates, statusAfter.
  induction l as [|[key u] l IH]; intros prev k; [reflexivity|].
  cbn [fold_left filter fst snd]. rewrite IH. unfold updateStatus.
  destruct (jsstring_eqb k key) eqn:E; cbn [map fold_left snd]; [|reflexivity].
  apply jsstring_eqb_eq in E. now subst.
Qed.

Lemma filter_interleaved_left {A} (p : A -> bool) (xs ys zs : list A) :
  interleaved xs ys zs ->
  Forall (fun x => p x = true) xs -> Forall (fun y => p y = false) ys ->
  filter p zs = xs.
Proof.
  induction 1 as [|x xs ys zs _ IH|y xs ys zs _ IH]; intros Hx Hy; [reflexivity| |].
  - inversion Hx as [|? ? Hp Hx']; subst. cbn [filter]. rewrite Hp. f_equal. now apply IH.
  - inversion Hy as [|? ? Hp Hy']; subst. cbn [filter]. rewrite Hp. now apply IH.
Qed.

Lemma filter_interleaved_right {A} (p : A -> bool) (xs ys zs : list A) :
  interleaved xs ys zs ->
  Forall (fun x => p x = false) xs -> Forall (fun y => p y = true) ys ->
  filter p zs = ys.
Proof.
  induction 1 as [|x xs ys zs _ IH|y xs ys zs _ IH]; intros Hx Hy; [reflexivity| |].
  - inversion Hx as [|? ? Hp Hx']; subst. cbn [filter]. rewrite Hp. now apply IH.
  - inversion Hy as [|? ? Hp Hy']; subst. cbn [filter]. rewrite Hp. f_equal. now apply IH.
Qed.

Lemma filter_interleaved_none {A} (p : A -> bool) (xs ys zs : list A) :
  interleaved xs ys zs ->
  Forall (fun x => p x = false) xs -> Forall (fun y => p y = false) ys ->
  filter p zs = [].
Proof.
  induction 1 as [|x xs ys zs _ IH|y xs ys zs _ IH]; intros Hx Hy; [reflexivity| |].
  - inversion Hx as [|? ? Hp Hx']; subst. cbn [filter]. rewrite Hp. now apply IH.
  - inversion Hy as [|? ? Hp Hy']; subst. cbn [filter]. rewrite Hp. now apply IH.
Qed.

Lemma Forall_keyed (k key : jsstring) (b : bool) (us : list StatusUpdate) :
  jsstring_eqb k key = b ->
  Forall (fun ku : jsstring * StatusUpdate => jsstring_eqb k (fst ku) = b)
         (map (fun u => (key, u)) us).
Proof. intros H. induction us; constructor; auto. Qed.

Lemma filter_keyed (key : jsstring) (us : list StatusUpdate) :
  map snd (filter (fun ku : jsstring * StatusUpdate => jsstring_eqb key (fst ku))
                  (map (fun u => (key, u)) us)) = us.
Proof.
  induction us as [|u us IH]; [reflexivity|].
  cbn [map filter fst]. rewrite jsstring_eqb_refl. cbn [map snd]. now rewrite IH.
Qed.

Lemma filter_other (k key : jsstring) (us : list StatusUpdate) :
  k <> key ->
  filter (fun ku : jsstring * StatusUpdate => jsstring_eqb k (fst ku))
         (map (fun u => (key, u)) us) = [].
Proof.
  intros H. induction us as [|u us IH]; [reflexivity|].
  cbn [map filter fst]. now rewrite jsstring_eqb_neq.
Qed.

Lemma map_snd_keyed (key : jsstring) (us : list StatusUpdate) :
  map snd (map (fun u => (key, u)) us) = us.
Proof. induction us as [|u us IH]; [reflexivity|]. cbn [map snd]. now rewrite IH. Qed.

Lemma orElse_truthy (s : option jsstring) (fallback : jsstring) :
  truthy s = true -> Some (orElse s fallback) = s.
Proof. destruct s as [[|ch s]|]; cbn; congruence. Qed.

Lemma orElse_nonempty (s : option jsstring) (fallback : jsstring) :
  fallback <> [] -> truthy (Some (orElse s fallback)) = true.
Proof.
  intros H. destruct s as [[|ch s]|]; cbn [orElse truthy]; try reflexivity;
    destruct fallback; congruence.
Qed.

Lemma generatePortraitImage_message (generateContent : Request -> Outcome Response)
    (imageBase64 prompt : jsstring) (e : JsError) :
  generatePortraitImage generateContent imageBase64 prompt = inl e ->
  truthy (message e) = true.
Proof.
  unfold generatePortraitImage, generatePortraitImage_try.
  destruct (generateContent (portraitRequest imageBase64 prompt)) as [err|response].
  - intros H. inversion H; subst. cbn [message newError].
    destruct (message err) as [[|ch m]|]; reflexivity.
  - destruct (responseParts response) as [ps|].
    + cbv zeta. destruct (firstImage ps); intros H; inversion H; reflexivity.
    + intros H. inversion H. reflexivity.
Qed.

Section ApplicationFacts.

Variable loadUrl : jsstring -> option Image.
Variable loadImage : jsstring -> option Image.
Variable jpegDataURL : EncodedImage -> jsstring.
Variable pngDataURL : EncodedImage -> jsstring.
Variable exceptionMessage : Error -> option jsstring.
Variable textWidth : Font -> jsstring -> Q.
Variable paint : Z -> Z -> Attrs -> DrawCall -> Bitmap -> Bitmap.
Variable allocates : Z -> Z -> bool.
Variable generateContent : Request -> Outcome Response.

Local Abbreviation download := (urlToBase64 loadUrl jpegDataURL exceptionMessage paint allocates).
Local Abbreviation generate := (generatePortraitImage generateContent).
Local Abbreviation composite :=
  (compositeFinalImageFrom loadImage pngDataURL exceptionMessage textWidth paint
     allocates).
Local Abbreviation updatesOf :=
  (processGameUpdates loadUrl loadImage jpegDataURL pngDataURL exceptionMessage
     textWidth paint allocates generateContent).
Local Abbreviation run :=
  (processGame loadUrl loadImage jpegDataURL pngDataURL exceptionMessage
     textWidth paint allocates generateContent).

Lemma processGame_at (settings : AppSettings) (game : GameData) (prev : Statuses) :
  run settings game prev (id game)
    = statusAfter (updatesOf settings game) (prev (id game)).
Proof.
  unfold processGame. rewrite applyUpdates_at, filter_keyed. reflexivity.
Qed.

Lemma processGame_elsewhere (settings : AppSettings) (game : GameData) (prev : Statuses)
    (k : jsstring) :
  k <> id game -> run settings game prev k = prev k.
Proof.
  intros Hk. unfold processGame. rewrite applyUpdates_at.
  now rewrite filter_other.
Qed.

(** X15.  Runs of [processGame] for two games with different ids do not
    disturb each other: however their status updates are interleaved, each
    game ends with the status it gets from its own run alone, and no other
    entry changes. *)
Theorem runs_on_different_games_do_not_interfere (settings : AppSettings)
    (g1 g2 : GameData) (prev : Statuses) (l : list (jsstring * StatusUpdate)) :
  id g1 <> id g2 ->
  interleaved (map (fun u => (id g1, u)) (updatesOf settings g1))
              (map (fun u => (id g2, u)) (updatesOf settings g2)) l ->
  applyUpdates l prev (id g1) = run settings g1 prev (id g1) /\
  applyUpdates l prev (id g2) = run settings g2 prev (id g2) /\
  forall k, k <> id g1 -> k <> id g2 -> applyUpdates l prev k = prev k.
Proof.
  intros Hne Hl. split; [|split].
  - rewrite processGame_at, applyUpdates_at.
    rewrite (filter_interleaved_left _ _ _ _ Hl).
    + now rewrite map_snd_keyed.
    + apply Forall_keyed, jsstring_eqb_refl.
    + apply Forall_keyed, jsstring_eqb_neq, Hne.
  - rewrite processGame_at, applyUpdates_at.
    rewrite (filter_interleaved_right _ _ _ _ Hl).
    + now rewrite map_snd_keyed.
    + apply Forall_keyed, jsstring_eqb_neq. congruence.
    + apply Forall_keyed, jsstring_eqb_refl.
  - intros k H1 H2. rewrite applyUpdates_at.
    rewrite (filter_interleaved_none _ _ _ _ Hl); [reflexivity| |];
      apply Forall_keyed, jsstring_eqb_neq; assumption.
Qed.

(** X16.  When the download, the generation and the compositing all
    succeed, the game ends in status [complete] with the three images of
    this run, no error text, and the id it had. *)
Theorem successful_run_ends_complete (settings : AppSettings) (game : GameData)
    (prev : Statuses) (original cleaned final : jsstring) :
  download (gameThumbnail game) = inr original ->
  generate original (enhancePrompt settings) = inr cleaned ->
  composite cleaned (name game) (providerOf game) (width settings) (height settings)
    = inr final ->
  run settings game prev (id game)
    = Some (mkStatus (ps_id (orEmpty (prev (id game)))) (Some complete)
              (Some original) (Some cleaned) (Some final) None).
Proof.
  intros Hd Hg Hc. rewrite processGame_at.
  unfold processGameUpdates.
  rewrite Hd, Hg, Hc.
  reflexivity.
Qed.

(** X17.  A run never leaves the game in [downloading], [generating] or
    [compositing]: once its steps have settled the status is [complete],
    with a final image and no error text, or [error], with a non-empty
    error text. *)
Theorem run_ends_complete_or_error (settings : AppSettings) (game : GameData)
    (prev : Statuses) :
  exists st,
    run settings game prev (id game) = Some st /\
    ((status st = Some complete /\ error st = None /\
      exists final, finalImageBase64 st = Some final) \/
     (status st = Some errored /\ truthy (error st) = true)).
Proof.
  rewrite processGame_at. unfold processGameUpdates.
  destruct (urlToBase64 _ _ _ _ _ _) as [e|o].
  { eexists. split; [reflexivity|]. right. split; [reflexivity|].
    cbn [error spread override failureUpdate u_error]. now apply orElse_nonempty. }
  destruct (generatePortraitImage _ _ _) as [e|c].
  { eexists. split; [reflexivity|]. right. split; [reflexivity|].
    cbn [error spread override failureUpdate u_error]. now apply orElse_nonempty. }
  destruct (compositeFinalImageFrom _ _ _ _ _ _ _ _ _ _ _) as [e|f].
  { eexists. split; [reflexivity|]. right. split; [reflexivity|].
    cbn [error spread override failureUpdate u_error]. now apply orElse_nonempty. }
  eexists. split; [reflexivity|]. left. split; [reflexivity|]. split; [reflexivity|].
  now exists f.
Qed.

(** X18.  When the thumbnail does not load, the status becomes [error]
    with the text "Failed to load image: " followed by the URL; the images
    the status held from an earlier run stay in it. *)
Theorem failed_download_keeps_old_images (settings : AppSettings) (game : GameData)
    (prev : Statuses) :
  loadUrl (gameThumbnail game) = None ->
  let old := orEmpty (prev (id game)) in
  run settings game prev (id game)
    = Some (mkStatus (ps_id old) (Some errored) (originalImageBase64 old)
              (cleanedImageBase64 old) (finalImageBase64 old)
              (Some (lit "Failed to load image: " ++ gameThumbnail game))).
Proof.
  intros Hload old. rewrite processGame_at.
  unfold processGameUpdates, urlToBase64. rewrite Hload. reflexivity.
Qed.

(** X19.  When the generation fails after a successful download, the
    status becomes [error], holds the downloaded image, and shows the
    message of the service's error, which is never empty: the fallback
    "Unknown error" is not used for it. *)
Theorem failed_generation_shows_service_message (settings : AppSettings)
    (game : GameData) (prev : Statuses) (original : jsstring) (e : JsError) :
  download (gameThumbnail game) = inr original ->
  generate original (enhancePrompt settings) = inl e ->
  let old := orEmpty (prev (id game)) in
  run settings game prev (id game)
    = Some (mkStatus (ps_id old) (Some errored) (Some original)
              (cleanedImageBase64 old) (finalImageBase64 old) (message e)) /\
  truthy (message e) = true.
Proof.
  intros Hd Hg old.
  pose proof (generatePortraitImage_message _ _ _ _ Hg) as Hm.
  split; [|exact Hm]. rewrite processGame_at.
  unfold processGameUpdates.
  rewrite Hd, Hg.
  rewrite <- (orElse_truthy _ (lit "Unknown error") Hm). reflexivity.
Qed.

(** X20.  When the generated image cannot be decoded, the rejection is an
    event without message and the status shows "Unknown error"; when a
    canvas call throws, it shows the message of that exception, or
    "Unknown error" when it has none.  In both cases the status is
    [error] and holds the downloaded and the generated image. *)
Theorem failed_compositing_status (settings : AppSettings) (game : GameData)
    (prev : Statuses) (original cleaned : jsstring) :
  download (gameThumbnail game) = inr original ->
  generate original (enhancePrompt settings) = inr cleaned ->
  let old := orEmpty (prev (id game)) in
  let failed text :=
    Some (mkStatus (ps_id old) (Some errored) (Some original) (Some cleaned)
            (finalImageBase64 old) (Some text)) in
  (loadImage cleaned = None ->
   run settings game prev (id game) = failed (lit "Unknown error")) /\
  (forall img e,
     loadImage cleaned = Some img ->
     compositeFinalImage textWidth paint allocates img (name game) (providerOf game)
       (width settings) (height settings) = inl e ->
     run settings game prev (id game)
       = failed (orElse (exceptionMessage e) (lit "Unknown error"))).
Proof.
  intros Hd Hg old failed. split.
  - intros Hload. rewrite processGame_at. unfold processGameUpdates.
    rewrite Hd, Hg.
    unfold compositeFinalImageFrom. rewrite Hload. reflexivity.
  - intros img e Hload Hc. rewrite processGame_at. unfold processGameUpdates.
    rewrite Hd, Hg.
    unfold compositeFinalImageFrom. rewrite Hload, Hc. reflexivity.
Qed.

(** X21.  The provider drawn on the image is the game's provider name in
    upper case; for a game whose provider name is missing or empty it is
    "PROVIDER". *)
Theorem missing_provider_is_drawn_as_PROVIDER (game : GameData) (canvasW canvasH : Z)
    (c : Context2D) :
  exists c' new,
    addText textWidth paint (name game) (providerOf game) canvasW canvasH c
      = inr (tt, c') /\
    calls c' = calls c ++ new /\
    let at_ text := [(text, (inject_Z canvasW / 2)%Q,
                      (inject_Z canvasH - inject_Z canvasH * 0.05)%Q)] in
    (forall p, providerName game = Some p -> p <> [] ->
       textCalls 500 new = at_ (toUpperCase p)) /\
    (truthy (providerName game) = false ->
       textCalls 500 new = at_ (lit "PROVIDER")).
Proof.
  destruct (addText_run textWidth paint (name game) (providerOf game) canvasW canvasH c)
    as (c' & Hrun & _ & _ & Hcalls).
  eexists c', _. split; [exact Hrun|]. split; [exact Hcalls|].
  cbv zeta.
  assert (H500 : forall lines i x y lh tail,
             textCalls 500 (lineCalls (titleAttrs canvasW) lines i x y lh ++ tail)
               = textCalls 500 tail).
  { intros. rewrite textCalls_app, textCalls_other_weight by (cbn; discriminate).
    reflexivity. }
  split.
  - intros p Hp Hne. rewrite H500. unfold providerOf. rewrite Hp.
    destruct p as [|ch p]; [congruence|]. reflexivity.
  - intros Hp. rewrite H500. unfold providerOf.
    destruct (providerName game) as [[|ch p]|]; try discriminate; reflexivity.
Qed.

(** X22.  After a run of a listed game, [processAll] starts that game
    again exactly when the run did not complete, that is, when one of its
    three steps failed. *)
Theorem processAll_retries_failed_runs_only (settings : AppSettings) (game : GameData)
    (games : list GameData) (prev : Statuses) :
  In game games ->
  (In game (processAll games (run settings game prev)) <->
   ~ exists original cleaned final,
       download (gameThumbnail game) = inr original /\
       generate original (enhancePrompt settings) = inr cleaned /\
       composite cleaned (name game) (providerOf game) (width settings) (height settings)
         = inr final).
Proof.
  intros Hin. unfold processAll. rewrite filter_In.
  rewrite processGame_at. unfold processGameUpdates.
  destruct (download (gameThumbnail game)) as [e|o] eqn:Hd.
  { split; [|intros _; split; [exact Hin | reflexivity]].
    intros _ (o & c & f & H & _). congruence. }
  destruct (generate o (enhancePrompt settings)) as [e|c] eqn:Hg.
  { split; [|intros _; split; [exact Hin | reflexivity]].
    intros _ (o' & c' & f & H1 & H2 & _). congruence. }
  destruct (composite c (name game) (providerOf game) (width settings) (height settings))
    as [e|f] eqn:Hc.
  { split; [|intros _; split; [exact Hin | reflexivity]].
    intros _ (o' & c' & f & H1 & H2 & H3).
    assert (o' = o) by congruence. subst o'.
    assert (c' = c) by congruence. subst c'. congruence. }
  split.
  - intros [_ H]. discriminate H.
  - intros H. exfalso. apply H. now exists o, c, f.
Qed.

End ApplicationFacts.

Lemma runs_on_different_games_do_not_interfere_witness :
  let run := processGame loadsNothing loadsLandscape jpegStub pngStub noMessage
               monoWidth paintRed sizeLimit echoService smallSettings in
  let d := mkUpdate None (Some (Some downloading)) None None None (Some None) in
  let f game := failureUpdate (newError (lit "Failed to load image: " ++ gameThumbnail game)) in
  let l := [(lit "g1", d); (lit "g2", d); (lit "g2", f moonDice); (lit "g1", f goldQuest)] in
  applyUpdates l noStatuses (lit "g1") = run goldQuest noStatuses (lit "g1") /\
  applyUpdates l noStatuses (lit "g2") = run moonDice noStatuses (lit "g2") /\
  forall k, k <> lit "g1" -> k <> lit "g2" -> applyUpdates l noStatuses k = None.
Proof.
  cbv zeta.
  apply (runs_on_different_games_do_not_interfere loadsNothing loadsLandscape jpegStub
           pngStub noMessage monoWidth paintRed sizeLimit echoService smallSettings
           goldQuest moonDice noStatuses).
  - discriminate.
  - apply interleaved_left, interleaved_right, interleaved_right, interleaved_left,
      interleaved_nil.
Defined.

Lemma successful_run_ends_complete_witness :
  processGame loadsLandscape loadsLandscape jpegStub pngStub noMessage
    monoWidth paintRed sizeLimit echoService smallSettings goldQuest noStatuses (lit "g1")
  = Some (mkStatus None (Some complete)
            (Some (lit "data:image/jpeg;base64,/9j/4AAQ"))
            (Some (lit "data:image/jpeg;base64,/9j/4AAQ"))
            (Some (lit "data:image/png;base64,iVBORw0KGgo=")) None).
Proof.
  apply (successful_run_ends_complete loadsLandscape loadsLandscape jpegStub pngStub
           noMessage monoWidth paintRed sizeLimit echoService smallSettings goldQuest noStatuses).
  - reflexivity.
  - reflexivity.
  - vm_compute. reflexivity.
Defined.

Lemma failed_download_keeps_old_images_witness :
  let old := mkStatus (Some (JString (lit "g1"))) (Some complete)
               (Some (lit "data:image/jpeg;base64,/9j/4AAQ"))
               (Some (lit "data:image/jpeg;base64,/9j/4AAQ"))
               (Some (lit "data:image/png;base64,iVBORw0KGgo=")) None in
  processGame loadsNothing loadsLandscape jpegStub pngStub noMessage
    monoWidth paintRed sizeLimit echoService smallSettings goldQuest
    (fun k => if jsstring_eqb k (lit "g1") then Some old else None) (lit "g1")
  = Some (mkStatus (Some (JString (lit "g1"))) (Some errored)
            (Some (lit "data:image/jpeg;base64,/9j/4AAQ"))
            (Some (lit "data:image/jpeg;base64,/9j/4AAQ"))
            (Some (lit "data:image/png;base64,iVBORw0KGgo="))
            (Some (lit "Failed to load image: https://example.com/gold.png"))).
Proof.
  cbv zeta.
  apply (failed_download_keeps_old_images loadsNothing loadsLandscape jpegStub pngStub
           noMessage monoWidth paintRed sizeLimit echoService smallSettings goldQuest).
  reflexivity.
Defined.

Lemma failed_generation_shows_service_message_witness :
  processGame loadsLandscape loadsLandscape jpegStub pngStub noMessage
    monoWidth paintRed sizeLimit unreachableService smallSettings goldQuest noStatuses (lit "g1")
  = Some (mkStatus None (Some errored) (Some (lit "data:image/jpeg;base64,/9j/4AAQ"))
            None None (Some (lit "Failed to generate image"))).
Proof.
  apply (failed_generation_shows_service_message loadsLandscape loadsLandscape jpegStub
           pngStub noMessage monoWidth paintRed sizeLimit unreachableService smallSettings
           goldQuest noStatuses (lit "data:image/jpeg;base64,/9j/4AAQ")
           (newError (lit "Failed to generate image"))).
  - reflexivity.
  - reflexivity.
Defined.

Lemma failed_compositing_status_witness :
  processGame loadsLandscape loadsNothing jpegStub pngStub noMessage
    monoWidth paintRed sizeLimit echoService smallSettings goldQuest noStatuses (lit "g1")
  = Some (mkStatus None (Some errored) (Some (lit "data:image/jpeg;base64,/9j/4AAQ"))
            (Some (lit "data:image/jpeg;base64,/9j/4AAQ")) None
            (Some (lit "Unknown error"))).
Proof.
  apply (failed_compositing_status loadsLandscape loadsNothing jpegStub pngStub
           noMessage monoWidth paintRed sizeLimit echoService smallSettings goldQuest noStatuses
           (lit "data:image/jpeg;base64,/9j/4AAQ")
           (lit "data:image/jpeg;base64,/9j/4AAQ")).
  - reflexivity.
  - reflexivity.
  - reflexivity.
Defined.

Lemma processAll_retries_failed_runs_only_witness :
  In goldQuest
     (processAll [moonDice; goldQuest]
        (processGame loadsNothing loadsLandscape jpegStub pngStub noMessage
           monoWidth paintRed sizeLimit echoService smallSettings goldQuest noStatuses)).
Proof.
  apply (processAll_retries_failed_runs_only loadsNothing loadsLandscape jpegStub pngStub
           noMessage monoWidth paintRed sizeLimit echoService smallSettings goldQuest
           [moonDice; goldQuest] noStatuses).
  - right. left. reflexivity.
  - intros (o & c & f & H & _). discriminate H.
Defined.

Lemma missing_provider_is_drawn_as_PROVIDER_witness :
  exists c',
    addText monoWidth paintRed (name goldQuest) (providerOf goldQuest) 1080 1920
      (createCanvas 1080 1920) = inr (tt, c') /\
    textCalls 500 (calls c')
      = [(lit "PROVIDER", (inject_Z 1080 / 2)%Q, (inject_Z 1920 - inject_Z 1920 * 0.05)%Q)].
Proof.
  destruct (missing_provider_is_drawn_as_PROVIDER monoWidth paintRed goldQuest 1080 1920
              (createCanvas 1080 1920)) as (c' & new & Hrun & Hcalls & _ & Hnone).
  exists c'. split; [exact Hrun|]. rewrite Hcalls. apply Hnone. reflexivity.
Defined.

(** ** parseGames *)

Lemma filterValid_None (items : list JSON) :
  filterValid items = None <-> In JNull items.
Proof.
  induction items as [|g rest IH]; cbn [filterValid In].
  - split; [discriminate | tauto].
  - destruct (isValidGame g) as [keep|] eqn:E.
    + destruct (filterValid rest) as [kept|].
      * split; [discriminate|]. intros [->|H]; [discriminate E|].
        now apply IH in H.
      * split; [|reflexivity]. intros _. right. now apply IH.
    + split; [|reflexivity]. intros _. left. destruct g; try discriminate E. reflexivity.
Qed.

Lemma filterValid_Some (items kept : list JSON) :
  filterValid items = Some kept -> kept = filter isValid items.
Proof.
  revert kept. induction items as [|g rest IH]; intros kept; cbn [filterValid filter].
  - intros H. now inversion H.
  - unfold isValid. destruct (isValidGame g) as [keep|]; [|discriminate].
    destruct (filterValid rest) as [kept'|]; [|discriminate].
    intros H. inversion H; subst. rewrite (IH kept' eq_refl).
    destruct keep; reflexivity.
Qed.

Lemma filterValid_total (items : list JSON) :
  ~ In JNull items -> filterValid items = Some (filter isValid items).
Proof.
  intros H. destruct (filterValid items) as [kept|] eqn:E.
  - now rewrite (filterValid_Some _ _ E).
  - apply filterValid_None in E. contradiction.
Qed.

Section ParseGamesFacts.

Variable JSONparse : jsstring -> option JSON.
Variable toPropertyKey : JSON -> option jsstring.

Local Abbreviation invalid := (lit "Invalid JSON format. Please check your input.").
Local Abbreviation noGames :=
  (lit "No valid games found. Ensure JSON has id, name, and gameThumbnail.").

Lemma initialStatuses_strings (validGames : list JSON) :
  (forall s, toPropertyKey (JString s) = Some s) ->
  Forall hasStringId validGames ->
  forall acc, exists s',
    initialStatuses toPropertyKey validGames acc = Some s' /\
    forall k, s' k = if existsb (hasId k) validGames
                     then Some (mkStatus (Some (JString k)) (Some idle) None None None None)
                     else acc k.
Proof.
  intros Hkey. induction 1 as [|g rest [s Hs] _ IH]; intros acc.
  - exists acc. split; [reflexivity|]. intros k. reflexivity.
  - cbn [initialStatuses]. rewrite Hs, Hkey.
    destruct (IH (fun k => if jsstring_eqb k s then Some (initialStatus g) else acc k))
      as (s' & Hrun & Hs').
    exists s'. split; [exact Hrun|]. intros k. rewrite Hs'. cbn [existsb].
    unfold hasId at 2. rewrite Hs.
    destruct (existsb (hasId k) rest); [now rewrite orb_true_r|].
    rewrite orb_false_r. destruct (jsstring_eqb k s) eqn:E; [|reflexivity].
    apply jsstring_eqb_eq in E. subst. unfold initialStatus. now rewrite Hs.
Qed.

(** X23.  Input that is blank after trimming leaves the whole state as
    it is.  Input that does not parse, or that parses to [null] or to an
    array with a [null] entry, is reported as "Invalid JSON format ...";
    input without any entry that has a truthy [id], [name] and
    [gameThumbnail] as "No valid games found ...".  In each of these cases
    the games and the statuses stay as they were. *)
Theorem rejected_input_keeps_games_and_statuses (st : AppState) :
  (trim (jsonInput st) = [] -> parseGames JSONparse toPropertyKey st = st) /\
  (trim (jsonInput st) <> [] ->
   (JSONparse (jsonInput st) = None ->
    parseGames JSONparse toPropertyKey st = withError st invalid) /\
   (forall parsed,
      JSONparse (jsonInput st) = Some parsed -> In JNull (itemsOf parsed) ->
      parseGames JSONparse toPropertyKey st = withError st invalid) /\
   (forall parsed,
      JSONparse (jsonInput st) = Some parsed -> ~ In JNull (itemsOf parsed) ->
      (forall g, In g (itemsOf parsed) -> isValidGame g <> Some true) ->
      parseGames JSONparse toPropertyKey st = withError st noGames)) /\
  (forall text, games (withError st text) = games st /\
                statuses (withError st text) = statuses st).
Proof.
  unfold parseGames. split; [|split].
  - intros Hblank. now rewrite Hblank.
  - intros Hblank. destruct (trim (jsonInput st)) as [|ch t]; [congruence|].
    split; [|split].
    + intros Hp. now rewrite Hp.
    + intros parsed Hp Hnull. rewrite Hp. cbv zeta.
      apply filterValid_None in Hnull. now rewrite Hnull.
    + intros parsed Hp Hnull Hnone. rewrite Hp. cbv zeta.
      rewrite (filterValid_total _ Hnull).
      replace (filter isValid (itemsOf parsed)) with (@nil JSON); [reflexivity|].
      symmetry. induction (itemsOf parsed) as [|g rest IH]; [reflexivity|].
      cbn [filter]. unfold isValid at 1.
      pose proof (Hnone g (or_introl eq_refl)) as Hg.
      destruct (isValidGame g) as [[|]|]; try congruence;
        apply IH; try (intros H; apply Hnull; now right);
        intros g' Hin; apply Hnone; now right.
  - intros text. split; reflexivity.
Qed.

(** X24.  When the input parses, holds no [null] entry and at least one
    valid entry, and the ids of the valid entries are strings, the games
    become the valid entries in their order, the error text is left as it
    was, and the statuses are replaced: every id of a game gets a status
    [idle] without images, and no other status is left. *)
Theorem loaded_games_start_idle (st : AppState) (parsed : JSON) :
  (forall s, toPropertyKey (JString s) = Some s) ->
  trim (jsonInput st) <> [] ->
  JSONparse (jsonInput st) = Some parsed ->
  ~ In JNull (itemsOf parsed) ->
  filter isValid (itemsOf parsed) <> [] ->
  Forall hasStringId (filter isValid (itemsOf parsed)) ->
  let after := parseGames JSONparse toPropertyKey st in
  games after = filter isValid (itemsOf parsed) /\
  parseError after = parseError st /\
  jsonInput after = jsonInput st /\
  forall k,
    statuses after k
      = if existsb (hasId k) (games after)
        then Some (mkStatus (Some (JString k)) (Some idle) None None None None)
        else None.
Proof.
  intros Hkey Hblank Hp Hnull Hsome Hids after. unfold after, parseGames.
  destruct (trim (jsonInput st)) as [|ch t]; [congruence|].
  rewrite Hp. cbv zeta. rewrite (filterValid_total _ Hnull).
  destruct (initialStatuses_strings _ Hkey Hids noStatuses) as (s' & Hrun & Hs').
  destruct (filter isValid (itemsOf parsed)) as [|g gs] eqn:E; [congruence|].
  rewrite Hrun. cbn [games parseError jsonInput statuses].
  repeat (split; [reflexivity|]). exact Hs'.
Qed.

End ParseGamesFacts.

Lemma rejected_input_keeps_games_and_statuses_witness :
  let st := mkState (lit "[null]") [goldEntry] noStatuses None in
  parseGames (parsesAs (JArray [JNull])) stringKey st
    = withError st (lit "Invalid JSON format. Please check your input.").
Proof.
  cbv zeta.
  destruct (rejected_input_keeps_games_and_statuses (parsesAs (JArray [JNull])) stringKey
              (mkState (lit "[null]") [goldEntry] noStatuses None)) as (_ & H & _).
  destruct H as (_ & H & _); [discriminate|].
  apply (H (JArray [JNull])); [reflexivity | left; reflexivity].
Defined.

Lemma loaded_games_start_idle_witness :
  let st := mkState (lit "[...]") [] noStatuses None in
  let after := parseGames (parsesAs (JArray [goldEntry; namelessEntry])) stringKey st in
  games after = [goldEntry] /\
  statuses after (lit "g1")
    = Some (mkStatus (Some (JString (lit "g1"))) (Some idle) None None None None) /\
  statuses after (lit "g2") = None.
Proof.
  cbv zeta.
  destruct (loaded_games_start_idle (parsesAs (JArray [goldEntry; namelessEntry])) stringKey
              (mkState (lit "[...]") [] noStatuses None)
              (JArray [goldEntry; namelessEntry])) as (Hg & _ & _ & Hs).
  - reflexivity.
  - discriminate.
  - reflexivity.
  - intros [H|[H|[]]]; discriminate H.
  - discriminate.
  - repeat constructor. exists (lit "g1"). reflexivity.
  - split; [exact Hg|]. split; rewrite Hs, Hg; reflexivity.
Defined.

(** ** GameCard *)

(** X25.  A card shows at most one of the processing overlay, the error
    overlay and the save link, and none of them exactly when the status is
    [idle] or missing.  The processing overlay is labelled "Fetching",
    "AI Magic" or "Finishing"; the save link names the file after the
    slug, or "game" when the slug is missing or empty. *)
Theorem card_shows_at_most_one_overlay (game : GameData) (st : ProcessingStatus) :
  let p := processingOverlay st in
  let e := errorOverlay st in
  let s := saveLink game st in
  (p = None \/ e = None) /\ (p = None \/ s = None) /\ (e = None \/ s = None) /\
  ((p = None /\ e = None /\ s = None) <-> (status st = Some idle \/ status st = None)) /\
  (forall label, p = Some label ->
     (status st = Some downloading /\ label = lit "Fetching") \/
     (status st = Some generating /\ label = lit "AI Magic") \/
     (status st = Some compositing /\ label = lit "Finishing")) /\
  (forall href file, s = Some (href, file) ->
     status st = Some complete /\ href = finalImageBase64 st /\
     file = orElse (slug game) (lit "game") ++ lit "-portrait.png").
Proof.
  cbv zeta. unfold processingOverlay, errorOverlay, saveLink, isProcessing, statusIs.
  destruct (status st) as [[]|]; cbn [existsb StatusName_eqb orb app];
    (split; [auto|]); (split; [auto|]); (split; [auto|]);
    (split; [split; [intros (H1 & H2 & H3); try discriminate; auto
                    | intros [H|H]; try discriminate; auto] |]);
    (split; [intros label H; inversion H; auto |]);
    intros href file H; inversion H; auto.
Qed.

Section CardFacts.

Variable loadUrl : jsstring -> option Image.
Variable loadImage : jsstring -> option Image.
Variable jpegDataURL : EncodedImage -> jsstring.
Variable pngDataURL : EncodedImage -> jsstring.
Variable exceptionMessage : Error -> option jsstring.
Variable textWidth : Font -> jsstring -> Q.
Variable paint : Z -> Z -> Attrs -> DrawCall -> Bitmap -> Bitmap.
Variable allocates : Z -> Z -> bool.
Variable generateContent : Request -> Outcome Response.

(** X26.  After a run of [processGame] the card of the game shows no
    processing overlay and either the save link to the final image of the
    run, with that image filling the card when its data URL is not empty,
    or the original thumbnail under the error overlay with the error text
    of the run; the overlay's own fallback text "Failed" is not needed. *)
Theorem card_after_a_run (settings : AppSettings) (game : GameData) (prev : Statuses) :
  exists st,
    processGame loadUrl loadImage jpegDataURL pngDataURL exceptionMessage
      textWidth paint allocates generateContent settings game prev (id game) = Some st /\
    processingOverlay st = None /\
    ((exists final,
        saveLink game st
          = Some (Some final, orElse (slug game) (lit "game") ++ lit "-portrait.png") /\
        errorOverlay st = None /\
        (final <> [] -> mainView game st = FinalImage final)) \/
     (exists text,
        text <> [] /\ error st = Some text /\ errorOverlay st = Some text /\
        saveLink game st = None /\
        mainView game st = OriginalThumbnail (gameThumbnail game))).
Proof.
  rewrite processGame_at. unfold processGameUpdates.
  assert (Hfail : forall e updates,
            let st := spread (orEmpty (statusAfter updates (prev (id game))))
                        (failureUpdate e) in
            processingOverlay st = None /\
            exists text,
              text <> [] /\ error st = Some text /\ errorOverlay st = Some text /\
              saveLink game st = None /\
              mainView game st = OriginalThumbnail (gameThumbnail game)).
  { intros e updates st. split; [reflexivity|].
    exists (orElse (message e) (lit "Unknown error")).
    split; [destruct (message e) as [[|ch m]|]; discriminate|].
    split; [reflexivity|]. split.
    - unfold errorOverlay, statusIs. cbn [st spread override failureUpdate u_status u_error
                                           status error StatusName_eqb].
      f_equal. destruct (message e) as [[|ch m]|]; reflexivity.
    - split; reflexivity. }
  destruct (urlToBase64 _ _ _ _ _ _) as [e|o].
  { eexists. split; [reflexivity|]. destruct (Hfail e [mkUpdate None (Some (Some downloading))
                                                        None None None (Some None)])
      as (Hp & Ht). split; [exact Hp|]. right. exact Ht. }
  destruct (generatePortraitImage _ _ _) as [e|c].
  { eexists. split; [reflexivity|].
    destruct (Hfail e [mkUpdate None (Some (Some downloading)) None None None (Some None);
                       mkUpdate None None (Some (Some o)) None None None;
                       mkUpdate None (Some (Some generating)) None None None None])
      as (Hp & Ht). split; [exact Hp|]. right. exact Ht. }
  destruct (compositeFinalImageFrom _ _ _ _ _ _ _ _ _ _ _) as [e|f].
  { eexists. split; [reflexivity|].
    destruct (Hfail e [mkUpdate None (Some (Some downloading)) None None None (Some None);
                       mkUpdate None None (Some (Some o)) None None None;
                       mkUpdate None (Some (Some generating)) None None None None;
                       mkUpdate None None None (Some (Some c)) None None;
                       mkUpdate None (Some (Some compositing)) None None None None])
      as (Hp & Ht). split; [exact Hp|]. right. exact Ht. }
  eexists. split; [reflexivity|]. split; [reflexivity|]. left. exists f.
  split; [reflexivity|]. split; [reflexivity|].
  intros Hf. destruct f as [|ch f]; [congruence|]. reflexivity.
Qed.

End CardFacts.
